(** * Constrained (Lagrangian) PPO: numerical core and preference collation

    A shallow embedding of
      - [align_anything/trainers/text_image_to_text/ppo_lag.py]
        (class [PPOTrainerLag]) and
      - [align_anything/datasets/text_image_to_text/new_preference.py]
        (classes [PreferenceCollator], [PreferenceCollator_ours]).

    Tensors of floating point numbers are idealised as lists of real
    numbers: a tensor of size (B, L) is a list of B rows of length L, and
    rounding, overflow and nan are left out.  Element-wise operations
    follow torch's broadcasting, dimension by dimension: sizes that are
    equal or 1 are combined, any other pair of sizes raises.  A tensor
    without rows has lost its width in this representation.  Python
    exceptions are modelled by [None] (or by a [ValueError] result where
    the message matters). *)

From Stdlib Require Import Reals Lra List Arith Lia Bool ZArith String.
From Stdlib Require Import DecimalString.
Import ListNotations.

Local Open Scope R_scope.

(** * Part I: the program *)

(** ** Tensors as lists of rows *)

Module Tensor.

(** Entry by entry over two lists, as long as both last. *)
Fixpoint map2 {A B C : Type} (f : A -> B -> C) (xs : list A) (ys : list B)
  : list C :=
  match xs, ys with
  | x :: xs', y :: ys' => f x y :: map2 f xs' ys'
  | _, _ => []
  end.

(** [X.size(-1)]: the width of a (B, L) tensor, read off its first row
    (a list of no rows has lost its width: it reads 0 there). *)
Definition size_last {A : Type} (X : list (list A)) : nat :=
  match X with
  | [] => 0%nat
  | row :: _ => List.length row
  end.

(** [X.size() == (B, L)] as a decidable test. *)
Definition has_shape {A : Type} (B L : nat) (X : list (list A)) : bool :=
  (List.length X =? B)%nat && forallb (fun row => (List.length row =? L)%nat) X.

(** [X[b, t]] with a default standing for "outside the tensor". *)
Definition get {A : Type} (d : A) (X : list (list A)) (b t : nat) : A :=
  nth t (nth b X []) d.

(** [f] on every element, failing as soon as one fails. *)
Fixpoint traverse {A B : Type} (f : A -> option B) (l : list A)
  : option (list B) :=
  match l with
  | [] => Some []
  | x :: l' =>
      match f x, traverse f l' with
      | Some y, Some ys => Some (y :: ys)
      | _, _ => None
      end
  end.

(** One dimension of torch's broadcasting: two sizes that are equal go
    entry by entry, a size of 1 is repeated along the other one, and any
    other pair of sizes raises. *)
Definition broadcast {A B C : Type} (f : A -> B -> option C)
    (xs : list A) (ys : list B) : option (list C) :=
  if (List.length xs =? List.length ys)%nat
  then traverse (fun p => f (fst p) (snd p)) (combine xs ys)
  else match xs, ys with
       | [x], _ => traverse (f x) ys
       | _, [y] => traverse (fun x => f x y) xs
       | _, _ => None
       end.

(** An operation entry by entry on two vectors.  A scalar is the vector
    of its one entry here: both broadcast alike against a vector. *)
Definition zip_with {A B C : Type} (f : A -> B -> C)
  : list A -> list B -> option (list C) :=
  broadcast (fun a b => Some (f a b)).

(** [X[:, t]]: an index outside the rows raises. *)
Definition col (X : list (list R)) (t : nat) : option (list R) :=
  traverse (fun row => nth_error row t) X.

(** A boolean mask entry as the number it is multiplied in as. *)
Definition b2r (m : bool) : R := if m then 1 else 0.

(** [X * mask], element-wise on two matrices, rows against rows and then
    entries against entries. *)
Definition mul_mask (X : list (list R)) (M : list (list bool))
  : option (list (list R)) :=
  broadcast (zip_with (fun x m => x * b2r m)) X M.

(** [X + Y], element-wise on two matrices. *)
Definition add2 (X Y : list (list R)) : option (list (list R)) :=
  broadcast (zip_with Rplus) X Y.

(** [torch.stack(cols, dim=1)] for a list of vectors of one size: row [b]
    collects entry [b] of every vector.  Stacking an empty list raises,
    and so do vectors of different sizes. *)
Definition stack_dim1 (cols : list (list R)) : option (list (list R)) :=
  match cols with
  | [] => None
  | c :: _ =>
      if forallb (fun c' => (List.length c' =? List.length c)%nat) cols
      then Some (map (fun b => map (fun c' => nth b c' 0) cols)
                   (seq 0 (List.length c)))
      else None
  end.

(** [torch.clamp(x, min=lo, max=hi)] on one entry: [min(max(x, lo), hi)]. *)
Definition clamp (lo hi x : R) : R := Rmin (Rmax x lo) hi.

End Tensor.

Import Tensor.

(** ** Generalized advantage estimation: [get_advantages_and_returns] *)

Module GAE.

Section Estimator.

Variables gamma gae_lambda : R.

(** One iteration of the loop body at index [t]; the state is
    [(last_gae_lambda, advantages_reversed)], or [None] once an iteration
    has raised.  [length] is [rewards.size(-1)]; the scalar [0.0] is the
    vector [[0]]. *)
Definition gae_step (values rewards : list (list R)) (length : nat)
    (st : option (list R * list (list R))) (t : nat)
  : option (list R * list (list R)) :=
  match st with
  | None => None
  | Some (last_gae_lambda, advantages_reversed) =>
      match (if (t <? length - 1)%nat then col values (t + 1) else Some [0]),
            col rewards t, col values t with
      | Some next_values, Some rewards_t, Some values_t =>
          match zip_with Rplus rewards_t (map (Rmult gamma) next_values) with
          | None => None
          | Some sum =>
              match zip_with Rminus sum values_t with
              | None => None
              | Some delta =>
                  match zip_with Rplus delta
                          (map (Rmult (gamma * gae_lambda)) last_gae_lambda)
                  with
                  | None => None
                  | Some last_gae_lambda =>
                      Some (last_gae_lambda,
                            advantages_reversed ++ [last_gae_lambda])
                  end
              end
          end
      | _, _, _ => None
      end
  end.

Definition get_advantages_and_returns
    (values rewards : list (list R)) (sequence_mask : list (list bool))
    (start : nat) : option (list (list R) * list (list R)) :=
  match mul_mask values sequence_mask, mul_mask rewards sequence_mask with
  | Some values, Some rewards =>
      let length := size_last rewards in
      match fold_left (gae_step values rewards length)
              (rev (seq start (length - start))) (Some ([0], [])) with
      | None => None
      | Some (_, advantages_reversed) =>
          match stack_dim1 (rev advantages_reversed) with
          | None => None
          | Some advantages =>
              match add2 advantages (map (skipn start) values) with
              | None => None
              | Some returns => Some (advantages, returns)
              end
          end
      end
  | _, _ => None
  end.

(** The recurrence on a single trajectory, on already masked rows:
    the advantage at an index from the advantage and value one index
    later, both 0 past the end. *)
Fixpoint gae_row (v r : list R) : list R :=
  match v, r with
  | vt :: v', rt :: r' =>
      let rest := gae_row v' r' in
      (rt + gamma * hd 0 v' - vt + gamma * gae_lambda * hd 0 rest) :: rest
  | _, _ => []
  end.

(** All trajectories of a batch, row by row. *)
Definition gae_rows (V Rw : list (list R)) : list (list R) :=
  map2 gae_row V Rw.

End Estimator.

End GAE.

(** ** KL-penalised reward and cost streams:
       [add_kl_divergence_regularization_with_cost] *)

Module Shaping.

(** [m.nonzero()]: the indices of the true entries, in increasing order. *)
Definition nonzero (m : list bool) : list nat :=
  filter (fun i => nth i m false) (seq 0 (List.length m)).

(** [l[-1]]: the last element; an empty [l] raises IndexError. *)
Definition index_last {A : Type} (l : list A) : option A :=
  match rev l with
  | [] => None
  | x :: _ => Some x
  end.

(** [torch.cat([m.nonzero()[-1] for m in sequence_mask])]: one index per
    row; a row without a true entry raises, and so does an empty batch
    ([torch.cat] of no tensors). *)
Fixpoint last_indices (sequence_mask : list (list bool)) : option (list nat) :=
  match sequence_mask with
  | [] => Some []
  | m :: rest =>
      match index_last (nonzero m), last_indices rest with
      | Some e, Some es => Some (e :: es)
      | _, _ => None
      end
  end.

Definition end_index (sequence_mask : list (list bool)) : option (list nat) :=
  match sequence_mask with
  | [] => None
  | _ => last_indices sequence_mask
  end.

(** [row[e] += x] *)
Fixpoint add_at (e : nat) (x : R) (row : list R) : list R :=
  match row, e with
  | [], _ => []
  | y :: row', O => (y + x) :: row'
  | y :: row', S e' => y :: add_at e' x row'
  end.

(** [torch.scatter_add(input, dim=-1, index=index.unsqueeze(-1),
    src=src.unsqueeze(-1))]: for every row [b] of [index], entry
    [index[b]] of row [b] of a copy of [input] receives [src[b]] in
    addition.  [index] may not have more rows than [input] or [src], and
    an index outside the row raises. *)
Fixpoint scatter_add (input : list (list R)) (index : list nat) (src : list R)
  : option (list (list R)) :=
  match index with
  | [] => Some input
  | e :: index' =>
      match input, src with
      | row :: input', x :: src' =>
          if (e <? List.length row)%nat then
            match scatter_add input' index' src' with
            | Some out => Some (add_at e x row :: out)
            | None => None
            end
          else None
      | _, _ => None
      end
  end.

Section Shaper.

Variables kl_coeff clip_range_score : R.

(** [kl_divergence_estimate = log_probs - ref_log_probs] and
    [kl_penalty_rewards = -self.kl_coeff * kl_divergence_estimate] *)
Definition kl_penalty_rewards (log_probs ref_log_probs : list (list R))
  : option (list (list R)) :=
  match broadcast (zip_with Rminus) log_probs ref_log_probs with
  | None => None
  | Some kl_divergence_estimate =>
      Some (map (map (fun kl => - kl_coeff * kl)) kl_divergence_estimate)
  end.

(** The two streams as they stand after the scatter, before the clamp:
    the local variables [rewards] and [costs]. *)
Definition scattered_streams (reward cost : list R)
    (log_probs ref_log_probs : list (list R)) (sequence_mask : list (list bool))
  : option (list (list R) * list (list R)) :=
  match end_index sequence_mask with
  | None => None
  | Some end_index =>
      match kl_penalty_rewards log_probs ref_log_probs with
      | None => None
      | Some kl_penalty_rewards =>
          match scatter_add kl_penalty_rewards end_index reward,
                scatter_add (map (map Ropp) kl_penalty_rewards) end_index cost
          with
          | Some rewards, Some costs => Some (rewards, costs)
          | _, _ => None
          end
      end
  end.

Definition clamp_score (X : list (list R)) : list (list R) :=
  map (map (clamp (- clip_range_score) clip_range_score)) X.

Definition add_kl_divergence_regularization_with_cost (reward cost : list R)
    (log_probs ref_log_probs : list (list R)) (sequence_mask : list (list bool))
  : option (list (list R) * list (list R)) :=
  match scattered_streams reward cost log_probs ref_log_probs sequence_mask with
  | None => None
  | Some (rewards, costs) => Some (clamp_score rewards, clamp_score costs)
  end.

End Shaper.

(** [(x * mask).sum(dim=-1)] on one row: the sum over the valid positions. *)
Definition masked_sum (x : list R) (mask : list bool) : R :=
  fold_right Rplus 0 (map2 (fun a m => a * b2r m) x mask).

End Shaping.

(** ** The Lagrange multiplier: the dual-ascent part of [rl_step] *)

Module Lagrange.

(** [torch.tensor(self.episode_costs).mean()] *)
Definition mean (xs : list R) : R :=
  fold_right Rplus 0 xs / INR (List.length xs).

(** [-(episode_cost - self.threshold) * self.log_lambda.exp()] *)
Definition lambda_loss_unclamped (episode_cost threshold log_lambda : R) : R :=
  - (episode_cost - threshold) * exp log_lambda.

(** [torch.clamp(lambda_loss, min=-1e6, max=1e6)] *)
Definition lambda_loss (episode_cost threshold log_lambda : R) : R :=
  clamp (-1000000) 1000000
    (lambda_loss_unclamped episode_cost threshold log_lambda).

(** [lambda_loss.backward()]: the gradient that reaches [log_lambda].
    The backward pass of [clamp] lets the gradient through where
    [min <= x <= max] and gives 0 elsewhere; below it, the derivative of
    [-(c - tau) * exp x] is [-(c - tau) * exp x]. *)
Definition lambda_grad (episode_cost threshold log_lambda : R) : R :=
  let raw := lambda_loss_unclamped episode_cost threshold log_lambda in
  if Rle_dec (-1000000) raw then
    if Rle_dec raw 1000000 then - (episode_cost - threshold) * exp log_lambda
    else 0
  else 0.

(** [torch.optim.SGD([p], lr=lr).step()], no momentum, no weight decay. *)
Definition sgd_step (lr p grad : R) : R := p - lr * grad.

(** [log_lambda] after [self.log_lambda_optimizer.step()], before
    [clamp_]. *)
Definition optimizer_step (lr episode_cost threshold log_lambda : R) : R :=
  sgd_step lr log_lambda (lambda_grad episode_cost threshold log_lambda).

(** [self.log_lambda.clamp_(max=self.log_lambda_max)] when a maximum is
    set. *)
Definition clamp_max (log_lambda_max : option R) (log_lambda : R) : R :=
  match log_lambda_max with
  | Some m => Rmin log_lambda m
  | None => log_lambda
  end.

Record state : Type := {
  log_lambda : R;
  log_lambda_max : option R;
  lambda_lr : R;
  lambda_update_delay_steps : nat;
  threshold : R
}.

(** The fields set by [__init__]; [lambda_max] is [None] when the
    configured value is falsy (absent or zero). *)
Definition init (lambda_init : R) (lambda_max : option R) (lambda_lr : R)
    (lambda_update_delay_steps : nat) (threshold : R) : state :=
  {| log_lambda := ln lambda_init;
     log_lambda_max :=
       match lambda_max with
       | Some m => if Req_dec_T m 0 then None else Some (ln m)
       | None => None
       end;
     lambda_lr := lambda_lr;
     lambda_update_delay_steps := lambda_update_delay_steps;
     threshold := threshold |}.

(** The head of [rl_step], seen from one process (the reduction over
    processes is the identity there): [episode_costs] is the content of
    the window, [cfg_threshold] is [cfgs.train_cfgs.threshold]. *)
Definition update (is_main_process : bool) (global_step : nat)
    (cfg_threshold : R) (episode_costs : list R) (st : state) : state :=
  let episode_cost := mean episode_costs in
  if is_main_process && (lambda_update_delay_steps st <=? global_step)%nat then
    {| log_lambda :=
         clamp_max (log_lambda_max st)
           (optimizer_step (lambda_lr st) episode_cost cfg_threshold
              (log_lambda st));
       log_lambda_max := log_lambda_max st;
       lambda_lr := lambda_lr st;
       lambda_update_delay_steps := lambda_update_delay_steps st;
       threshold := cfg_threshold |}
  else st.

End Lagrange.

(** ** The policy loss: [actor_loss_fn_with_cost] *)

Module Updater.

(** [(reward_advantage - multiplier * cost_advantage) / (1.0 + multiplier)]
    on one entry. *)
Definition blend (multiplier reward_advantage cost_advantage : R) : R :=
  (reward_advantage - multiplier * cost_advantage) / (1 + multiplier).

(** [multiplier = self.log_lambda.exp().item()] *)
Definition multiplier (log_lambda : R) : R := exp log_lambda.

(** [advantages = (reward_advantages - multiplier * cost_advantages)
                  / (1.0 + multiplier)] *)
Definition advantages (log_lambda : R)
    (reward_advantages cost_advantages : list (list R))
  : option (list (list R)) :=
  broadcast (zip_with (blend (multiplier log_lambda)))
    reward_advantages cost_advantages.

Section Actor.

Variable clip_range_ratio : R.

(** [masked_mean] of [align_anything.utils.tools] is not part of this
    file; the loss is stated over whatever it computes. *)
Variable masked_mean : list (list R) -> list (list bool) -> R.

Definition surrogate (log_lambda : R)
    (log_probs old_log_probs reward_advantages cost_advantages : list (list R))
  : option (list (list R)) :=
  match advantages log_lambda reward_advantages cost_advantages,
        broadcast (zip_with (fun lp olp => exp (lp - olp)))
          log_probs old_log_probs with
  | Some advantages, Some ratios =>
      match broadcast (zip_with Rmult) advantages ratios,
            broadcast
              (zip_with
                 (fun a r =>
                    a * clamp (1 - clip_range_ratio) (1 + clip_range_ratio) r))
              advantages ratios with
      | Some surrogate1, Some surrogate2 =>
          broadcast (zip_with Rmin) surrogate1 surrogate2
      | _, _ => None
      end
  | _, _ => None
  end.

Definition actor_loss_fn_with_cost (log_lambda : R)
    (log_probs old_log_probs reward_advantages cost_advantages : list (list R))
    (mask : list (list bool)) : option R :=
  match surrogate log_lambda log_probs old_log_probs
          reward_advantages cost_advantages with
  | None => None
  | Some surrogate => Some (- masked_mean surrogate mask)
  end.

End Actor.

End Updater.

(** ** The episode cost window: [collections.deque(maxlen=W)] *)

Module Deque.

Record deque : Type := { maxlen : nat; items : list R }.

(** [deque(maxlen=W)] *)
Definition empty (W : nat) : deque := {| maxlen := W; items := [] |}.

(** [d.append(x)]: [x] goes in on the right; a deque grown past [maxlen]
    drops its leftmost item. *)
Definition append (d : deque) (x : R) : deque :=
  let l := items d ++ [x] in
  {| maxlen := maxlen d;
     items := if (maxlen d <? List.length l)%nat then tl l else l |}.

(** [d.extend(xs)]: [append] for every item, in order. *)
Definition extend (d : deque) (xs : list R) : deque := fold_left append xs d.

(** The [n] last items of a list. *)
Definition lastn {A : Type} (n : nat) (l : list A) : list A :=
  skipn (List.length l - n) l.

End Deque.

(** ** Rollout: [actor_step] and [cost_model_step] *)

Module Rollout.

(** Python's [l[start:]], for a start of either sign. *)
Definition slice_from {A : Type} (start : Z) (l : list A) : list A :=
  if (start <? 0)%Z
  then skipn (Z.to_nat (Z.max 0 (Z.of_nat (List.length l) + start))) l
  else skipn (Z.to_nat start) l.

(** [prompt_length = mini_prompt_only_batch['input_ids'][idx].size(-1) - 1] *)
Definition prompt_length (prompt_input_ids : list Z) : Z :=
  Z.of_nat (List.length prompt_input_ids) - 1.

(** [response = sequences[idx].squeeze()[prompt_length:].tolist()].
    [squeeze] turns a sequence of one token into a 0-dim tensor, which
    cannot be sliced. *)
Definition response (prompt_input_ids sequence : list Z) : option (list Z) :=
  if (List.length sequence =? 1)%nat then None
  else Some (slice_from (prompt_length prompt_input_ids) sequence).

(** [attention_mask]: neither the pad nor the unk token. *)
Definition attention_mask (pad_token_id unk_token_id : Z)
    (sequences : list (list Z)) : list (list bool) :=
  map (map (fun tok => negb (tok =? pad_token_id)%Z
                       && negb (tok =? unk_token_id)%Z)) sequences.

Section ActorStep.

(** [remove_pad_tokens] of [align_anything.utils.tools] is not part of
    this file: the loop is stated over it. *)
Variable remove_pad_tokens : list Z -> Z -> list Z.

(** The loop over [idx in range(batch_size)]; a prompt batch with fewer
    rows than [sequences] raises. *)
Fixpoint response_lens (pad_token_id : Z)
    (prompt_input_ids sequences : list (list Z)) : option (list nat) :=
  match sequences with
  | [] => Some []
  | s :: sequences' =>
      match prompt_input_ids with
      | [] => None
      | p :: prompts' =>
          match response p s, response_lens pad_token_id prompts' sequences' with
          | Some r, Some lens =>
              Some (List.length (remove_pad_tokens r pad_token_id) :: lens)
          | _, _ => None
          end
      end
  end.

End ActorStep.

(** Dropping the pad tokens a list starts with. *)
Fixpoint drop_leading (pad_token_id : Z) (l : list Z) : list Z :=
  match l with
  | [] => []
  | x :: l' => if (x =? pad_token_id)%Z then drop_leading pad_token_id l' else l
  end.

(** Modelled from the spec: [remove_pad_tokens] of
    [align_anything.utils.tools] is missing from the sources at hand; the
    spec says of it that "trailing pad tokens are stripped to obtain the
    true response length". *)
Definition remove_trailing_pad_tokens (response : list Z) (pad_token_id : Z)
  : list Z :=
  rev (drop_leading pad_token_id (rev response)).

(** [cost_model_step], as far as the window is concerned: [cost] is
    the cost model's [end_scores.squeeze(dim=-1)], one scalar
    per trajectory, and
    [self.episode_costs.extend(cost_batch['cost'].tolist())]. *)
Definition cost_model_step (episode_costs : Deque.deque) (cost : list R)
  : Deque.deque :=
  Deque.extend episode_costs cost.

End Rollout.

(** ** [rl_step]: the mask and the targets computed under [no_grad] *)

Module Trainer.

Record training_batch : Type := {
  response_lens : list nat;
  log_probs : list (list R);
  ref_log_probs : list (list R);
  reward : list R;
  reward_values : list (list R);
  cost : list R;
  cost_values : list (list R);
  response_mask : list (list bool)
}.

(** [torch.ones_like(x, dtype=torch.bool)] *)
Definition ones_like {A : Type} (X : list (list A)) : list (list bool) :=
  map (map (fun _ => true)) X.

(** [X[:, :n]] *)
Definition truncate {A : Type} (n : nat) (X : list (list A)) : list (list A) :=
  map (firstn n) X.

Definition new_size (tb : training_batch) : nat :=
  Nat.min (size_last (ones_like (response_mask tb)))
    (Nat.min (size_last (reward_values tb)) (size_last (cost_values tb))).

Definition sequence_mask (tb : training_batch) : list (list bool) :=
  truncate (new_size tb) (ones_like (response_mask tb)).

Record targets : Type := {
  old_rewards : list (list R);
  old_costs : list (list R);
  reward_advantages : list (list R);
  reward_returns : list (list R);
  cost_advantages : list (list R);
  cost_returns : list (list R)
}.

Section Step.

Variables kl_coeff clip_range_score gamma gae_lambda : R.

Definition rl_step_targets (tb : training_batch) : option targets :=
  let sequence_mask := sequence_mask tb in
  let old_reward_values := truncate (new_size tb) (reward_values tb) in
  let old_cost_values := truncate (new_size tb) (cost_values tb) in
  match Shaping.add_kl_divergence_regularization_with_cost
          kl_coeff clip_range_score (reward tb) (cost tb)
          (log_probs tb) (ref_log_probs tb) sequence_mask with
  | None => None
  | Some (old_rewards, old_costs) =>
      match GAE.get_advantages_and_returns gamma gae_lambda
              old_reward_values old_rewards sequence_mask 0,
            GAE.get_advantages_and_returns gamma gae_lambda
              old_cost_values old_costs sequence_mask 0 with
      | Some (ra, rr), Some (ca, cr) =>
          Some {| old_rewards := old_rewards; old_costs := old_costs;
                  reward_advantages := ra; reward_returns := rr;
                  cost_advantages := ca; cost_returns := cr |}
      | _, _ => None
      end
  end.

End Step.

End Trainer.

(** ** Model initialisation: the tokenizer checks of
       [init_models_with_cost_model] *)

Module Init.

Inductive result (A : Type) : Type :=
| Ok (a : A)
| ValueError (message : string).

Arguments Ok {A} a.
Arguments ValueError {A} message.

Record model_cfgs : Type := {
  actor_model_name_or_path : string;
  reward_model_name_or_path : string;
  reward_critic_model_name_or_path : string;
  cost_model_name_or_path : string
}.

Inductive padding_side : Type := Left | Right.

Section Models.

(** What the collaborators give: the tokenizer type with its class name
    and its length, the two loaders (only the tokenizer they return
    matters here), and [is_same_tokenizer] of
    [align_anything.utils.tools]. *)
Variable Tokenizer : Type.
Variable type_name : Tokenizer -> string.
Variable len : Tokenizer -> N.
Variable load_pretrained_models : string -> padding_side -> Tokenizer.
Variable load_pretrained_model_with_value_head :
  string -> padding_side -> Tokenizer.
Variable is_same_tokenizer : Tokenizer -> Tokenizer -> bool.

Record tokenizers : Type := {
  tokenizer : Tokenizer;
  reward_tokenizer : Tokenizer;
  reward_critic_tokenizer : Tokenizer;
  cost_tokenizer : Tokenizer;
  cost_critic_tokenizer : Tokenizer
}.

Definition decimal (n : N) : string :=
  DecimalString.NilEmpty.string_of_uint (N.to_uint n).

(** The message of the only [raise] of the function. *)
Definition reward_critic_message (expected got : Tokenizer) : string :=
  ("Reward critic tokenizer must be the same as actor tokenizer. "
   ++ "Expected " ++ type_name expected
   ++ "(vocab_size=" ++ decimal (len expected) ++ "), "
   ++ "but got " ++ type_name got
   ++ "(vocab_size=" ++ decimal (len got) ++ "). "
   ++ "Please consider pass `--reward_critic_model_name_or_path` from the command line.")%string.

Definition init_models_with_cost_model (cfgs : model_cfgs) : result tokenizers :=
  let tokenizer := load_pretrained_models (actor_model_name_or_path cfgs) Left in
  let reward_tokenizer :=
    load_pretrained_model_with_value_head (reward_model_name_or_path cfgs) Right in
  let reward_critic_tokenizer :=
    load_pretrained_model_with_value_head
      (reward_critic_model_name_or_path cfgs) Left in
  let cost_tokenizer :=
    load_pretrained_model_with_value_head (cost_model_name_or_path cfgs) Right in
  let cost_critic_model_name_or_path := cost_model_name_or_path cfgs in
  let cost_critic_tokenizer :=
    load_pretrained_model_with_value_head cost_critic_model_name_or_path Left in
  let reward_tokenizer :=
    if is_same_tokenizer tokenizer cost_tokenizer then tokenizer
    else reward_tokenizer in
  if negb (is_same_tokenizer tokenizer reward_critic_tokenizer) then
    ValueError (reward_critic_message tokenizer reward_critic_tokenizer)
  else
    Ok {| tokenizer := tokenizer;
          reward_tokenizer := reward_tokenizer;
          reward_critic_tokenizer := tokenizer;
          cost_tokenizer := tokenizer;
          cost_critic_tokenizer := tokenizer |}.

(** The tokenizers as loaded, before any check or overwrite. *)
Definition loaded_cost_critic_tokenizer (cfgs : model_cfgs) : Tokenizer :=
  load_pretrained_model_with_value_head (cost_model_name_or_path cfgs) Left.

Definition loaded_reward_critic_tokenizer (cfgs : model_cfgs) : Tokenizer :=
  load_pretrained_model_with_value_head
    (reward_critic_model_name_or_path cfgs) Left.

Definition loaded_actor_tokenizer (cfgs : model_cfgs) : Tokenizer :=
  load_pretrained_models (actor_model_name_or_path cfgs) Left.

End Models.

(** A concrete world to run the function in: a tokenizer is its class
    name and its vocabulary size, two tokenizers are the same when both
    agree, and a checkpoint directory is mapped to its tokenizer by name. *)
Definition toy_tokenizer : Type := (string * N)%type.

Definition toy_same (a b : toy_tokenizer) : bool :=
  String.eqb (fst a) (fst b) && (snd a =? snd b)%N.

Definition toy_load (path : string) (_ : padding_side) : toy_tokenizer :=
  if String.eqb path "cost-model"
  then ("transformers.GPT2TokenizerFast"%string, 50257%N)
  else ("transformers.LlamaTokenizerFast"%string, 32000%N).

Definition toy_cfgs : model_cfgs :=
  {| actor_model_name_or_path := "actor";
     reward_model_name_or_path := "reward-model";
     reward_critic_model_name_or_path := "reward-model";
     cost_model_name_or_path := "cost-model" |}.

(** The same, with the reward critic taken from the cost model's
    directory. *)
Definition toy_cfgs_reward_critic : model_cfgs :=
  {| actor_model_name_or_path := "actor";
     reward_model_name_or_path := "reward-model";
     reward_critic_model_name_or_path := "cost-model";
     cost_model_name_or_path := "cost-model" |}.

End Init.

(** ** Preference collation: [PreferenceCollator] and
       [PreferenceCollator_ours] *)

Module Preference.

Definition max_length {A : Type} (sequences : list (list A)) : nat :=
  fold_right (fun s m => Nat.max (List.length s) m) 0%nat sequences.

(** Modelled from the spec: [right_padding] of
    [align_anything.utils.tools] is missing from the sources at hand, and
    the spec leaves collation to a collaborator; the helper is modelled
    after its name and the size comments at its call sites, as batch-first
    padding: every sequence is filled on the right with [padding_value] up
    to the longest length, and an empty list of sequences raises. *)
Definition right_padding {A : Type} (sequences : list (list A))
    (padding_value : A) : option (list (list A)) :=
  match sequences with
  | [] => None
  | _ =>
      let L := max_length sequences in
      Some (map (fun s => s ++ repeat padding_value (L - List.length s))
              sequences)
  end.

Section Collate.

(** The type of the entries of an image tensor. *)
Variable Px : Type.

(** A tensor, as far as [torch.cat] and [torch.stack] look at it: its
    size and its entries in row-major order. *)
Record tensor : Type := {
  size : list nat;
  entries : list Px
}.

(** A sample; [pixel_values] is [None] when the key is missing. *)
Record sample : Type := {
  better_input_ids : list Z;
  worse_input_ids : list Z;
  better_response_lens : nat;
  worse_response_lens : nat;
  pixel_values : option tensor;
  is_better_safe : string;
  is_worse_safe : string
}.

Record batch : Type := {
  input_ids : list (list Z);
  attention_mask : list (list bool);
  batch_is_better_safe : option (list string);
  batch_is_worse_safe : option (list string);
  batch_better_response_lens : list nat;
  batch_worse_response_lens : list nat;
  response_lens : list nat;
  image_sizes : option (list nat);
  batch_pixel_values : option tensor
}.

(** [t.dim()] *)
Definition dim (t : tensor) : nat := List.length (size t).

(** [t.size(0)]; a tensor without dimensions raises. *)
Definition size0 (t : tensor) : option nat := hd_error (size t).

Fixpoint same_size (a b : list nat) : bool :=
  match a, b with
  | [], [] => true
  | x :: a', y :: b' => (x =? y)%nat && same_size a' b'
  | _, _ => false
  end.

(** The tensors [torch.cat] passes over: those of size (0,). *)
Definition skipped (t : tensor) : bool :=
  match size t with
  | [O] => true
  | _ => false
  end.

(** [t] can be concatenated along dimension 0 with a tensor of size
    (_, tail): it has a dimension 0 and the same size behind it. *)
Definition fits (tail : list nat) (t : tensor) : bool :=
  match size t with
  | [] => false
  | _ :: tl => same_size tl tail
  end.

(** [torch.cat(ts, dim=0)].  No tensors at all raise; tensors of size
    (0,) are passed over (they have no entries); the others must have at
    least one dimension and agree with the first of them in every
    dimension but the first, and their sizes along that one add up. *)
Definition cat (ts : list tensor) : option tensor :=
  match ts with
  | [] => None
  | _ =>
      match filter (fun t => negb (skipped t)) ts with
      | [] => Some {| size := [0%nat]; entries := [] |}
      | (t0 :: _) as valid =>
          match size t0 with
          | [] => None
          | _ :: tail =>
              if forallb (fits tail) valid
              then Some {| size :=
                             list_sum (map (fun t => hd 0%nat (size t)) ts)
                             :: tail;
                           entries := List.concat (map entries ts) |}
              else None
          end
      end
  end.

(** [torch.stack(ts)]: a new dimension 0 over tensors of one size; no
    tensors at all raise. *)
Definition stack (ts : list tensor) : option tensor :=
  match ts with
  | [] => None
  | t0 :: _ =>
      if forallb (fun t => same_size (size t) (size t0)) ts
      then Some {| size := List.length ts :: size t0;
                   entries := List.concat (map entries ts) |}
      else None
  end.

(** The block under [if 'pixel_values' in samples[0].keys()]: the values
    of the keys [image_sizes] and [pixel_values], when set.  A sample
    without the key raises, and so do tensors that [torch.cat] or
    [torch.stack] reject. *)
Definition collate_pixels (samples : list sample)
  : option (option (list nat) * option tensor) :=
  match samples with
  | [] => None
  | s0 :: _ =>
      match pixel_values s0 with
      | None => Some (None, None)
      | Some t0 =>
          if (dim t0 =? 4)%nat then
            match traverse (fun s => match pixel_values s with
                                     | Some t => size0 t
                                     | None => None
                                     end) samples,
                  traverse pixel_values samples with
            | Some ori_patches, Some _pixel_values_list =>
                match cat _pixel_values_list with
                | None => None
                | Some pixel_values_tensor =>
                    match cat [pixel_values_tensor; pixel_values_tensor] with
                    | None => None
                    | Some double_stacked =>
                        Some (Some (ori_patches ++ ori_patches),
                              Some double_stacked)
                    end
                end
            | _, _ => None
            end
          else
            match traverse pixel_values samples with
            | None => None
            | Some tensors =>
                match stack tensors with
                | None => None
                | Some pixel_values_tensor =>
                    match cat [pixel_values_tensor; pixel_values_tensor] with
                    | None => None
                    | Some double_stacked => Some (None, Some double_stacked)
                    end
                end
            end
      end
  end.

(** What both [__call__] methods share; [with_safe] tells whether the two
    safety lists are set. *)
Definition collate (with_safe : bool) (pad_token_id : Z)
    (samples : list sample) : option batch :=
  let input_ids :=
    map better_input_ids samples ++ map worse_input_ids samples in
  match right_padding input_ids pad_token_id with
  | None => None
  | Some padded_ids =>
      let attention_mask := map (map (fun _ : Z => true)) input_ids in
      match right_padding attention_mask false with
      | None => None
      | Some padded_mask =>
          let better := map better_response_lens samples in
          let worse := map worse_response_lens samples in
          match collate_pixels samples with
          | None => None
          | Some (sizes, pixel_values) =>
              Some {| input_ids := padded_ids;
                      attention_mask := padded_mask;
                      batch_is_better_safe :=
                        if with_safe then Some (map is_better_safe samples)
                        else None;
                      batch_is_worse_safe :=
                        if with_safe then Some (map is_worse_safe samples)
                        else None;
                      batch_better_response_lens := better;
                      batch_worse_response_lens := worse;
                      response_lens := better ++ worse;
                      image_sizes := sizes;
                      batch_pixel_values := pixel_values |}
          end
      end
  end.

(** [PreferenceCollator(pad_token_id)(samples)] *)
Definition PreferenceCollator_call : Z -> list sample -> option batch :=
  collate false.

(** [PreferenceCollator_ours(pad_token_id)(samples)] *)
Definition PreferenceCollator_ours_call : Z -> list sample -> option batch :=
  collate true.

(** The image tensors of the samples agree with the first one's (nothing
    is asked when the first sample has none): every sample has one, and
    when the first has four dimensions each of them is of size (0,) or has
    the size of the first behind dimension 0; otherwise each of them has
    the size of the first. *)
Definition pixels_agree (samples : list sample) : bool :=
  match samples with
  | [] => true
  | s0 :: _ =>
      match pixel_values s0 with
      | None => true
      | Some t0 =>
          forallb (fun s => match pixel_values s with
                            | Some t =>
                                if (dim t0 =? 4)%nat
                                then skipped t || fits (tl (size t0)) t
                                else same_size (size t) (size t0)
                            | None => false
                            end) samples
      end
  end.

(** The entries of the image tensors of the samples, in sample order. *)
Definition sample_entries (samples : list sample) : list Px :=
  List.concat (map (fun s => match pixel_values s with
                             | Some t => entries t
                             | None => []
                             end) samples).

End Collate.

End Preference.

(** ** The KL penalty with a fixed end index:
       [add_kl_divergence_regularization] *)

Module ShapingFixed.

(** [end_index = (L - 1) * torch.ones((B,), dtype=torch.int64)] with
    [B, L = log_probs.size()]; on tensors of width 0 the index is -1, which
    the scatter below rejects (an index outside the row raises), so that
    case is [None] here already.  An empty batch has no index at all. *)
Definition end_index (log_probs : list (list R)) : option (list nat) :=
  let B := List.length log_probs in
  let L := size_last log_probs in
  if (B =? 0)%nat then Some []
  else if (L =? 0)%nat then None
  else Some (repeat (L - 1)%nat B).

Section Shaper.

Variables kl_coeff clip_range_score : R.

(** [sequence_mask] is an argument the function never reads. *)
Definition add_kl_divergence_regularization (reward : list R)
    (log_probs ref_log_probs : list (list R)) (sequence_mask : list (list bool))
  : option (list (list R)) :=
  match end_index log_probs with
  | None => None
  | Some end_index =>
      match Shaping.kl_penalty_rewards kl_coeff log_probs ref_log_probs with
      | None => None
      | Some kl_penalty_rewards =>
          match Shaping.scatter_add kl_penalty_rewards end_index reward with
          | Some rewards => Some (Shaping.clamp_score clip_range_score rewards)
          | None => None
          end
      end
  end.

End Shaper.

End ShapingFixed.

(** ** [rl_step] called again and again, and what it logs about lengths *)

Module Steps.

(** What one call of [rl_step] gives the controller. *)
Record call : Type := {
  is_main_process : bool;
  global_step : nat;
  cfg_threshold : R;
  episode_costs : list R
}.

(** The controller state through a sequence of [rl_step] calls. *)
Definition run (calls : list call) (st : Lagrange.state) : Lagrange.state :=
  fold_left
    (fun st c =>
       Lagrange.update (is_main_process c) (global_step c) (cfg_threshold c)
         (episode_costs c) st)
    calls st.

(** [mask.sum(dim=-1).float()]: the number of true entries of each row. *)
Definition mask_row_sums (mask : list (list bool)) : list R :=
  map (fun m => fold_right Rplus 0 (map b2r m)) mask.

(** [x.max()] of a vector; the maximum of no entries raises. *)
Definition tensor_max (xs : list R) : option R :=
  match xs with
  | [] => None
  | x :: xs' => Some (fold_left Rmax xs' x)
  end.

(** [mean_generated_length = mask.sum(dim=-1).float().mean()] with
    [mask = sequence_mask]. *)
Definition mean_generated_length (tb : Trainer.training_batch) : R :=
  Lagrange.mean (mask_row_sums (Trainer.sequence_mask tb)).

(** [max_generated_length = mask.sum(dim=-1).float().max()] *)
Definition max_generated_length (tb : Trainer.training_batch) : option R :=
  tensor_max (mask_row_sums (Trainer.sequence_mask tb)).

End Steps.

(** ** [rollout]: micro-batches and response slices *)

Module MicroBatch.

(** [range(0, total, step)] for a step that is not negative: a zero step
    raises. *)
Definition range_step (total step : nat) : option (list nat) :=
  if (step =? 0)%nat then None
  else Some (map (fun k => (k * step)%nat)
               (seq 0 ((total + step - 1) / step))).

(** [x[i : i + n]] *)
Definition slice {A : Type} (i n : nat) (x : list A) : list A :=
  firstn n (skipn i x).

(** The loop head of [rollout], on a batch without [image_sizes]: every
    tensor of the batch is cut along its rows into
    [x[i : i + micro_batch_size]] for [i] in
    [range(0, total_batch_size, micro_batch_size)]. *)
Definition micro_batches {A : Type} (micro_batch_size : nat) (x : list A)
  : option (list (list A)) :=
  match range_step (List.length x) micro_batch_size with
  | None => None
  | Some starts => Some (map (fun i => slice i micro_batch_size x) starts)
  end.

End MicroBatch.

Module Slices.

(** Python's [l[-n:]] for an [n] that is not negative: [-0] is [0], so
    [l[-0:]] is all of [l], and an [n] beyond the length gives all of [l]
    too. *)
Definition last_slice {A : Type} (n : nat) (l : list A) : list A :=
  if (n =? 0)%nat then l else skipn (List.length l - n) l.

(** [actor_batch['input_ids'][idx, 1:][-response_length:]] *)
Definition response_input_ids (input_ids : list Z) (response_length : nat)
  : list Z :=
  last_slice response_length (skipn 1 input_ids).

(** [logits[idx, :-1][-response_length:]] *)
Definition response_logits {Logit : Type} (logits : list Logit)
    (response_length : nat) : list Logit :=
  last_slice response_length (firstn (List.length logits - 1) logits).

End Slices.

(** ** Model initialisation without a cost model: [init_models] *)

Module InitReward.

Section Models.

(** The collaborators are those of [Init]; of the loaders' arguments the
    model keeps the path and the padding side. *)
Variable Tokenizer : Type.
Variable type_name : Tokenizer -> string.
Variable len : Tokenizer -> N.
Variable load_pretrained_models : string -> Init.padding_side -> Tokenizer.
Variable load_pretrained_model_with_value_head :
  string -> Init.padding_side -> Tokenizer.
Variable is_same_tokenizer : Tokenizer -> Tokenizer -> bool.

Record tokenizers : Type := {
  tokenizer : Tokenizer;
  reward_tokenizer : Tokenizer;
  reward_critic_tokenizer : Tokenizer
}.

Definition init_models (cfgs : Init.model_cfgs) : Init.result tokenizers :=
  let tokenizer :=
    load_pretrained_models (Init.actor_model_name_or_path cfgs) Init.Left in
  let reward_tokenizer :=
    load_pretrained_model_with_value_head
      (Init.reward_model_name_or_path cfgs) Init.Right in
  let reward_critic_tokenizer :=
    load_pretrained_model_with_value_head
      (Init.reward_critic_model_name_or_path cfgs) Init.Left in
  let reward_tokenizer :=
    if is_same_tokenizer tokenizer reward_tokenizer then tokenizer
    else reward_tokenizer in
  if negb (is_same_tokenizer tokenizer reward_critic_tokenizer) then
    Init.ValueError
      (Init.reward_critic_message Tokenizer type_name len
         tokenizer reward_critic_tokenizer)
  else
    Init.Ok {| tokenizer := tokenizer;
               reward_tokenizer := reward_tokenizer;
               reward_critic_tokenizer := tokenizer |}.

End Models.

End InitReward.

(** ** [train]: pairing prompt batches with ptx batches, counting steps *)

Module Train.

(** [num_ptx_replicas =
      (num_prompt_only_batches + num_ptx_batches - 1) // num_ptx_batches];
    an empty ptx dataloader makes the division raise. *)
Definition num_ptx_replicas (num_prompt_only_batches num_ptx_batches : nat)
  : option nat :=
  if (num_ptx_batches =? 0)%nat then None
  else Some ((num_prompt_only_batches + num_ptx_batches - 1)
             / num_ptx_batches)%nat.

(** [zip(self.prompt_only_dataloader,
         itertools.chain.from_iterable([self.ptx_dataloader] * num_ptx_replicas))]:
    [ptx_pass k] is what the [k]-th iteration over the ptx dataloader
    yields (a dataloader may shuffle between passes). *)
Definition batch_pairs {P X : Type} (prompt_only_dataloader : list P)
    (num_ptx_batches : nat) (ptx_pass : nat -> list X) : option (list (P * X)) :=
  match num_ptx_replicas (List.length prompt_only_dataloader) num_ptx_batches with
  | None => None
  | Some replicas =>
      Some (combine prompt_only_dataloader
              (List.concat (map ptx_pass (seq 0 replicas))))
  end.

(** [self.total_training_steps] of [init_deepspeed_engines_with_cost_model]:
    [len(dataloader) * epochs * update_iters * per_device_prompt_batch_size
     // per_device_train_batch_size]. *)
Definition total_training_steps (num_prompt_only_batches epochs update_iters
    per_device_prompt_batch_size per_device_train_batch_size : nat)
  : option nat :=
  if (per_device_train_batch_size =? 0)%nat then None
  else Some ((num_prompt_only_batches * epochs * update_iters
              * per_device_prompt_batch_size)
             / per_device_train_batch_size)%nat.

(** The two inner loops of [train], as far as [global_step] goes.
    [inference_batches] and [training_batches] are what [rollout] returned,
    [ptx_batch] is the ptx batch paired with the prompt batch, and
    [split_ptx_micro_batches] (inherited, not part of this file) cuts it
    into micro-batches.  For every update iteration the zip of the three
    lists is walked, with one [rl_step] and one increment for every
    triple: the zip stops with the shortest list. *)
Definition steps_on_rollout {MB X PB : Type} (use_ptx : bool)
    (split_ptx_micro_batches : X -> list PB) (update_iters : nat)
    (inference_batches training_batches : list MB) (ptx_batch : X)
    (global_step : nat) : nat :=
  let ptx_batches : list (option PB) :=
    if use_ptx then map Some (split_ptx_micro_batches ptx_batch)
    else map (fun _ => None) inference_batches in
  fold_left
    (fun g _ =>
       fold_left (fun g' _ => S g')
         (combine (combine inference_batches training_batches) ptx_batches) g)
    (seq 0 update_iters) global_step.

(** One epoch: every prompt batch is rolled out into micro-batches of
    [per_device_train_batch_size] rows (one inference batch and one
    training batch for each of them) and then trained on. *)
Fixpoint epoch_steps {Row X PB : Type} (use_ptx : bool)
    (split_ptx_micro_batches : X -> list PB)
    (update_iters per_device_train_batch_size : nat)
    (pairs : list (list Row * X)) (global_step : nat) : option nat :=
  match pairs with
  | [] => Some global_step
  | (prompt_only_batch, ptx_batch) :: rest =>
      match MicroBatch.micro_batches per_device_train_batch_size
              prompt_only_batch with
      | None => None
      | Some micro_batches =>
          epoch_steps use_ptx split_ptx_micro_batches update_iters
            per_device_train_batch_size rest
            (steps_on_rollout use_ptx split_ptx_micro_batches update_iters
               micro_batches micro_batches ptx_batch global_step)
      end
  end.

(** [self.global_step] when [train] returns (on batches without
    [image_sizes]): [epochs] times over the pairs the zip of the prompt
    batches with the ptx batches lets through.  [ptx_pass k] is the
    [k]-th iteration over the ptx dataloader since [train] began, so an
    epoch that made [replicas] passes leaves the next epoch the passes
    from [replicas] on. *)
Fixpoint train_global_step {Row X PB : Type} (use_ptx : bool)
    (split_ptx_micro_batches : X -> list PB)
    (epochs update_iters per_device_train_batch_size : nat)
    (prompt_only_dataloader : list (list Row))
    (num_ptx_batches : nat) (ptx_pass : nat -> list X) (global_step : nat)
  : option nat :=
  match num_ptx_replicas (List.length prompt_only_dataloader)
          num_ptx_batches with
  | None => None
  | Some num_ptx_replicas =>
      match epochs with
      | O => Some global_step
      | S epochs' =>
          match batch_pairs prompt_only_dataloader num_ptx_batches ptx_pass with
          | None => None
          | Some pairs =>
              match epoch_steps use_ptx split_ptx_micro_batches update_iters
                      per_device_train_batch_size pairs global_step with
              | None => None
              | Some g =>
                  train_global_step use_ptx split_ptx_micro_batches epochs'
                    update_iters per_device_train_batch_size
                    prompt_only_dataloader num_ptx_batches
                    (fun k => ptx_pass (num_ptx_replicas + k)%nat) g
              end
          end
      end
  end.

End Train.

(** ** The preference datasets: [pre_tokenize] and [__init__] *)

Module PreferenceData.

(** [formatted_sample['better_text']] and [['worse_text']]: a string, a
    list of strings, or a value that is neither and can neither be joined
    nor added to a string. *)
Inductive text : Type :=
| Str (s : string)
| Lst (l : list string)
| Other.


Section Dataset.

Variable Px : Type.
Variables Item RawImage : Type.

Record formatted_sample : Type := {
  prompt : string;
  better_text : text;
  worse_text : text;
  image : RawImage;
  fs_is_better_safe : string;
  fs_is_worse_safe : string
}.

(** The collaborators: the template ([format_sample], [check_equal]), the
    tokenizer ([tokenize] is [self.tokenize] with its default arguments)
    and the image processor (its [pixel_values'][0]). *)
Variable format_sample : Item -> formatted_sample.
Variable check_equal : Item -> bool.
Variable tokenize : string -> list Z.
Variable eos_token : string.
Variable model_max_length : Z.
Variable image_processor : RawImage -> Preference.tensor Px.

(** [sep.join(t)]: a list is joined, a string is joined character by
    character, anything else raises. *)
Definition join (sep : string) (t : text) : option string :=
  match t with
  | Lst l => Some (String.concat sep l)
  | Str s =>
      Some (String.concat sep
              (map (fun c => String c EmptyString) (list_ascii_of_string s)))
  | Other => None
  end.

(** [a + t] for a string [a]: only a string can be added. *)
Definition add_text (a : string) (t : text) : option string :=
  match t with
  | Str s => Some (a ++ s)%string
  | _ => None
  end.

(** The local variables that outlive an iteration of the loop:
    [raw_better_response] and [raw_worse_response] are assigned in the
    string branch only and are unbound before. *)
Record locals : Type := {
  data : list (Preference.sample Px);
  raw_better_response : option string;
  raw_worse_response : option string
}.

(** The texts of one item: [(raw_better_text, raw_worse_text)] and the
    two response variables as the branch leaves them. *)
Definition raw_texts (fs : formatted_sample) (st : locals)
  : option (string * string * option string * option string) :=
  match better_text fs with
  | Lst better =>
      match join eos_token (worse_text fs) with
      | Some w =>
          Some (String.concat eos_token better, w,
                raw_better_response st, raw_worse_response st)
      | None => None
      end
  | Str better =>
      match add_text (prompt fs) (worse_text fs),
            add_text EmptyString (worse_text fs) with
      | Some pw, Some w =>
          Some (((prompt fs ++ better) ++ eos_token)%string,
                (pw ++ eos_token)%string,
                Some (better ++ eos_token)%string,
                Some (w ++ eos_token)%string)
      | _, _ => None
      end
  | Other => None
  end.

(** One iteration of the loop of [pre_tokenize]; [ours] is true for
    [PreferenceDataset_ours], which also copies the two safety labels
    (the plain dataset leaves these keys out: they read as empty here). *)
Definition pre_tokenize_step (ours : bool) (st : locals) (item : Item)
  : option locals :=
  let fs := format_sample item in
  match raw_texts fs st with
  | None => None
  | Some (raw_better_text, raw_worse_text, rb, rw) =>
      match rb, rw with
      | Some raw_better_response, Some raw_worse_response =>
          let return_dict :=
            {| Preference.better_input_ids := tokenize raw_better_text;
               Preference.worse_input_ids := tokenize raw_worse_text;
               Preference.better_response_lens :=
                 List.length (tokenize raw_better_response);
               Preference.worse_response_lens :=
                 List.length (tokenize raw_worse_response);
               Preference.pixel_values := Some (image_processor (image fs));
               Preference.is_better_safe :=
                 if ours then fs_is_better_safe fs else EmptyString;
               Preference.is_worse_safe :=
                 if ours then fs_is_worse_safe fs else EmptyString |} in
          let keep :=
            (Z.of_nat (List.length (tokenize raw_better_text))
             <? model_max_length - 576)%Z
            && (Z.of_nat (List.length (tokenize raw_worse_text))
                <? model_max_length - 576)%Z
            && negb (check_equal item) in
          Some {| data := if keep then data st ++ [return_dict] else data st;
                  raw_better_response := rb;
                  raw_worse_response := rw |}
      | _, _ => None
      end
  end.

Fixpoint pre_tokenize_loop (ours : bool) (raw_data : list Item) (st : locals)
  : option locals :=
  match raw_data with
  | [] => Some st
  | item :: rest =>
      match pre_tokenize_step ours st item with
      | None => None
      | Some st' => pre_tokenize_loop ours rest st'
      end
  end.

Definition pre_tokenize (ours : bool) (raw_data : list Item)
  : option (list (Preference.sample Px)) :=
  match pre_tokenize_loop ours raw_data
          {| data := []; raw_better_response := None;
             raw_worse_response := None |} with
  | None => None
  | Some st => Some (data st)
  end.


(** [super().__init__()], the first statement of both constructors: the
    constructor, called without arguments, of the class the name
    [Dataset] stands for when the two class statements run.  The module
    binds that name twice, to [torch.utils.data.Dataset] (line 26) and
    then to [datasets.Dataset] (line 35), so it is the latter's; neither
    class is part of these files.  [None] stands for the call raising
    (as a constructor with a required argument does). *)
Variable super_init : option unit.



(** What one string item contributes, and whether it is kept. *)
Definition sample_of (ours : bool) (item : Item) : Preference.sample Px :=
  let fs := format_sample item in
  let better := match better_text fs with Str s => s | _ => EmptyString end in
  let worse := match worse_text fs with Str s => s | _ => EmptyString end in
  {| Preference.better_input_ids :=
       tokenize ((prompt fs ++ better) ++ eos_token)%string;
     Preference.worse_input_ids :=
       tokenize ((prompt fs ++ worse) ++ eos_token)%string;
     Preference.better_response_lens :=
       List.length (tokenize (better ++ eos_token)%string);
     Preference.worse_response_lens :=
       List.length (tokenize ((EmptyString ++ worse) ++ eos_token)%string);
     Preference.pixel_values := Some (image_processor (image fs));
     Preference.is_better_safe :=
       if ours then fs_is_better_safe fs else EmptyString;
     Preference.is_worse_safe :=
       if ours then fs_is_worse_safe fs else EmptyString |}.

Definition kept (ours : bool) (item : Item) : bool :=
  (Z.of_nat (List.length (Preference.better_input_ids Px (sample_of ours item)))
   <? model_max_length - 576)%Z
  && (Z.of_nat (List.length (Preference.worse_input_ids Px (sample_of ours item)))
      <? model_max_length - 576)%Z
  && negb (check_equal item).

Definition is_str (t : text) : bool :=
  match t with
  | Str _ => true
  | _ => false
  end.

(** Both texts of the item are strings. *)
Definition both_str (item : Item) : bool :=
  is_str (better_text (format_sample item))
  && is_str (worse_text (format_sample item)).

End Dataset.

(** A small world to run the datasets in: an item is its two answers,
    the prompt is fixed, a token is a character, and every image is the
    same tensor of size (1, 1, 2). *)
Definition toy_format (item : string * string) : formatted_sample unit :=
  {| prompt := "Q:";
     better_text := Str (fst item);
     worse_text := Str (snd item);
     image := tt;
     fs_is_better_safe := "yes";
     fs_is_worse_safe := "no" |}.

Definition toy_tokenize (s : string) : list Z :=
  map (fun c => Z.of_nat (Ascii.nat_of_ascii c)) (list_ascii_of_string s).

Definition toy_check_equal (item : string * string) : bool :=
  String.eqb (fst item) (snd item).

Definition toy_image_processor (_ : unit) : Preference.tensor nat :=
  {| Preference.size := [1; 1; 2]%nat; Preference.entries := [0; 0]%nat |}.

End PreferenceData.

(** ** [replace_image_token] *)

Module ImageToken.

(** [s[n:]] on a string. *)
Fixpoint drop (n : nat) (s : string) : string :=
  match n, s with
  | O, _ => s
  | S n', String _ s' => drop n' s'
  | S _, EmptyString => EmptyString
  end.

(** The scan of [text.split(sep)] for a separator that is not empty: the
    leftmost occurrence of [sep] closes the part being read ([cur]) and
    the scan goes on behind it.  [fuel] bounds the number of steps; more
    than the length of [text] is enough. *)
Fixpoint split_aux (fuel : nat) (sep text cur : string) : list string :=
  match fuel with
  | O => [cur]
  | S fuel' =>
      if String.prefix sep text
      then cur :: split_aux fuel' sep (drop (String.length sep) text) EmptyString
      else match text with
           | EmptyString => [cur]
           | String c text' =>
               split_aux fuel' sep text' (cur ++ String c EmptyString)
           end
  end.

(** [text.split(sep)]; an empty separator raises. *)
Definition split (text sep : string) : option (list string) :=
  match sep with
  | EmptyString => None
  | _ => Some (split_aux (S (String.length text)) sep text EmptyString)
  end.

(** [replace_image_token(text, token)]: whether the split has more than
    two parts.  The default token is ["<image>"]. *)
Definition replace_image_token (text token : string) : option bool :=
  match split text token with
  | None => None
  | Some parts => Some (2 <? List.length parts)%nat
  end.

(** [text] holds [k] occurrences of [token], one behind the other. *)
Fixpoint occurs (k : nat) (token text : string) : Prop :=
  match k with
  | O => True
  | S k' => exists a r, text = (a ++ token ++ r)%string /\ occurs k' token r
  end.

End ImageToken.

(** * Part II: properties *)

(** The element-wise operations of the estimator on operands of one
    shape, where nothing raises: what [mul_mask], [X[:, t]] and [+] compute
    there. *)
Local Abbreviation masked X M :=
  (map2 (map2 (fun (x : R) (m : bool) => x * b2r m)) X M).
Local Abbreviation column X t := (map (fun row : list R => nth t row 0) X).
Local Abbreviation sum2 X Y := (map2 (map2 Rplus) X Y).
Local Abbreviation kl_penalty k lp rlp :=
  (map (map (fun kl : R => - k * kl)) (map2 (map2 Rminus) lp rlp)).

(** The blended advantages and the clipped surrogate on operands of one
    shape. *)
Local Abbreviation blended x RA CA :=
  (map2 (map2 (Updater.blend (Updater.multiplier x))) RA CA).
Local Abbreviation clipped eps x lp olp RA CA :=
  (map2 (map2 Rmin)
     (map2 (map2 Rmult) (blended x RA CA)
        (map2 (map2 (fun lp' olp' : R => exp (lp' - olp'))) lp olp))
     (map2 (map2 (fun a r : R => a * clamp (1 - eps) (1 + eps) r))
        (blended x RA CA)
        (map2 (map2 (fun lp' olp' : R => exp (lp' - olp'))) lp olp))).


(** ** Lists and shapes *)

Section TensorFacts.

Context {A B C : Type}.

Lemma map2_length (f : A -> B -> C) xs ys :
  List.length (map2 f xs ys) = Nat.min (List.length xs) (List.length ys).
Proof.
  revert ys; induction xs as [|x xs IH]; intros [|y ys]; simpl; auto.
Qed.

Lemma map2_nth (f : A -> B -> C) xs ys i da db dc :
  (i < List.length xs)%nat -> (i < List.length ys)%nat ->
  nth i (map2 f xs ys) dc = f (nth i xs da) (nth i ys db).
Proof.
  revert ys i; induction xs as [|x xs IH]; intros [|y ys] [|i]; simpl;
    intros; try lia; auto.
  apply IH; lia.
Qed.

End TensorFacts.

Lemma has_shape_length {A} B L (X : list (list A)) :
  has_shape B L X = true -> List.length X = B.
Proof.
  unfold has_shape; intros H; apply andb_prop in H as [H _].
  now apply Nat.eqb_eq.
Qed.

Lemma has_shape_rows {A} B L (X : list (list A)) :
  has_shape B L X = true -> Forall (fun row => List.length row = L) X.
Proof.
  unfold has_shape; intros H; apply andb_prop in H as [_ H].
  rewrite forallb_forall in H. apply Forall_forall; intros r Hr.
  now apply Nat.eqb_eq, H.
Qed.

Lemma has_shape_intro {A} B L (X : list (list A)) :
  List.length X = B -> Forall (fun row => List.length row = L) X ->
  has_shape B L X = true.
Proof.
  intros H1 H2; unfold has_shape; apply andb_true_intro; split.
  - now apply Nat.eqb_eq.
  - apply forallb_forall; intros r Hr. apply Nat.eqb_eq.
    rewrite Forall_forall in H2; auto.
Qed.

Lemma has_shape_row {A} B L (X : list (list A)) b :
  has_shape B L X = true -> (b < B)%nat -> List.length (nth b X []) = L.
Proof.
  intros H Hb. pose proof (has_shape_rows _ _ _ H) as Hr.
  rewrite Forall_forall in Hr. apply Hr, nth_In.
  now rewrite (has_shape_length _ _ _ H).
Qed.

Lemma has_shape_size_last {A} B L (X : list (list A)) :
  has_shape B L X = true -> (1 <= B)%nat -> size_last X = L.
Proof.
  intros H HB. pose proof (has_shape_row B L X 0 H HB) as H0.
  pose proof (has_shape_length _ _ _ H) as Hl.
  destruct X; simpl in *; [lia | assumption].
Qed.

Lemma masked_shape B L X M :
  has_shape B L X = true -> has_shape B L M = true ->
  has_shape B L (masked X M) = true.
Proof.
  intros HX HM.
  pose proof (has_shape_length _ _ _ HX) as LX.
  pose proof (has_shape_length _ _ _ HM) as LM.
  pose proof (has_shape_rows _ _ _ HX) as RX.
  pose proof (has_shape_rows _ _ _ HM) as RM.
  apply has_shape_intro.
  - rewrite map2_length; lia.
  - clear HX HM LX LM B.
    revert M RM; induction RX as [|x X Hx RX IH]; intros [|m M] RM; simpl;
      try constructor.
    + rewrite map2_length. inversion RM; subst; lia.
    + apply IH. now inversion RM.
Qed.

Lemma masked_get B L X M b t :
  has_shape B L X = true -> has_shape B L M = true ->
  (b < B)%nat -> (t < L)%nat ->
  get 0 (masked X M) b t = get 0 X b t * b2r (get false M b t).
Proof.
  intros HX HM Hb Ht. unfold get.
  rewrite (map2_nth _ X M b [] [] []).
  - rewrite (map2_nth _ _ _ t 0 false 0); auto.
    + now rewrite (has_shape_row B L X b).
    + now rewrite (has_shape_row B L M b).
  - now rewrite (has_shape_length _ _ _ HX).
  - now rewrite (has_shape_length _ _ _ HM).
Qed.

Lemma nth_map_in {A B} (f : A -> B) l i da db :
  (i < List.length l)%nat -> nth i (map f l) db = f (nth i l da).
Proof.
  revert i; induction l as [|x l IH]; intros [|i] H; simpl in *; try lia; auto.
  apply IH; lia.
Qed.

Lemma col_length X t : List.length (column X t) = List.length X.
Proof. now rewrite length_map. Qed.

Lemma col_nth X t b :
  (b < List.length X)%nat -> nth b (column X t) 0 = get 0 X b t.
Proof.
  intros Hb. unfold get.
  now rewrite (nth_map_in _ _ b []).
Qed.

Lemma col_beyond L X k :
  Forall (fun row => List.length row = L) X -> (L <= k)%nat ->
  column X k = repeat 0 (List.length X).
Proof.
  intros HX Hk; induction HX as [|x X Hx HX IH]; simpl; auto.
  rewrite IH, nth_overflow by lia. reflexivity.
Qed.

Lemma map_nth_seq {A} (d : A) (l : list A) :
  map (fun t => nth t l d) (seq 0 (List.length l)) = l.
Proof.
  apply (nth_ext _ _ d d).
  - now rewrite length_map, length_seq.
  - intros i Hi. rewrite length_map, length_seq in Hi.
    rewrite (nth_map_in _ _ i 0%nat) by now rewrite length_seq.
    now rewrite seq_nth.
Qed.

(** ** The advantage estimator *)

Section GAEFacts.

Variables gamma gae_lambda : R.

Local Abbreviation gae_row := (GAE.gae_row gamma gae_lambda).
Local Abbreviation gae_rows := (GAE.gae_rows gamma gae_lambda).

Lemma gae_row_length v r :
  List.length v = List.length r -> List.length (gae_row v r) = List.length v.
Proof.
  revert r; induction v as [|x v IH]; intros [|y r] H; simpl in *;
    try lia; auto.
Qed.

Lemma hd_nth0 (l : list R) : hd 0 l = nth 0 l 0.
Proof. now destruct l. Qed.

Lemma gae_row_nth v r t :
  List.length v = List.length r -> (t < List.length v)%nat ->
  nth t (gae_row v r) 0 =
    nth t r 0 + gamma * nth (S t) v 0 - nth t v 0
    + gamma * gae_lambda * nth (S t) (gae_row v r) 0.
Proof.
  revert r t; induction v as [|x v IH]; intros [|y r] t Hl Ht; simpl in *;
    try lia.
  destruct t as [|t].
  - now rewrite !hd_nth0.
  - apply IH; lia.
Qed.

Lemma gae_rows_shape B L V Rw :
  has_shape B L V = true -> has_shape B L Rw = true ->
  has_shape B L (gae_rows V Rw) = true.
Proof.
  intros HV HR.
  pose proof (has_shape_length _ _ _ HV) as LV.
  pose proof (has_shape_length _ _ _ HR) as LR.
  pose proof (has_shape_rows _ _ _ HV) as RV.
  pose proof (has_shape_rows _ _ _ HR) as RR.
  apply has_shape_intro.
  - unfold gae_rows; rewrite map2_length; lia.
  - clear HV HR LV LR B. unfold gae_rows.
    revert Rw RR; induction RV as [|v V Hv RV IH]; intros [|r Rw] RR; simpl;
      try constructor.
    + inversion RR; subst. rewrite gae_row_length; lia.
    + apply IH. now inversion RR.
Qed.

Lemma gae_rows_get B L V Rw b t :
  has_shape B L V = true -> has_shape B L Rw = true -> (b < B)%nat ->
  get 0 (gae_rows V Rw) b t = nth t (gae_row (nth b V []) (nth b Rw [])) 0.
Proof.
  intros HV HR Hb. unfold get, gae_rows. f_equal.
  apply map2_nth.
  - now rewrite (has_shape_length _ _ _ HV).
  - now rewrite (has_shape_length _ _ _ HR).
Qed.

(** One loop iteration turns the advantage column of index [t + 1] into the
    one of index [t]. *)
Lemma gae_col_step L V Rw t :
  Forall (fun row => List.length row = L) V ->
  Forall (fun row => List.length row = L) Rw ->
  List.length V = List.length Rw -> (t < L)%nat ->
  map2 Rplus
    (map2 Rminus
       (map2 Rplus (column Rw t) (map (Rmult gamma) (column V (S t)))) (column V t))
    (map (Rmult (gamma * gae_lambda)) (column (gae_rows V Rw) (S t)))
  = column (gae_rows V Rw) t.
Proof.
  intros HV; revert Rw; induction HV as [|v V Hv HV IH];
    intros [|r Rw] HR Hl Ht; simpl in *; try lia; auto.
  inversion HR; subst. f_equal.
  - rewrite (gae_row_nth v r t) by lia. lra.
  - apply IH; auto.
Qed.

(** Broadcasting on operands of one size is the operation entry by
    entry; against a scalar it is the operation with that scalar. *)
Lemma zip_with_same {A C D} (f : A -> C -> D) xs ys :
  List.length xs = List.length ys -> zip_with f xs ys = Some (map2 f xs ys).
Proof.
  intros Hlen. unfold zip_with, broadcast.
  rewrite Hlen, Nat.eqb_refl. clear Hlen.
  revert ys; induction xs as [|x xs IH]; intros [|y ys]; simpl; auto.
  now rewrite IH.
Qed.

Lemma map2_repeat {A C D} (f : A -> C -> D) xs y :
  map2 f xs (repeat y (List.length xs)) = map (fun x => f x y) xs.
Proof. induction xs as [|x xs IH]; simpl; [reflexivity | now rewrite IH]. Qed.

Lemma zip_with_scalar {A C D} (f : A -> C -> D) xs y :
  zip_with f xs [y] = Some (map2 f xs (repeat y (List.length xs))).
Proof.
  rewrite map2_repeat. unfold zip_with, broadcast.
  assert (Hmap : traverse (fun x => Some (f x y)) xs
                 = Some (map (fun x => f x y) xs)).
  { induction xs as [|x xs IH]; simpl; [reflexivity | now rewrite IH]. }
  destruct xs as [|x [|x' xs]]; [reflexivity | reflexivity |].
  cbn [List.length Nat.eqb]. exact Hmap.
Qed.

Lemma matrix_op_same {A C D} (f : A -> C -> D) B L X Y :
  has_shape B L X = true -> has_shape B L Y = true ->
  broadcast (zip_with f) X Y = Some (map2 (map2 f) X Y).
Proof.
  intros HX HY. unfold broadcast.
  rewrite (has_shape_length _ _ _ HX), (has_shape_length _ _ _ HY),
    Nat.eqb_refl.
  pose proof (has_shape_rows _ _ _ HX) as RX.
  pose proof (has_shape_rows _ _ _ HY) as RY.
  clear HX HY B.
  revert Y RY; induction RX as [|x X Hx RX IH]; intros [|y Y] RY; simpl; auto.
  inversion RY; subst.
  rewrite zip_with_same by lia. now rewrite IH.
Qed.

Lemma mul_mask_same B L X M :
  has_shape B L X = true -> has_shape B L M = true ->
  mul_mask X M = Some (masked X M).
Proof. apply matrix_op_same. Qed.

Lemma add2_same B L X Y :
  has_shape B L X = true -> has_shape B L Y = true ->
  add2 X Y = Some (sum2 X Y).
Proof. apply matrix_op_same. Qed.

Lemma col_inside L X t :
  Forall (fun row => List.length row = L) X -> (t < L)%nat ->
  col X t = Some (column X t).
Proof.
  intros HX Ht. unfold col.
  induction HX as [|x X Hx HX IH]; simpl; [reflexivity|].
  rewrite IH. rewrite (nth_error_nth' x 0) by lia. reflexivity.
Qed.

(** What the loop carries into index [t]: the advantage column of index
    [t + 1], or the scalar 0 before the first iteration. *)
Local Abbreviation carried L V Rw t last :=
  (last = column (gae_rows V Rw) (S t) \/ (last = [0] /\ S t = L)).

Lemma gae_step_col B L V Rw t last acc :
  has_shape B L V = true -> has_shape B L Rw = true -> (t < L)%nat ->
  carried L V Rw t last ->
  GAE.gae_step gamma gae_lambda V Rw L (Some (last, acc)) t
  = Some (column (gae_rows V Rw) t, acc ++ [column (gae_rows V Rw) t]).
Proof.
  intros HV HR Ht Hlast.
  pose proof (has_shape_rows _ _ _ HV) as RV.
  pose proof (has_shape_rows _ _ _ HR) as RR.
  pose proof (has_shape_length _ _ _ HV) as LV.
  pose proof (has_shape_length _ _ _ HR) as LR.
  pose proof (has_shape_length _ _ _ (gae_rows_shape _ _ _ _ HV HR)) as LA.
  assert (Hlen : List.length V = List.length Rw) by lia.
  unfold GAE.gae_step.
  rewrite (col_inside L Rw t), (col_inside L V t) by assumption.
  assert (Hsum :
    match (if (t <? L - 1)%nat then col V (t + 1) else Some [0]) with
    | Some next_values =>
        zip_with Rplus (column Rw t) (map (Rmult gamma) next_values)
    | None => None
    end
    = Some (map2 Rplus (column Rw t)
              (map (Rmult gamma) (column V (S t))))).
  { destruct (Nat.ltb_spec t (L - 1)).
    - rewrite Nat.add_1_r, (col_inside L V (S t)) by (auto; lia).
      apply zip_with_same. rewrite !length_map. lia.
    - cbn [map]. rewrite zip_with_scalar. do 2 f_equal.
      rewrite (col_beyond L V (S t)) by (auto; lia).
      rewrite !length_map, map_repeat. f_equal. lia. }
  destruct (if (t <? L - 1)%nat then col V (t + 1) else Some [0])
    as [next_values|]; [|discriminate Hsum].
  rewrite Hsum.
  rewrite zip_with_same by (rewrite map2_length, !length_map; lia).
  assert (Hlast' :
    zip_with Rplus
      (map2 Rminus
         (map2 Rplus (column Rw t) (map (Rmult gamma) (column V (S t))))
         (column V t))
      (map (Rmult (gamma * gae_lambda)) last)
    = Some (map2 Rplus
              (map2 Rminus
                 (map2 Rplus (column Rw t)
                    (map (Rmult gamma) (column V (S t))))
                 (column V t))
              (map (Rmult (gamma * gae_lambda))
                 (column (gae_rows V Rw) (S t))))).
  { destruct Hlast as [->|[-> HL]].
    - apply zip_with_same. rewrite !map2_length, !length_map. lia.
    - cbn [map]. rewrite zip_with_scalar. do 2 f_equal.
      rewrite (col_beyond L (gae_rows V Rw) (S t))
        by (eauto using has_shape_rows, gae_rows_shape; lia).
      rewrite !map2_length, !length_map, map_repeat. f_equal. lia. }
  rewrite Hlast', (gae_col_step L) by auto. reflexivity.
Qed.

Lemma gae_fold B L V Rw s n last acc :
  has_shape B L V = true -> has_shape B L Rw = true -> (s + n <= L)%nat ->
  last = column (gae_rows V Rw) (s + n) \/ (last = [0] /\ (s + n)%nat = L) ->
  exists last',
    fold_left (GAE.gae_step gamma gae_lambda V Rw L) (rev (seq s n))
      (Some (last, acc))
    = Some (last', acc ++ map (fun t => column (gae_rows V Rw) t) (rev (seq s n))).
Proof.
  intros HV HR. revert last acc; induction n as [|n IH]; intros last acc Hn Hlast.
  - exists last. simpl. now rewrite app_nil_r.
  - rewrite seq_S, rev_app_distr. simpl rev. simpl app.
    cbn [fold_left map].
    rewrite (gae_step_col B) by (auto; try lia;
      replace (S (s + n)) with (s + S n)%nat by lia; exact Hlast).
    destruct (IH (column (gae_rows V Rw) (s + n))
                (acc ++ [column (gae_rows V Rw) (s + n)]) ltac:(lia)
                (or_introl eq_refl)) as (last' & ->).
    exists last'. now rewrite <- app_assoc.
Qed.

Lemma map_nth_seq_from {A} (d : A) (l : list A) s :
  map (fun t => nth t l d) (seq s (List.length l - s)) = skipn s l.
Proof.
  revert s; induction l as [|x l IH]; intros s.
  - simpl. now destruct s.
  - destruct s as [|s].
    + rewrite Nat.sub_0_r. apply map_nth_seq.
    + simpl List.length. simpl Nat.sub. simpl skipn.
      rewrite <- seq_shift, map_map. simpl. apply IH.
Qed.

Lemma stack_cols_from B L X s :
  has_shape B L X = true -> (s < L)%nat ->
  stack_dim1 (map (fun t => column X t) (seq s (L - s))) = Some (map (skipn s) X).
Proof.
  intros HX Hs. unfold stack_dim1.
  pose proof (has_shape_length _ _ _ HX) as LX.
  destruct (map (fun t => column X t) (seq s (L - s))) as [|c cs] eqn:E.
  { apply (f_equal (@List.length _)) in E.
    rewrite length_map, length_seq in E. simpl in E. lia. }
  assert (Hc : List.length c = B).
  { assert (Hin : In c (map (fun t => column X t) (seq s (L - s))))
      by (rewrite E; now left).
    apply in_map_iff in Hin as (t & <- & _). now rewrite length_map. }
  assert (Hall : forallb (fun c' => (List.length c' =? List.length c)%nat)
                   (c :: cs) = true).
  { rewrite <- E, forallb_forall. intros c' Hin.
    apply in_map_iff in Hin as (t & <- & _).
    rewrite length_map, Hc, LX. apply Nat.eqb_refl. }
  rewrite Hall, Hc, <- E. clear E Hall Hc c cs. f_equal.
  apply (nth_ext _ _ [] []).
  - now rewrite !length_map, length_seq.
  - intros b Hb. rewrite length_map, length_seq in Hb.
    rewrite (nth_map_in _ _ b 0%nat) by now rewrite length_seq.
    rewrite seq_nth by assumption. simpl Nat.add.
    rewrite map_map.
    rewrite (nth_map_in _ _ b []) by lia.
    transitivity (map (fun t => nth t (nth b X []) 0) (seq s (L - s))).
    + apply map_ext. intros t. apply col_nth. lia.
    + rewrite <- (has_shape_row B L X b) at 1 by assumption.
      apply map_nth_seq_from.
Qed.

Lemma skipn_map2 {A C D} (f : A -> C -> D) s xs ys :
  skipn s (map2 f xs ys) = map2 f (skipn s xs) (skipn s ys).
Proof.
  revert xs ys; induction s as [|s IH]; intros [|x xs] [|y ys]; simpl; auto.
  now destruct (skipn s xs).
Qed.

Lemma map_skipn_sum2 s X Y :
  map (skipn s) (sum2 X Y) = sum2 (map (skipn s) X) (map (skipn s) Y).
Proof.
  revert Y; induction X as [|x X IH]; intros [|y Y]; simpl; auto.
  now rewrite IH, skipn_map2.
Qed.

Lemma map_skipn_shape {A} B L s (X : list (list A)) :
  has_shape B L X = true -> has_shape B (L - s) (map (skipn s) X) = true.
Proof.
  intros HX. apply has_shape_intro.
  - rewrite length_map. eapply has_shape_length; eauto.
  - apply Forall_map. eapply Forall_impl; [|eapply has_shape_rows; eauto].
    intros r Hr; simpl in *. now rewrite length_skipn, Hr.
Qed.

(** From a start inside the tensors the loop computes, row by row, the
    recurrence [gae_row] on the masked values and rewards, cut at the
    start. *)
Lemma get_advantages_and_returns_rows_from B L V Rw M s :
  has_shape B L V = true -> has_shape B L Rw = true ->
  has_shape B L M = true -> (1 <= B)%nat -> (s < L)%nat ->
  GAE.get_advantages_and_returns gamma gae_lambda V Rw M s =
    Some (map (skipn s) (gae_rows (masked V M) (masked Rw M)),
          map (skipn s)
            (sum2 (gae_rows (masked V M) (masked Rw M)) (masked V M))).
Proof.
  intros HV HR HM HB Hs.
  pose proof (masked_shape _ _ _ _ HV HM) as HV'.
  pose proof (masked_shape _ _ _ _ HR HM) as HR'.
  pose proof (gae_rows_shape _ _ _ _ HV' HR') as HA.
  unfold GAE.get_advantages_and_returns.
  rewrite (mul_mask_same B L V M), (mul_mask_same B L Rw M) by assumption.
  rewrite (has_shape_size_last B L) by assumption.
  assert (Hend : (s + (L - s))%nat = L) by lia.
  destruct (gae_fold B L _ _ s (L - s) [0] [] HV' HR' (Nat.eq_le_incl _ _ Hend)
              (or_intror (conj eq_refl Hend))) as (last' & ->).
  simpl app. rewrite <- map_rev, rev_involutive.
  rewrite (stack_cols_from B L) by assumption.
  rewrite (add2_same B (L - s)) by (now apply map_skipn_shape).
  now rewrite map_skipn_sum2.
Qed.

Lemma map_skipn_0 {A} (X : list (list A)) : map (skipn 0) X = X.
Proof.
  transitivity (map (fun x : list A => x) X); [|apply map_id].
  apply map_ext. reflexivity.
Qed.

(** The loop computes, row by row, the recurrence [gae_row] on the masked
    values and rewards. *)
Lemma get_advantages_and_returns_rows B L V Rw M :
  has_shape B L V = true -> has_shape B L Rw = true ->
  has_shape B L M = true -> (1 <= B)%nat -> (1 <= L)%nat ->
  GAE.get_advantages_and_returns gamma gae_lambda V Rw M 0 =
    Some (gae_rows (masked V M) (masked Rw M),
          sum2 (gae_rows (masked V M) (masked Rw M)) (masked V M)).
Proof.
  intros HV HR HM HB HL.
  rewrite (get_advantages_and_returns_rows_from B L) by (auto; lia).
  now rewrite !map_skipn_0.
Qed.

End GAEFacts.

Lemma masked_get_any B L X M b t :
  has_shape B L X = true -> has_shape B L M = true -> (b < B)%nat ->
  get 0 (masked X M) b t = get 0 X b t * b2r (get false M b t).
Proof.
  intros HX HM Hb. destruct (Nat.lt_ge_cases t L) as [Ht|Ht].
  - now apply (masked_get B L).
  - pose proof (masked_shape _ _ _ _ HX HM) as HXM.
    unfold get. rewrite (nth_overflow (nth b (masked X M) [])),
      (nth_overflow (nth b X []));
      rewrite ?(has_shape_row B L _ b) by assumption; try lia.
    lra.
Qed.

Lemma sum2_get B L X Y b t :
  has_shape B L X = true -> has_shape B L Y = true ->
  (b < B)%nat -> (t < L)%nat ->
  get 0 (sum2 X Y) b t = get 0 X b t + get 0 Y b t.
Proof.
  intros HX HY Hb Ht. unfold get.
  rewrite (map2_nth _ X Y b [] [] []).
  - rewrite (map2_nth _ _ _ t 0 0 0); auto.
    + now rewrite (has_shape_row B L X b).
    + now rewrite (has_shape_row B L Y b).
  - now rewrite (has_shape_length _ _ _ HX).
  - now rewrite (has_shape_length _ _ _ HY).
Qed.

Lemma sum2_shape B L X Y :
  has_shape B L X = true -> has_shape B L Y = true ->
  has_shape B L (sum2 X Y) = true.
Proof.
  intros HX HY.
  pose proof (has_shape_length _ _ _ HX) as LX.
  pose proof (has_shape_length _ _ _ HY) as LY.
  pose proof (has_shape_rows _ _ _ HX) as RX.
  pose proof (has_shape_rows _ _ _ HY) as RY.
  apply has_shape_intro.
  - rewrite map2_length; lia.
  - clear HX HY LX LY B.
    revert Y RY; induction RX as [|x X Hx RX IH]; intros [|y Y] RY; simpl;
      try constructor.
    + rewrite map2_length. inversion RY; subst; lia.
    + apply IH. now inversion RY.
Qed.

(** C1.  [get_advantages_and_returns] (with [start = 0], on (B, L) tensors
    with at least one row and one column) returns advantages and returns
    that satisfy the backward recurrence of generalized advantage
    estimation: with the value and the advantage past the last index equal
    to 0, at every valid position [t] of a trajectory
      delta_t  = r_t + gamma * V_{t+1} * mask_{t+1} - V_t,
      A_t      = delta_t + gamma * gae_lambda * A_{t+1},
      return_t = A_t + V_t;
    at every position, valid or not, the same equations hold of the masked
    values and rewards.  For gamma = 0.9, gae_lambda = 0.95, one valid
    position, V = [0] and r = [1.0] the advantage is 1.0 and the return is
    1.0. *)
Theorem gae_recurrence :
  (forall gamma gae_lambda B L V Rw M,
    has_shape B L V = true -> has_shape B L Rw = true ->
    has_shape B L M = true -> (1 <= B)%nat -> (1 <= L)%nat ->
    exists adv ret,
      GAE.get_advantages_and_returns gamma gae_lambda V Rw M 0
        = Some (adv, ret)
      /\ has_shape B L adv = true /\ has_shape B L ret = true
      /\ forall b t, (b < B)%nat -> (t < L)%nat ->
         let v i := get 0 V b i * b2r (get false M b i) in
         let r i := get 0 Rw b i * b2r (get false M b i) in
         v L = 0 /\ get 0 adv b L = 0
         /\ get 0 adv b t =
              (r t + gamma * v (S t) - v t)
              + gamma * gae_lambda * get 0 adv b (S t)
         /\ get 0 ret b t = get 0 adv b t + v t
         /\ (get false M b t = true ->
             get 0 adv b t =
               (get 0 Rw b t
                + gamma * get 0 V b (S t) * b2r (get false M b (S t))
                - get 0 V b t)
               + gamma * gae_lambda * get 0 adv b (S t)
             /\ get 0 ret b t = get 0 adv b t + get 0 V b t))
  /\ GAE.get_advantages_and_returns (9 / 10) (95 / 100) [[0]] [[1]] [[true]] 0
     = Some ([[1]], [[1]]).
Proof.
  split.
  - intros gamma gae_lambda B L V Rw M HV HR HM HB HL.
    pose proof (masked_shape _ _ _ _ HV HM) as HV'.
    pose proof (masked_shape _ _ _ _ HR HM) as HR'.
    pose proof (gae_rows_shape gamma gae_lambda _ _ _ _ HV' HR') as HA.
    eexists _, _. split; [now apply (get_advantages_and_returns_rows _ _ B L)|].
    split; [assumption|]. split; [now apply sum2_shape|].
    intros b t Hb Ht v r.
    assert (Hv : forall i, get 0 (masked V M) b i = v i)
      by (intros i; now apply (masked_get_any B L)).
    assert (Hr : forall i, get 0 (masked Rw M) b i = r i)
      by (intros i; now apply (masked_get_any B L)).
    assert (HvL : v L = 0).
    { rewrite <- Hv. unfold get. apply nth_overflow.
      rewrite (has_shape_row B L _ b); auto. }
    assert (HAL : get 0 (GAE.gae_rows gamma gae_lambda (masked V M)
                           (masked Rw M)) b L = 0).
    { unfold get. apply nth_overflow. rewrite (has_shape_row B L _ b); auto. }
    assert (HAt : get 0 (GAE.gae_rows gamma gae_lambda (masked V M)
                           (masked Rw M)) b t =
              (r t + gamma * v (S t) - v t)
              + gamma * gae_lambda *
                get 0 (GAE.gae_rows gamma gae_lambda (masked V M)
                         (masked Rw M)) b (S t)).
    { rewrite !(gae_rows_get gamma gae_lambda B L) by assumption.
      rewrite gae_row_nth.
      - fold (get 0 (masked Rw M) b t). fold (get 0 (masked V M) b (S t)).
        fold (get 0 (masked V M) b t). now rewrite Hr, !Hv.
      - now rewrite !(has_shape_row B L _ b).
      - now rewrite (has_shape_row B L _ b). }
    assert (HRt : get 0 (sum2 (GAE.gae_rows gamma gae_lambda (masked V M)
                                 (masked Rw M)) (masked V M)) b t =
                  get 0 (GAE.gae_rows gamma gae_lambda (masked V M)
                           (masked Rw M)) b t + v t).
    { rewrite (sum2_get B L) by assumption. now rewrite Hv. }
    repeat split; auto.
    + rewrite HAt. subst v r; cbv beta. rewrite H. simpl b2r. lra.
    + rewrite HRt. subst v; cbv beta. rewrite H. simpl b2r. lra.
  - unfold GAE.get_advantages_and_returns, GAE.gae_step. cbn.
    repeat f_equal; lra.
Qed.

Lemma gae_recurrence_witness :
  exists adv ret,
    GAE.get_advantages_and_returns (1 / 2) (1 / 4)
      [[1; 2]; [3; 4]] [[5; 6]; [7; 8]] [[true; true]; [true; false]] 0
      = Some (adv, ret)
    /\ has_shape 2 2 adv = true /\ has_shape 2 2 ret = true
    /\ get 0 adv 1 0 = (7 + (1 / 2) * (4 * 0) - 3)
                       + (1 / 2) * (1 / 4) * get 0 adv 1 1.
Proof.
  destruct (proj1 gae_recurrence (1 / 2) (1 / 4) 2%nat 2%nat
              [[1; 2]; [3; 4]] [[5; 6]; [7; 8]] [[true; true]; [true; false]]
              eq_refl eq_refl eq_refl (le_S _ _ (le_n 1)) (le_S _ _ (le_n 1)))
    as (adv & ret & Hrun & Hsa & Hsr & Hrec).
  exists adv, ret. repeat split; try assumption.
  destruct (Hrec 1%nat 0%nat (le_n 2) (le_S _ _ (le_n 1)))
    as (_ & _ & HA & _).
  rewrite HA. unfold get; simpl. lra.
Defined.

(** ** KL shaping *)

Lemma map_map_shape {A C} (f : A -> C) B L (X : list (list A)) :
  has_shape B L X = true -> has_shape B L (map (map f) X) = true.
Proof.
  intros HX. apply has_shape_intro.
  - rewrite length_map. eapply has_shape_length; eauto.
  - apply Forall_map. eapply Forall_impl; [|eapply has_shape_rows; eauto].
    intros r Hr; simpl in *. now rewrite length_map.
Qed.

Lemma map_map_row {A C} (f : A -> C) (X : list (list A)) b :
  nth b (map (map f) X) [] = map f (nth b X []).
Proof.
  destruct (Nat.lt_ge_cases b (List.length X)) as [Hb|Hb].
  - now rewrite (nth_map_in _ _ b []).
  - rewrite !nth_overflow; auto. now rewrite length_map.
Qed.

Lemma map_map_get {A C} (f : A -> C) B L (X : list (list A)) b t da dc :
  has_shape B L X = true -> (b < B)%nat -> (t < L)%nat ->
  get dc (map (map f) X) b t = f (get da X b t).
Proof.
  intros HX Hb Ht. unfold get. rewrite map_map_row.
  apply nth_map_in. now rewrite (has_shape_row B L X b).
Qed.

Lemma map2_row {A C D} (f : A -> C -> D) X Y b :
  (b < List.length X)%nat -> (b < List.length Y)%nat ->
  nth b (map2 (map2 f) X Y) [] = map2 f (nth b X []) (nth b Y []).
Proof. intros; now apply map2_nth. Qed.

Section LastIndex.

Import Shaping.

Lemma index_last_snoc {A} (l : list A) x : index_last (l ++ [x]) = Some x.
Proof. unfold index_last. now rewrite rev_app_distr. Qed.

(** The last index below [n] at which [p] holds, if there is one. *)
Lemma index_last_filter_seq (p : nat -> bool) n :
  match index_last (filter p (seq 0 n)) with
  | Some e => (e < n)%nat /\ p e = true
              /\ forall t, (e < t < n)%nat -> p t = false
  | None => forall t, (t < n)%nat -> p t = false
  end.
Proof.
  induction n as [|n IH].
  - simpl. intros; lia.
  - rewrite seq_S, filter_app. simpl.
    destruct (p n) eqn:Hpn.
    + rewrite index_last_snoc. repeat split; auto; intros; lia.
    + rewrite app_nil_r.
      destruct (index_last (filter p (seq 0 n))) as [e|].
      * destruct IH as (He & Hpe & Hlast). repeat split; auto.
        intros t Ht. destruct (Nat.eq_dec t n); subst; auto. apply Hlast; lia.
      * intros t Ht. destruct (Nat.eq_dec t n); subst; auto. apply IH; lia.
Qed.

Lemma existsb_nth (m : list bool) :
  existsb (fun x => x) m = true ->
  exists t, (t < List.length m)%nat /\ nth t m false = true.
Proof.
  induction m as [|x m IH]; simpl; [discriminate|].
  destruct x; simpl.
  - intros _. exists 0%nat. split; [lia | reflexivity].
  - intros H. destruct (IH H) as (t & Ht & Hm). exists (S t). split; [lia|auto].
Qed.

(** On a row with a valid position, [m.nonzero()[-1]] is the last valid
    index. *)
Lemma nonzero_last (m : list bool) :
  existsb (fun x => x) m = true ->
  exists e, index_last (nonzero m) = Some e
            /\ (e < List.length m)%nat /\ nth e m false = true
            /\ forall t, (e < t)%nat -> nth t m false = false.
Proof.
  intros Hm. unfold nonzero.
  pose proof (index_last_filter_seq (fun i => nth i m false) (List.length m)) as H.
  destruct (index_last _) as [e|].
  - destruct H as (He & Hpe & Hlast). exists e. repeat split; auto.
    intros t Ht. destruct (Nat.lt_ge_cases t (List.length m)).
    + apply Hlast; lia.
    + now apply nth_overflow.
  - destruct (existsb_nth m Hm) as (t & Ht & Hmt). rewrite H in Hmt; auto.
    discriminate.
Qed.

Lemma nonzero_none (m : list bool) :
  existsb (fun x => x) m = false -> index_last (nonzero m) = None.
Proof.
  intros Hm. unfold nonzero.
  pose proof (index_last_filter_seq (fun i => nth i m false) (List.length m)) as H.
  destruct (index_last _) as [e|]; auto.
  destruct H as (He & Hpe & _).
  assert (existsb (fun x => x) m = true).
  { apply existsb_exists. exists true. split; auto.
    rewrite <- Hpe. now apply nth_In. }
  congruence.
Qed.

Lemma last_indices_some (M : list (list bool)) :
  forallb (existsb (fun x => x)) M = true ->
  exists es, last_indices M = Some es
             /\ List.length es = List.length M
             /\ forall b, (b < List.length M)%nat ->
                  index_last (nonzero (nth b M [])) = Some (nth b es 0%nat).
Proof.
  induction M as [|m M IH]; simpl.
  - intros _. exists []. repeat split; auto. intros; lia.
  - intros H. apply andb_prop in H as [Hm HM].
    destruct (IH HM) as (es & Hes & Hlen & Hnth).
    destruct (nonzero_last m Hm) as (e & He & _).
    exists (e :: es). rewrite He, Hes. repeat split; simpl; auto.
    intros [|b] Hb; auto. apply Hnth. lia.
Qed.

Lemma add_at_length e x row : List.length (add_at e x row) = List.length row.
Proof.
  revert e; induction row as [|y row IH]; intros [|e]; simpl; auto.
Qed.

Lemma add_at_nth e x row t :
  (e < List.length row)%nat ->
  nth t (add_at e x row) 0 = nth t row 0 + (if (t =? e)%nat then x else 0).
Proof.
  revert e t; induction row as [|y row IH]; intros e t He; simpl in *; [lia|].
  destruct e as [|e], t as [|t]; simpl; try lra.
  apply IH. lia.
Qed.

Lemma scatter_add_some input index src :
  List.length index = List.length input ->
  List.length src = List.length input ->
  (forall b, (b < List.length input)%nat ->
     (nth b index 0 < List.length (nth b input []))%nat) ->
  exists out, scatter_add input index src = Some out
    /\ List.length out = List.length input
    /\ forall b, (b < List.length input)%nat ->
         nth b out [] = add_at (nth b index 0%nat) (nth b src 0) (nth b input []).
Proof.
  revert input src; induction index as [|e index IH];
    intros [|row input] [|x src] Hi Hs Hb; simpl in *; try lia.
  - exists []. repeat split; auto. intros; lia.
  - pose proof (Hb 0%nat ltac:(lia)) as H0. simpl in H0.
    apply Nat.ltb_lt in H0. rewrite H0.
    destruct (IH input src) as (out & Hout & Hlen & Hnth); try lia.
    { intros b Hlt. apply (Hb (S b)). lia. }
    rewrite Hout. exists (add_at e x row :: out). repeat split; simpl; auto.
    intros [|b] Hlt; auto. apply Hnth. lia.
Qed.

Lemma masked_sum_add_at e x row m :
  (e < List.length row)%nat -> List.length m = List.length row ->
  nth e m false = true ->
  masked_sum (add_at e x row) m = masked_sum row m + x.
Proof.
  unfold masked_sum.
  revert e m; induction row as [|y row IH]; intros e [|c m] He Hl Hm;
    simpl in *; try lia.
  destruct e as [|e]; simpl.
  - subst c. simpl. lra.
  - rewrite IH; auto; try lia. lra.
Qed.

Lemma masked_sum_scale k row m :
  masked_sum (map (fun a => k * a) row) m = k * masked_sum row m.
Proof.
  unfold masked_sum. revert m; induction row as [|y row IH]; intros [|c m];
    simpl; try lra.
  rewrite IH. lra.
Qed.

End LastIndex.

Lemma map2_map2_shape {A C D} (f : A -> C -> D) B L X Y :
  has_shape B L X = true -> has_shape B L Y = true ->
  has_shape B L (map2 (map2 f) X Y) = true.
Proof.
  intros HX HY.
  pose proof (has_shape_length _ _ _ HX) as LX.
  pose proof (has_shape_length _ _ _ HY) as LY.
  apply has_shape_intro.
  - rewrite map2_length; lia.
  - apply Forall_forall. intros r Hr.
    destruct (In_nth _ _ [] Hr) as (b & Hb & <-).
    rewrite map2_length in Hb.
    rewrite map2_row, map2_length by lia.
    rewrite (has_shape_row B L X b), (has_shape_row B L Y b) by (auto; lia).
    lia.
Qed.

Lemma map2_map2_get {A C D} (f : A -> C -> D) B L X Y b t da dc dd :
  has_shape B L X = true -> has_shape B L Y = true ->
  (b < B)%nat -> (t < L)%nat ->
  get dd (map2 (map2 f) X Y) b t = f (get da X b t) (get dc Y b t).
Proof.
  intros HX HY Hb Ht. unfold get.
  rewrite map2_row
    by (rewrite ?(has_shape_length _ _ _ HX), ?(has_shape_length _ _ _ HY); lia).
  apply map2_nth.
  - now rewrite (has_shape_row B L X b).
  - now rewrite (has_shape_row B L Y b).
Qed.

Lemma kl_penalty_rewards_same k B L lp rlp :
  has_shape B L lp = true -> has_shape B L rlp = true ->
  Shaping.kl_penalty_rewards k lp rlp = Some (kl_penalty k lp rlp).
Proof.
  intros Hlp Hrlp. unfold Shaping.kl_penalty_rewards.
  now rewrite (matrix_op_same Rminus B L).
Qed.

(** C3.  On a batch of (B, L) tensors whose mask has a valid position in
    every row, [add_kl_divergence_regularization_with_cost] returns, and
      - the reward stream before the clamp is, at every position,
        [-kl_coeff * (log_probs - ref_log_probs)] plus the scalar reward
        of the trajectory at one index only, the last valid index of its
        mask row;
      - the cost stream before the clamp is
        [+kl_coeff * (log_probs - ref_log_probs)] plus the scalar cost at
        that same index;
      - the returned streams are these two, clamped entry by entry to
        [[-clip_range_score, clip_range_score]];
      - before the clamp, the reward stream summed over the valid
        positions is the scalar reward minus [kl_coeff] times the sum of
        [log_probs - ref_log_probs] over the valid positions. *)
Theorem kl_shaping_streams :
  forall kl_coeff clip_range_score B L reward cost log_probs ref_log_probs M,
    has_shape B L log_probs = true -> has_shape B L ref_log_probs = true ->
    has_shape B L M = true ->
    List.length reward = B -> List.length cost = B -> (1 <= B)%nat ->
    forallb (existsb (fun m => m)) M = true ->
    exists es rewards costs,
      Shaping.end_index M = Some es /\ List.length es = B
      /\ Shaping.scattered_streams kl_coeff reward cost log_probs
           ref_log_probs M = Some (rewards, costs)
      /\ Shaping.add_kl_divergence_regularization_with_cost kl_coeff
           clip_range_score reward cost log_probs ref_log_probs M
         = Some (Shaping.clamp_score clip_range_score rewards,
                 Shaping.clamp_score clip_range_score costs)
      /\ forall b, (b < B)%nat ->
         let e := nth b es 0%nat in
         let kl t := get 0 log_probs b t - get 0 ref_log_probs b t in
         ((e < L)%nat /\ get false M b e = true
          /\ forall t, (e < t)%nat -> get false M b t = false)
         /\ (forall t, (t < L)%nat ->
               get 0 rewards b t
               = - kl_coeff * kl t + (if (t =? e)%nat then nth b reward 0 else 0)
            /\ get 0 costs b t
               = kl_coeff * kl t + (if (t =? e)%nat then nth b cost 0 else 0)
            /\ get 0 (Shaping.clamp_score clip_range_score rewards) b t
               = clamp (- clip_range_score) clip_range_score (get 0 rewards b t)
            /\ get 0 (Shaping.clamp_score clip_range_score costs) b t
               = clamp (- clip_range_score) clip_range_score (get 0 costs b t))
         /\ Shaping.masked_sum (nth b rewards []) (nth b M [])
            = nth b reward 0
              - kl_coeff
                * Shaping.masked_sum
                    (map2 Rminus (nth b log_probs []) (nth b ref_log_probs []))
                    (nth b M []).
Proof.
  intros k c B L reward cost lp rlp M Hlp Hrlp HM Hrew Hcost HB Hvalid.
  pose proof (has_shape_length _ _ _ HM) as LM.
  destruct (last_indices_some M Hvalid) as (es & Hes & Hlen & Hnth).
  assert (Hend : Shaping.end_index M = Some es).
  { unfold Shaping.end_index. destruct M; simpl in *; [lia | exact Hes]. }
  assert (Hlast : forall b, (b < B)%nat ->
            (nth b es 0 < L)%nat /\ get false M b (nth b es 0%nat) = true
            /\ forall t, (nth b es 0 < t)%nat -> get false M b t = false).
  { intros b Hb.
    assert (Hrow : existsb (fun m => m) (nth b M []) = true).
    { rewrite forallb_forall in Hvalid. apply Hvalid, nth_In. lia. }
    destruct (nonzero_last _ Hrow) as (e & He & Hlt & Hte & Hafter).
    rewrite Hnth in He by lia. injection He as <-.
    rewrite (has_shape_row B L M b) in Hlt by assumption.
    repeat split; auto. }
  set (klp := kl_penalty k lp rlp).
  assert (Hklp : has_shape B L klp = true).
  { now apply map_map_shape, map2_map2_shape. }
  pose proof (map_map_shape Ropp _ _ _ Hklp) as Hnklp.
  destruct (scatter_add_some klp es reward) as (rewards & Hsr & Hlr & Hrr).
  { rewrite (has_shape_length _ _ _ Hklp); lia. }
  { now rewrite (has_shape_length _ _ _ Hklp). }
  { intros b Hb. rewrite (has_shape_length _ _ _ Hklp) in Hb.
    rewrite (has_shape_row B L klp b) by assumption. now apply Hlast. }
  destruct (scatter_add_some (map (map Ropp) klp) es cost)
    as (costs & Hsc & Hlc & Hrc).
  { rewrite (has_shape_length _ _ _ Hnklp); lia. }
  { now rewrite (has_shape_length _ _ _ Hnklp). }
  { intros b Hb. rewrite (has_shape_length _ _ _ Hnklp) in Hb.
    rewrite (has_shape_row B L _ b) by assumption. now apply Hlast. }
  rewrite (has_shape_length _ _ _ Hklp) in Hlr, Hrr.
  rewrite (has_shape_length _ _ _ Hnklp) in Hlc, Hrc.
  assert (Hsrewards : has_shape B L rewards = true).
  { apply has_shape_intro; auto. apply Forall_forall. intros r Hr.
    destruct (In_nth _ _ [] Hr) as (b & Hb & <-). rewrite Hlr in Hb.
    rewrite Hrr, add_at_length by assumption. now apply has_shape_row with B. }
  assert (Hscosts : has_shape B L costs = true).
  { apply has_shape_intro; auto. apply Forall_forall. intros r Hr.
    destruct (In_nth _ _ [] Hr) as (b & Hb & <-). rewrite Hlc in Hb.
    rewrite Hrc, add_at_length by assumption. now apply has_shape_row with B. }
  assert (Hstreams : Shaping.scattered_streams k reward cost lp rlp M
                     = Some (rewards, costs)).
  { unfold Shaping.scattered_streams.
    rewrite Hend, (kl_penalty_rewards_same k B L) by assumption. fold klp.
    now rewrite Hsr, Hsc. }
  exists es, rewards, costs. split; [assumption|]. split; [lia|].
  split; [assumption|]. split.
  { unfold Shaping.add_kl_divergence_regularization_with_cost.
    now rewrite Hstreams. }
  intros b Hb e kl. destruct (Hlast b Hb) as (HeL & Hme & Hafter).
  fold e in HeL, Hme, Hafter.
  assert (Hkl : forall t, (t < L)%nat -> get 0 klp b t = - k * kl t).
  { intros t Ht. unfold klp.
    rewrite (map_map_get _ B L _ b t 0) by (auto using map2_map2_shape).
    now rewrite (map2_map2_get _ B L _ _ b t 0 0). }
  split; [repeat split; assumption|]. split.
  - intros t Ht. repeat split.
    + unfold get. rewrite Hrr by assumption. fold e.
      rewrite add_at_nth by now rewrite (has_shape_row B L klp b).
      fold (get 0 klp b t). now rewrite Hkl.
    + unfold get. rewrite Hrc by assumption. fold e.
      rewrite add_at_nth by now rewrite (has_shape_row B L _ b).
      fold (get 0 (map (map Ropp) klp) b t).
      rewrite (map_map_get _ B L _ b t 0) by assumption.
      rewrite Hkl by assumption. lra.
    + now apply (map_map_get _ B L).
    + now apply (map_map_get _ B L).
  - rewrite Hrr by assumption. fold e.
    rewrite masked_sum_add_at.
    + unfold klp.
      rewrite map_map_row, masked_sum_scale.
      rewrite map2_row
        by (rewrite ?(has_shape_length _ _ _ Hlp),
                    ?(has_shape_length _ _ _ Hrlp); lia).
      lra.
    + now rewrite (has_shape_row B L klp b).
    + now rewrite (has_shape_row B L klp b), (has_shape_row B L M b).
    + exact Hme.
Qed.

(** ** The mask of [rl_step] *)

Lemma firstn_repeat_le {A} (a : A) n W :
  (n <= W)%nat -> firstn n (repeat a W) = repeat a n.
Proof.
  revert W; induction n as [|n IH]; intros [|W] H; simpl; auto; try lia.
  f_equal. apply IH. lia.
Qed.

Lemma all_rows_repeat {A} (r : list A) B (X : list (list A)) :
  List.length X = B -> Forall (eq r) X -> X = repeat r B.
Proof. intros <- H. now apply Forall_eq_repeat. Qed.

Lemma truncate_ones_like {A} B W n (X : list (list A)) :
  has_shape B W X = true -> (n <= W)%nat ->
  Trainer.truncate n (Trainer.ones_like X) = repeat (repeat true n) B.
Proof.
  intros HX Hn. apply all_rows_repeat.
  - unfold Trainer.truncate, Trainer.ones_like. rewrite !length_map.
    eapply has_shape_length; eauto.
  - unfold Trainer.truncate, Trainer.ones_like. rewrite map_map.
    apply Forall_map. eapply Forall_impl; [|eapply has_shape_rows; eauto].
    intros r Hr; simpl in Hr. rewrite map_const, Hr.
    symmetry. now apply firstn_repeat_le.
Qed.

Lemma ones_like_shape {A} B W (X : list (list A)) :
  has_shape B W X = true -> has_shape B W (Trainer.ones_like X) = true.
Proof. apply map_map_shape. Qed.

Lemma nonzero_all_true n e :
  Shaping.index_last (Shaping.nonzero (repeat true n)) = Some e ->
  (1 <= n)%nat /\ e = (n - 1)%nat.
Proof.
  unfold Shaping.nonzero. rewrite repeat_length.
  pose proof (index_last_filter_seq (fun i => nth i (repeat true n) false) n) as H.
  intros He. rewrite He in H. destruct H as (Hlt & _ & Hlast).
  split; [lia|].
  destruct (Nat.eq_dec e (n - 1)) as [|Hne]; auto.
  specialize (Hlast (n - 1)%nat ltac:(lia)).
  rewrite nth_repeat_lt in Hlast by lia. discriminate.
Qed.

Lemma nonzero_all_true_some n :
  (1 <= n)%nat ->
  Shaping.index_last (Shaping.nonzero (repeat true n)) = Some (n - 1)%nat.
Proof.
  intros Hn.
  destruct (nonzero_last (repeat true n)) as (e & He & _).
  - destruct n; [lia | reflexivity].
  - rewrite He. f_equal. now apply nonzero_all_true in He.
Qed.

Lemma last_indices_all_true n B :
  (1 <= n)%nat ->
  Shaping.last_indices (repeat (repeat true n) B) = Some (repeat (n - 1)%nat B).
Proof.
  intros Hn. induction B as [|B IH]; simpl; auto.
  now rewrite nonzero_all_true_some, IH.
Qed.

(** C6.  In [rl_step] the mask handed to the KL shaping and to both
    advantage computations is the all-true tensor cut to [new_size], the
    least of the widths of the response mask and of the two value
    tensors; hence, whatever the response mask and the response lengths
    of the batch are, the last valid index computed from a row of that
    mask is [new_size - 1], the same for every trajectory. *)
Theorem rl_step_mask_is_all_true :
  forall kl_coeff clip_range_score gamma gae_lambda tb B W Wr Wc,
    has_shape B W (Trainer.response_mask tb) = true ->
    has_shape B Wr (Trainer.reward_values tb) = true ->
    has_shape B Wc (Trainer.cost_values tb) = true ->
    (1 <= B)%nat ->
    let n := Nat.min W (Nat.min Wr Wc) in
    let all_true := repeat (repeat true n) B in
    Trainer.new_size tb = n
    /\ Trainer.sequence_mask tb = all_true
    /\ Trainer.rl_step_targets kl_coeff clip_range_score gamma gae_lambda tb
       = match Shaping.add_kl_divergence_regularization_with_cost
                 kl_coeff clip_range_score (Trainer.reward tb)
                 (Trainer.cost tb) (Trainer.log_probs tb)
                 (Trainer.ref_log_probs tb) all_true with
         | None => None
         | Some (old_rewards, old_costs) =>
             match GAE.get_advantages_and_returns gamma gae_lambda
                     (Trainer.truncate n (Trainer.reward_values tb))
                     old_rewards all_true 0,
                   GAE.get_advantages_and_returns gamma gae_lambda
                     (Trainer.truncate n (Trainer.cost_values tb))
                     old_costs all_true 0 with
             | Some (ra, rr), Some (ca, cr) =>
                 Some {| Trainer.old_rewards := old_rewards;
                         Trainer.old_costs := old_costs;
                         Trainer.reward_advantages := ra;
                         Trainer.reward_returns := rr;
                         Trainer.cost_advantages := ca;
                         Trainer.cost_returns := cr |}
             | _, _ => None
             end
         end
    /\ (forall m e, In m (Trainer.sequence_mask tb) ->
          Shaping.index_last (Shaping.nonzero m) = Some e ->
          (1 <= n)%nat /\ e = (n - 1)%nat)
    /\ ((1 <= n)%nat ->
        Shaping.end_index (Trainer.sequence_mask tb)
        = Some (repeat (n - 1)%nat B)).
Proof.
  intros k c g l tb B W Wr Wc HM HR HC HB n all_true.
  assert (Hn : Trainer.new_size tb = n).
  { unfold Trainer.new_size.
    rewrite (has_shape_size_last B W) by (auto using ones_like_shape).
    now rewrite (has_shape_size_last B Wr), (has_shape_size_last B Wc). }
  assert (Hmask : Trainer.sequence_mask tb = all_true).
  { unfold Trainer.sequence_mask. rewrite Hn.
    apply (truncate_ones_like B W); auto. subst n; lia. }
  split; [assumption|]. split; [assumption|]. split.
  { unfold Trainer.rl_step_targets. now rewrite Hmask, Hn. }
  split.
  - intros m e Hin. rewrite Hmask in Hin. apply repeat_spec in Hin. subst m.
    apply nonzero_all_true.
  - intros H1. rewrite Hmask. unfold Shaping.end_index, all_true.
    destruct B as [|B']; [lia|]. simpl repeat at 1.
    change (repeat true n :: repeat (repeat true n) B')
      with (repeat (repeat true n) (S B')).
    now apply last_indices_all_true.
Qed.

(** ** The Lagrange multiplier *)

Section LagrangeFacts.

Import Lagrange.

Lemma lambda_grad_inside c tau x :
  -1000000 <= lambda_loss_unclamped c tau x <= 1000000 ->
  lambda_grad c tau x = - (c - tau) * exp x.
Proof.
  intros [Hlo Hhi]. unfold lambda_grad.
  destruct (Rle_dec _ _); [|contradiction].
  destruct (Rle_dec _ _); [reflexivity|contradiction].
Qed.

Lemma lambda_grad_outside c tau x :
  lambda_loss_unclamped c tau x < -1000000
  \/ 1000000 < lambda_loss_unclamped c tau x ->
  lambda_grad c tau x = 0.
Proof.
  intros H. unfold lambda_grad.
  destruct (Rle_dec _ _); [|reflexivity].
  destruct (Rle_dec _ _); [lra|reflexivity].
Qed.

(** The gradient of the model is the derivative of the loss of the model:
    first without the clamp, *)
Lemma lambda_loss_unclamped_derivative c tau x :
  derivable_pt_lim (lambda_loss_unclamped c tau) x (- (c - tau) * exp x).
Proof.
  apply (derivable_pt_lim_scal exp (- (c - tau)) x (exp x)).
  apply derivable_pt_lim_exp.
Qed.

Lemma derivable_pt_lim_local (f g : R -> R) x l (d : posreal) :
  (forall h, Rabs h < d -> f (x + h) = g (x + h)) ->
  derivable_pt_lim g x l -> derivable_pt_lim f x l.
Proof.
  intros Heq Hg eps Heps. destruct (Hg eps Heps) as [d' Hd'].
  assert (Hpos : 0 < Rmin d d')
    by (apply Rmin_pos; [apply (cond_pos d) | apply (cond_pos d')]).
  exists (mkposreal _ Hpos). intros h Hh0 Hh. simpl in Hh.
  assert (Hx : f x = g x).
  { rewrite <- (Rplus_0_r x). apply Heq. rewrite Rabs_R0. apply (cond_pos d). }
  rewrite Heq, Hx.
  - apply Hd'; auto. eapply Rlt_le_trans; [exact Hh | apply Rmin_r].
  - eapply Rlt_le_trans; [exact Hh | apply Rmin_l].
Qed.

Lemma lambda_loss_unclamped_near c tau x eps :
  0 < eps ->
  exists d : posreal, forall h, Rabs h < d ->
    Rabs (lambda_loss_unclamped c tau (x + h) - lambda_loss_unclamped c tau x)
    < eps.
Proof.
  intros Heps.
  assert (Hc : continuity_pt (lambda_loss_unclamped c tau) x).
  { apply derivable_continuous_pt. exists (- (c - tau) * exp x).
    apply lambda_loss_unclamped_derivative. }
  destruct (Hc eps Heps) as (alp & Halp & Hnear).
  exists (mkposreal alp Halp). intros h Hh. simpl in Hh.
  destruct (Req_dec h 0) as [->|Hh0].
  - rewrite Rplus_0_r, Rminus_diag, Rabs_R0. exact Heps.
  - apply (Hnear (x + h)). split.
    + split; [exact I | lra].
    + simpl. unfold Rdist. replace (x + h - x) with h by lra. exact Hh.
Qed.

(** then with it, wherever the unclamped loss is not on the border of the
    clamp range. *)
Lemma lambda_loss_derivative c tau x :
  lambda_loss_unclamped c tau x <> -1000000 ->
  lambda_loss_unclamped c tau x <> 1000000 ->
  derivable_pt_lim (lambda_loss c tau) x (lambda_grad c tau x).
Proof.
  intros Hlo Hhi.
  set (raw := lambda_loss_unclamped c tau) in *.
  destruct (Rlt_le_dec (raw x) (-1000000)) as [Hbelow|Hge].
  { rewrite lambda_grad_outside by (left; exact Hbelow).
    destruct (lambda_loss_unclamped_near c tau x (-1000000 - raw x))
      as [d Hd]; [lra|].
    apply (derivable_pt_lim_local _ (fun _ => -1000000) x 0 d).
    - intros h Hh. specialize (Hd h Hh). fold raw in Hd.
      apply Rabs_def2 in Hd. unfold lambda_loss, clamp. fold raw.
      rewrite Rmax_right by lra. apply Rmin_left. lra.
    - apply derivable_pt_lim_const. }
  destruct (Rlt_le_dec 1000000 (raw x)) as [Habove|Hle].
  { rewrite lambda_grad_outside by (right; exact Habove).
    destruct (lambda_loss_unclamped_near c tau x (raw x - 1000000))
      as [d Hd]; [lra|].
    apply (derivable_pt_lim_local _ (fun _ => 1000000) x 0 d).
    - intros h Hh. specialize (Hd h Hh). fold raw in Hd.
      apply Rabs_def2 in Hd. unfold lambda_loss, clamp. fold raw.
      rewrite Rmax_left by lra. apply Rmin_right. lra.
    - apply derivable_pt_lim_const. }
  rewrite lambda_grad_inside by (fold raw; lra).
  destruct (lambda_loss_unclamped_near c tau x
              (Rmin (raw x - -1000000) (1000000 - raw x))) as [d Hd].
  { apply Rmin_pos; lra. }
  apply (derivable_pt_lim_local _ raw x _ d).
  - intros h Hh. specialize (Hd h Hh). fold raw in Hd.
    apply Rabs_def2 in Hd. destruct Hd as [Hd1 Hd2].
    pose proof (Rmin_l (raw x - -1000000) (1000000 - raw x)).
    pose proof (Rmin_r (raw x - -1000000) (1000000 - raw x)).
    unfold lambda_loss, clamp. fold raw.
    rewrite Rmax_left by lra. apply Rmin_left. lra.
  - apply lambda_loss_unclamped_derivative.
Qed.

Lemma update_log_lambda global_step cfg_threshold episode_costs st :
  (lambda_update_delay_steps st <= global_step)%nat ->
  log_lambda (update true global_step cfg_threshold episode_costs st)
  = clamp_max (log_lambda_max st)
      (optimizer_step (lambda_lr st) (mean episode_costs) cfg_threshold
         (log_lambda st)).
Proof.
  intros H. unfold update. apply Nat.leb_le in H. now rewrite H.
Qed.

End LagrangeFacts.

(** C2, as the code has it.  A controller step runs on the main process
    once the delay has passed; it leaves [log_lambda] at the value of
    [optimizer_step], cut at the upper bound when one is set.  With a
    positive learning rate and an unclamped loss
    [-(mean_cost - threshold) * exp log_lambda] inside the clamp range
    [[-1e6, 1e6]], [log_lambda] is strictly larger after the optimizer
    step when the mean cost of the window is above the threshold and
    strictly smaller when it is below; with the unclamped loss outside
    that range the clamp stops the gradient and the optimizer step leaves
    [log_lambda] as it was. *)
Theorem lagrange_step_monotone_within_clamp :
  forall st global_step cfg_threshold episode_costs,
    (Lagrange.lambda_update_delay_steps st <= global_step)%nat ->
    0 < Lagrange.lambda_lr st ->
    let mean_cost := Lagrange.mean episode_costs in
    let x := Lagrange.log_lambda st in
    let x' := Lagrange.optimizer_step (Lagrange.lambda_lr st) mean_cost
                cfg_threshold x in
    let raw := Lagrange.lambda_loss_unclamped mean_cost cfg_threshold x in
    Lagrange.log_lambda
      (Lagrange.update true global_step cfg_threshold episode_costs st)
    = Lagrange.clamp_max (Lagrange.log_lambda_max st) x'
    /\ (-1000000 <= raw <= 1000000 ->
        (mean_cost > cfg_threshold -> x' > x)
        /\ (mean_cost < cfg_threshold -> x' < x))
    /\ (raw < -1000000 \/ 1000000 < raw -> x' = x).
Proof.
  intros st gs tau costs Hdelay Hlr c x x' raw.
  split; [now apply update_log_lambda|]. split.
  - intros Hin. unfold x', Lagrange.optimizer_step, Lagrange.sgd_step.
    rewrite lambda_grad_inside by exact Hin.
    pose proof (exp_pos x) as Hexp.
    split; intros Hc.
    + assert (0 < Lagrange.lambda_lr st * ((c - tau) * exp x)).
      { apply Rmult_lt_0_compat; [assumption|].
        apply Rmult_lt_0_compat; lra. }
      lra.
    + assert (0 < Lagrange.lambda_lr st * ((tau - c) * exp x)).
      { apply Rmult_lt_0_compat; [assumption|].
        apply Rmult_lt_0_compat; lra. }
      lra.
  - intros Hout. unfold x', Lagrange.optimizer_step, Lagrange.sgd_step.
    rewrite lambda_grad_outside by exact Hout. lra.
Qed.

Lemma lagrange_step_monotone_within_clamp_witness :
  Lagrange.optimizer_step (1 / 10) (Lagrange.mean [1; 3]) 0
    (Lagrange.log_lambda (Lagrange.init 1 (Some 20) (1 / 10) 0 0))
  > Lagrange.log_lambda (Lagrange.init 1 (Some 20) (1 / 10) 0 0).
Proof.
  assert (Hlr : 0 < Lagrange.lambda_lr (Lagrange.init 1 (Some 20) (1 / 10) 0 0))
    by (simpl; lra).
  destruct (lagrange_step_monotone_within_clamp
              (Lagrange.init 1 (Some 20) (1 / 10) 0 0) 0%nat 0 [1; 3]
              (le_n 0) Hlr) as (_ & Hin & _).
  apply Hin.
  - unfold Lagrange.lambda_loss_unclamped, Lagrange.mean. simpl.
    rewrite ln_1, exp_0. lra.
  - unfold Lagrange.mean. simpl. lra.
Defined.

(** C2, as the spec has it, fails: with the learning rate 0.1 of the
    repository, threshold 0, [log_lambda = 0] and a window whose mean cost
    is 2e6, the unclamped loss is -2e6, the clamp cuts it to -1e6 and
    stops the gradient, and the optimizer step leaves [log_lambda] at 0
    although the mean cost exceeds the threshold. *)
Lemma lagrange_step_clamped_no_increase :
  1 / 10 <> 0
  /\ Lagrange.mean [2000000] > 0
  /\ Lagrange.optimizer_step (1 / 10) (Lagrange.mean [2000000]) 0 0 = 0
  /\ ~ (Lagrange.optimizer_step (1 / 10) (Lagrange.mean [2000000]) 0 0 > 0).
Proof.
  assert (Hmean : Lagrange.mean [2000000] = 2000000)
    by (unfold Lagrange.mean; simpl; lra).
  assert (Hstep :
    Lagrange.optimizer_step (1 / 10) (Lagrange.mean [2000000]) 0 0 = 0).
  { unfold Lagrange.optimizer_step, Lagrange.sgd_step.
    rewrite lambda_grad_outside; [lra|].
    left. unfold Lagrange.lambda_loss_unclamped. rewrite Hmean, exp_0. lra. }
  repeat split; lra.
Qed.

(** ** The blended advantage *)

Section SurrogateFacts.

Variables clip_range_ratio log_lambda : R.
Variables (B L : nat) (log_probs old_log_probs RA CA : list (list R)).
Hypothesis Hlp : has_shape B L log_probs = true.
Hypothesis Holp : has_shape B L old_log_probs = true.
Hypothesis HRA : has_shape B L RA = true.
Hypothesis HCA : has_shape B L CA = true.

Lemma advantages_same :
  Updater.advantages log_lambda RA CA = Some (blended log_lambda RA CA).
Proof. unfold Updater.advantages. now apply (matrix_op_same _ B L). Qed.

Lemma advantages_shape :
  has_shape B L (blended log_lambda RA CA) = true.
Proof. now apply map2_map2_shape. Qed.

Lemma surrogate_same :
  Updater.surrogate clip_range_ratio log_lambda log_probs old_log_probs RA CA
  = Some (clipped clip_range_ratio log_lambda log_probs old_log_probs RA CA).
Proof.
  unfold Updater.surrogate. rewrite advantages_same.
  pose proof advantages_shape as HA.
  assert (Hr : has_shape B L
                 (map2 (map2 (fun lp olp => exp (lp - olp)))
                    log_probs old_log_probs) = true)
    by now apply map2_map2_shape.
  rewrite (matrix_op_same (fun lp olp => exp (lp - olp)) B L) by assumption.
  rewrite (matrix_op_same Rmult B L) by assumption.
  rewrite (matrix_op_same
             (fun a r => a * clamp (1 - clip_range_ratio)
                               (1 + clip_range_ratio) r) B L)
    by assumption.
  apply (matrix_op_same Rmin B L); now apply map2_map2_shape.
Qed.

Lemma surrogate_shape :
  has_shape B L
    (clipped clip_range_ratio log_lambda log_probs old_log_probs RA CA) = true.
Proof.
  repeat apply map2_map2_shape; auto using advantages_shape.
Qed.

Lemma surrogate_get b t :
  (b < B)%nat -> (t < L)%nat ->
  let a := get 0 (blended log_lambda RA CA) b t in
  let ratio := exp (get 0 log_probs b t - get 0 old_log_probs b t) in
  get 0 (clipped clip_range_ratio log_lambda log_probs old_log_probs RA CA)
    b t
  = Rmin (a * ratio)
      (a * clamp (1 - clip_range_ratio) (1 + clip_range_ratio) ratio).
Proof.
  intros Hb Ht a ratio. subst a ratio.
  pose proof advantages_shape as HA.
  assert (Hr : has_shape B L
                 (map2 (map2 (fun lp olp => exp (lp - olp)))
                    log_probs old_log_probs) = true)
    by now apply map2_map2_shape.
  rewrite (map2_map2_get _ B L _ _ b t 0 0)
    by (auto using map2_map2_shape).
  rewrite !(map2_map2_get _ B L _ _ b t 0 0) by assumption.
  reflexivity.
Qed.

End SurrogateFacts.

(** C4.  On tensors of one size [actor_loss_fn_with_cost] returns minus
    the masked mean of the clipped surrogate, and every entry of that
    surrogate is built on the blended advantage
      [A = (A_reward - lambda * A_cost) / (1 + lambda)]
    with [lambda = exp log_lambda]: it is
      [min (A * ratio, A * clamp (ratio, 1 - eps, 1 + eps))]
    with [ratio = exp (log_probs - old_log_probs)].  The multiplier is
    strictly positive for every [log_lambda], and with the multiplier 0
    the blend is the reward advantage itself. *)
Theorem blended_advantage :
  forall clip_range_ratio masked_mean log_lambda B L
         log_probs old_log_probs reward_advantages cost_advantages mask,
    has_shape B L log_probs = true -> has_shape B L old_log_probs = true ->
    has_shape B L reward_advantages = true ->
    has_shape B L cost_advantages = true ->
    let lambda := Updater.multiplier log_lambda in
    let blended b t :=
      (get 0 reward_advantages b t - lambda * get 0 cost_advantages b t)
      / (1 + lambda) in
    exists advantages surrogate,
      Updater.advantages log_lambda reward_advantages cost_advantages
      = Some advantages
      /\ Updater.surrogate clip_range_ratio log_lambda log_probs old_log_probs
           reward_advantages cost_advantages = Some surrogate
      /\ Updater.actor_loss_fn_with_cost clip_range_ratio masked_mean
           log_lambda log_probs old_log_probs reward_advantages
           cost_advantages mask
         = Some (- masked_mean surrogate mask)
      /\ has_shape B L advantages = true /\ has_shape B L surrogate = true
      /\ (forall b t, (b < B)%nat -> (t < L)%nat ->
            let ratio :=
              exp (get 0 log_probs b t - get 0 old_log_probs b t) in
            get 0 advantages b t = blended b t
            /\ get 0 surrogate b t
               = Rmin (blended b t * ratio)
                   (blended b t
                    * clamp (1 - clip_range_ratio) (1 + clip_range_ratio)
                        ratio))
      /\ lambda = exp log_lambda /\ 0 < lambda
      /\ (forall ra ca, Updater.blend 0 ra ca = ra).
Proof.
  intros eps mm x B L lp olp RA CA mask Hlp Holp HRA HCA lambda blended.
  assert (Hblend : forall b t, (b < B)%nat -> (t < L)%nat ->
            get 0 (map2 (map2 (Updater.blend (Updater.multiplier x))) RA CA)
              b t
            = blended b t).
  { intros b t Hb Ht. now rewrite (map2_map2_get _ B L _ _ b t 0 0). }
  eexists _, _.
  split; [now apply (advantages_same x B L)|].
  split; [now apply (surrogate_same eps x B L)|].
  split.
  { unfold Updater.actor_loss_fn_with_cost.
    now rewrite (surrogate_same eps x B L). }
  split; [now apply (advantages_shape x B L)|].
  split; [now apply surrogate_shape|].
  split.
  { intros b t Hb Ht ratio. split; [now apply Hblend|].
    rewrite (surrogate_get eps x B L lp olp RA CA Hlp Holp HRA HCA b t Hb Ht).
    cbv zeta. now rewrite Hblend. }
  split; [reflexivity|].
  split; [apply exp_pos|].
  intros ra ca. unfold Updater.blend. field.
Qed.

Lemma blended_advantage_witness :
  exists surrogate,
    Updater.surrogate (1 / 5) 0 [[1; 2]] [[0; 2]] [[3; 1]] [[1; 2]]
    = Some surrogate
    /\ get 0 surrogate 0 1
       = Rmin ((1 - exp 0 * 2) / (1 + exp 0) * exp (2 - 2))
           ((1 - exp 0 * 2) / (1 + exp 0)
            * clamp (1 - 1 / 5) (1 + 1 / 5) (exp (2 - 2))).
Proof.
  destruct (blended_advantage (1 / 5) (fun _ _ => 0) 0 1%nat 2%nat
              [[1; 2]] [[0; 2]] [[3; 1]] [[1; 2]] [[true; true]]
              eq_refl eq_refl eq_refl eq_refl)
    as (advantages & surrogate & _ & Hs & _ & _ & _ & Hget & _).
  exists surrogate. split; [exact Hs|].
  exact (proj2 (Hget 0%nat 1%nat (le_n 1) (le_n 2))).
Defined.

(** ** The episode cost window *)

Section DequeFacts.

Import Deque.

Lemma lastn_length {A} n (l : list A) :
  List.length (lastn n l) = Nat.min n (List.length l).
Proof. unfold lastn. rewrite length_skipn. lia. Qed.

Lemma lastn_all {A} n (l : list A) :
  (List.length l <= n)%nat -> lastn n l = l.
Proof.
  intros H. unfold lastn. replace (List.length l - n)%nat with 0%nat by lia.
  reflexivity.
Qed.

Lemma lastn_lastn_app {A} n (a b : list A) :
  lastn n (lastn n a ++ b) = lastn n (a ++ b).
Proof.
  unfold lastn at 1 3. rewrite !length_app, lastn_length. unfold lastn.
  destruct (Nat.le_ge_cases (List.length a) n) as [Hle|Hge].
  - replace (List.length a - n)%nat with 0%nat by lia. simpl.
    now replace (Nat.min n (List.length a)) with (List.length a) by lia.
  - replace (Nat.min n (List.length a)) with n by lia.
    replace (List.length a + List.length b - n)%nat
      with ((n + List.length b - n) + (List.length a - n))%nat by lia.
    rewrite <- skipn_skipn. f_equal.
    rewrite skipn_app.
    replace (List.length a - n - List.length a)%nat with 0%nat by lia.
    reflexivity.
Qed.

Lemma append_maxlen d x : maxlen (append d x) = maxlen d.
Proof. reflexivity. Qed.

Lemma append_items d x :
  (List.length (items d) <= maxlen d)%nat ->
  items (append d x) = lastn (maxlen d) (items d ++ [x]).
Proof.
  intros H. unfold append, lastn. simpl items.
  rewrite length_app. simpl List.length.
  destruct (Nat.ltb_spec (maxlen d) (List.length (items d) + 1)) as [Hlt|Hge].
  - replace (List.length (items d) + 1 - maxlen d)%nat with 1%nat by lia.
    now destruct (items d ++ [x]).
  - now replace (List.length (items d) + 1 - maxlen d)%nat with 0%nat by lia.
Qed.

Lemma extend_maxlen xs d : maxlen (extend d xs) = maxlen d.
Proof.
  unfold extend. revert d; induction xs as [|x xs IH]; intros d; simpl; auto.
  now rewrite IH.
Qed.

Lemma extend_items xs d :
  (List.length (items d) <= maxlen d)%nat ->
  items (extend d xs) = lastn (maxlen d) (items d ++ xs).
Proof.
  unfold extend. revert d; induction xs as [|x xs IH]; intros d H; simpl.
  - rewrite app_nil_r. symmetry. now apply lastn_all.
  - rewrite IH.
    + rewrite append_maxlen, append_items by assumption.
      rewrite lastn_lastn_app. now rewrite <- app_assoc.
    + rewrite append_maxlen, append_items by assumption.
      rewrite lastn_length. lia.
Qed.

(** The window after a run of cost-scoring steps, from the empty window
    of [__init__]. *)
Lemma window_after_steps W (batches : list (list R)) :
  let d := fold_left Rollout.cost_model_step batches (empty W) in
  maxlen d = W /\ items d = lastn W (List.concat batches).
Proof.
  assert (Hgen : forall d0,
            (List.length (items d0) <= maxlen d0)%nat ->
            let d := fold_left Rollout.cost_model_step batches d0 in
            maxlen d = maxlen d0
            /\ items d = lastn (maxlen d0) (items d0 ++ List.concat batches)).
  { induction batches as [|b batches IH]; intros d0 H0; simpl.
    - split; auto. rewrite app_nil_r. symmetry. now apply lastn_all.
    - unfold Rollout.cost_model_step at 2 4.
      destruct (IH (extend d0 b)) as [Hm Hi].
      + rewrite extend_maxlen, extend_items by assumption.
        rewrite lastn_length. lia.
      + simpl in Hm, Hi. rewrite Hm, Hi, extend_maxlen.
        split; auto.
        rewrite extend_items by assumption.
        rewrite lastn_lastn_app. now rewrite <- app_assoc. }
  apply (Hgen (empty W)). simpl. lia.
Qed.

End DequeFacts.

(** C9.  The episode cost window is a first-in first-out buffer of at
    most [W] items: after any run of cost-scoring steps it holds, in
    their order of arrival, the last [W] of all the costs scored so far
    (the costs of each batch in batch order), that is all of them while
    fewer than [W] have been scored and exactly [W] from then on; and one
    more step turns a window [w] into the last [W] items of [w] followed
    by the costs of the batch. *)
Theorem episode_cost_window_fifo :
  forall W (batches : list (list R)) (cost : list R),
    let d := fold_left Rollout.cost_model_step batches (Deque.empty W) in
    Deque.maxlen d = W
    /\ Deque.items d = Deque.lastn W (List.concat batches)
    /\ (List.length (Deque.items d) <= W)%nat
    /\ ((List.length (List.concat batches) <= W)%nat ->
        Deque.items d = List.concat batches)
    /\ ((W <= List.length (List.concat batches))%nat ->
        List.length (Deque.items d) = W)
    /\ Deque.items (Rollout.cost_model_step d cost)
       = Deque.lastn W (Deque.items d ++ cost).
Proof.
  intros W batches cost d.
  destruct (window_after_steps W batches) as [Hm Hi]. fold d in Hm, Hi.
  split; [assumption|]. split; [assumption|].
  assert (Hlen : (List.length (Deque.items d) <= W)%nat)
    by (rewrite Hi, lastn_length; lia).
  split; [assumption|]. split; [|split].
  - intros H. rewrite Hi. now apply lastn_all.
  - intros H. rewrite Hi, lastn_length. lia.
  - unfold Rollout.cost_model_step. rewrite extend_items by lia.
    now rewrite Hm.
Qed.

Lemma episode_cost_window_fifo_witness :
  Deque.items
    (fold_left Rollout.cost_model_step [[1; 2]; [3]; [4; 5]] (Deque.empty 3))
  = [3; 4; 5].
Proof.
  destruct (episode_cost_window_fifo 3 [[1; 2]; [3]; [4; 5]] [])
    as (_ & Hitems & _).
  rewrite Hitems. reflexivity.
Defined.

(** ** Response lengths in [actor_step] *)

Section ResponseFacts.

Import Rollout.

Lemma response_slice prompt sequence :
  (1 <= List.length prompt)%nat -> List.length sequence <> 1%nat ->
  response prompt sequence = Some (skipn (List.length prompt - 1) sequence).
Proof.
  intros Hp Hs. unfold response, slice_from, prompt_length.
  apply Nat.eqb_neq in Hs. rewrite Hs.
  destruct (Z.ltb_spec (Z.of_nat (List.length prompt) - 1) 0); [lia|].
  do 2 f_equal. lia.
Qed.

Lemma drop_leading_app pad l :
  exists k, l = repeat pad k ++ drop_leading pad l
            /\ (forall x rest, drop_leading pad l = x :: rest -> x <> pad).
Proof.
  induction l as [|y l (k & Hk & Hhd)]; simpl.
  - exists 0%nat. split; auto. discriminate.
  - destruct (Z.eqb_spec y pad) as [->|Hne].
    + exists (S k). split; auto. simpl. now rewrite <- Hk.
    + exists 0%nat. split; auto. intros x rest [= <- _]. exact Hne.
Qed.

(** The helper as the spec has it: it takes off the pad tokens at the
    end, and only those. *)
Lemma remove_trailing_pad_tokens_spec pad r :
  exists k, r = remove_trailing_pad_tokens r pad ++ repeat pad k
            /\ (forall body x,
                  remove_trailing_pad_tokens r pad = body ++ [x] -> x <> pad).
Proof.
  unfold remove_trailing_pad_tokens.
  destruct (drop_leading_app pad (rev r)) as (k & Hk & Hhd).
  exists k. split.
  - rewrite <- (rev_involutive r) at 1. rewrite Hk at 1.
    rewrite rev_app_distr. f_equal. apply rev_repeat.
  - intros body x Hbody. apply (f_equal (@rev Z)) in Hbody.
    rewrite rev_involutive, rev_app_distr in Hbody. simpl in Hbody.
    eapply Hhd; eauto.
Qed.

End ResponseFacts.

(** C5, as the code has it.  For every trajectory (with a prompt of at
    least one token and a generated sequence of other than one token),
    the slice whose length is derived is the suffix of the generated
    sequence that starts at index [prompt length - 1], the last position
    of the prompt, and the response length is the length of what
    [remove_pad_tokens] makes of that slice; with the helper of the spec,
    which takes off the trailing pad tokens and nothing else. *)
Theorem response_lens_from_last_prompt_index :
  forall remove_pad_tokens pad_token_id prompts sequences,
    List.length prompts = List.length sequences ->
    Forall (fun p => (1 <= List.length p)%nat) prompts ->
    Forall (fun s => List.length s <> 1%nat) sequences ->
    (forall i, (i < List.length sequences)%nat ->
       Rollout.response (nth i prompts []) (nth i sequences [])
       = Some (skipn (List.length (nth i prompts []) - 1) (nth i sequences [])))
    /\ Rollout.response_lens remove_pad_tokens pad_token_id prompts sequences
       = Some (map2 (fun p s =>
                       List.length
                         (remove_pad_tokens (skipn (List.length p - 1) s)
                            pad_token_id))
                 prompts sequences)
    /\ (forall r, exists k,
          r = Rollout.remove_trailing_pad_tokens r pad_token_id
              ++ repeat pad_token_id k
          /\ forall body x,
               Rollout.remove_trailing_pad_tokens r pad_token_id = body ++ [x] ->
               x <> pad_token_id).
Proof.
  intros rp pad prompts sequences Hlen Hp Hs. split; [|split].
  - intros i Hi. apply response_slice.
    + rewrite Forall_forall in Hp. apply Hp, nth_In. lia.
    + rewrite Forall_forall in Hs. apply Hs, nth_In. lia.
  - revert sequences Hlen Hs. induction Hp as [|p prompts Hp1 Hp IH];
      intros [|s sequences] Hlen Hs; simpl in *; try lia; auto.
    inversion Hs; subst.
    rewrite response_slice by assumption.
    rewrite IH by (auto; lia). reflexivity.
  - intros r. apply remove_trailing_pad_tokens_spec.
Qed.

Lemma response_lens_from_last_prompt_index_witness :
  Rollout.response_lens Rollout.remove_trailing_pad_tokens 0
    [[11; 12]%Z] [[11; 12; 21; 22; 0; 0]%Z]
  = Some [3%nat].
Proof.
  destruct (response_lens_from_last_prompt_index
              Rollout.remove_trailing_pad_tokens 0%Z
              [[11; 12]%Z] [[11; 12; 21; 22; 0; 0]%Z] eq_refl)
    as (_ & Hlens & _).
  - repeat constructor.
  - repeat constructor. simpl. lia.
  - rewrite Hlens. reflexivity.
Defined.

(** C5, as the spec has it, fails: for the prompt [11, 12] and the
    generated sequence [11, 12, 21, 22, pad, pad] the slice is
    [12, 21, 22, pad, pad], which starts one token before the end of the
    prompt and is not the suffix after the prompt, and the response
    length is 3, not 2. *)
Lemma response_slice_not_after_prompt :
  Rollout.response [11; 12]%Z [11; 12; 21; 22; 0; 0]%Z
  = Some [12; 21; 22; 0; 0]%Z
  /\ Rollout.response [11; 12]%Z [11; 12; 21; 22; 0; 0]%Z
     <> Some (skipn (List.length [11; 12]%Z) [11; 12; 21; 22; 0; 0]%Z)
  /\ Rollout.response_lens Rollout.remove_trailing_pad_tokens 0
       [[11; 12]%Z] [[11; 12; 21; 22; 0; 0]%Z]
     = Some [3%nat]
  /\ List.length
       (Rollout.remove_trailing_pad_tokens
          (skipn (List.length [11; 12]%Z) [11; 12; 21; 22; 0; 0]%Z) 0)
     = 2%nat.
Proof.
  repeat split; try reflexivity. discriminate.
Qed.

(** ** A trajectory without a valid position *)

Section AllFalseFacts.

Variables gamma gae_lambda : R.

Lemma gae_row_zero v r :
  Forall (fun x => x = 0) v -> Forall (fun x => x = 0) r ->
  Forall (fun x => x = 0) (GAE.gae_row gamma gae_lambda v r).
Proof.
  intros Hv; revert r; induction Hv as [|vt v Hvt Hv IH]; intros r Hr;
    simpl; [constructor|].
  destruct Hr as [|rt r Hrt Hr]; [constructor|].
  specialize (IH r Hr). constructor; [|exact IH].
  subst vt rt.
  assert (H1 : hd 0 v = 0) by (destruct Hv; auto).
  assert (H2 : hd 0 (GAE.gae_row gamma gae_lambda v r) = 0)
    by (destruct IH; auto).
  rewrite H1, H2. lra.
Qed.

Lemma masked_row_zero (x : list R) (m : list bool) :
  existsb (fun c => c) m = false ->
  Forall (fun a => a = 0) (map2 (fun a c => a * b2r c) x m).
Proof.
  revert m; induction x as [|a x IH]; intros [|c m] H; simpl in *;
    try constructor.
  - apply orb_false_elim in H as [-> _]. simpl. lra.
  - apply orb_false_elim in H as [_ H]. now apply IH.
Qed.

Lemma Forall_zero_nth (l : list R) t :
  Forall (fun a => a = 0) l -> nth t l 0 = 0.
Proof.
  intros H. destruct (Nat.lt_ge_cases t (List.length l)) as [Ht|Ht].
  - rewrite Forall_forall in H. apply H. now apply nth_In.
  - now apply nth_overflow.
Qed.

Lemma map2_plus_zero (a b : list R) :
  Forall (fun x => x = 0) a -> Forall (fun x => x = 0) b ->
  Forall (fun x => x = 0) (map2 Rplus a b).
Proof.
  intros Ha; revert b; induction Ha as [|x a Hx Ha IH]; intros b Hb; simpl;
    [constructor|].
  destruct Hb as [|y b Hy Hb]; constructor; [lra | now apply IH].
Qed.

End AllFalseFacts.

Lemma last_indices_all_false (M : list (list bool)) :
  existsb (fun m => negb (existsb (fun c => c) m)) M = true ->
  Shaping.last_indices M = None.
Proof.
  induction M as [|m M IH]; simpl; [discriminate|].
  intros H. apply orb_prop in H as [H|H].
  - apply negb_true_iff in H. now rewrite nonzero_none.
  - rewrite (IH H). now destruct (Shaping.index_last _).
Qed.

(** C7, as the code has it.  [get_advantages_and_returns] (start 0, (B, L)
    tensors with at least one row and one column) returns on a batch with
    a trajectory whose mask row is all false, and the advantages and the
    returns of that trajectory are all zero.  The KL shaping is another
    matter: [add_kl_divergence_regularization_with_cost] raises on every
    batch with such a row, since it takes the last nonzero index of every
    mask row. *)
Theorem all_false_mask_zero_targets_but_shaping_raises :
  (forall gamma gae_lambda B L V Rw M b,
     has_shape B L V = true -> has_shape B L Rw = true ->
     has_shape B L M = true -> (1 <= B)%nat -> (1 <= L)%nat -> (b < B)%nat ->
     existsb (fun c => c) (nth b M []) = false ->
     exists adv ret,
       GAE.get_advantages_and_returns gamma gae_lambda V Rw M 0
       = Some (adv, ret)
       /\ has_shape B L adv = true /\ has_shape B L ret = true
       /\ forall t, get 0 adv b t = 0 /\ get 0 ret b t = 0)
  /\ (forall kl_coeff clip_range_score reward cost log_probs ref_log_probs M,
        existsb (fun m => negb (existsb (fun c => c) m)) M = true ->
        Shaping.add_kl_divergence_regularization_with_cost kl_coeff
          clip_range_score reward cost log_probs ref_log_probs M = None).
Proof.
  split.
  - intros gamma gae_lambda B L V Rw M b HV HR HM HB HL Hb Hfalse.
    pose proof (masked_shape _ _ _ _ HV HM) as HV'.
    pose proof (masked_shape _ _ _ _ HR HM) as HR'.
    pose proof (gae_rows_shape gamma gae_lambda _ _ _ _ HV' HR') as HA.
    pose proof (has_shape_length _ _ _ HV) as LV.
    pose proof (has_shape_length _ _ _ HR) as LR.
    pose proof (has_shape_length _ _ _ HM) as LM.
    eexists _, _. split; [now apply (get_advantages_and_returns_rows _ _ B L)|].
    split; [assumption|]. split; [now apply sum2_shape|].
    assert (HVb : Forall (fun x => x = 0) (nth b (masked V M) [])).
    { rewrite map2_row by lia. now apply masked_row_zero. }
    assert (HRb : Forall (fun x => x = 0) (nth b (masked Rw M) [])).
    { rewrite map2_row by lia. now apply masked_row_zero. }
    assert (HAb : Forall (fun x => x = 0)
                    (nth b (GAE.gae_rows gamma gae_lambda (masked V M)
                              (masked Rw M)) [])).
    { unfold GAE.gae_rows.
      rewrite (map2_nth _ _ _ b [] [] [])
        by (rewrite ?(has_shape_length _ _ _ HV'),
                    ?(has_shape_length _ _ _ HR'); lia).
      now apply gae_row_zero. }
    intros t. unfold get. split.
    + now apply Forall_zero_nth.
    + apply Forall_zero_nth.
      rewrite map2_row
        by (rewrite ?(has_shape_length _ _ _ HA),
                    ?(has_shape_length _ _ _ HV'); lia).
      now apply map2_plus_zero.
  - intros k c reward cost lp rlp M HM.
    unfold Shaping.add_kl_divergence_regularization_with_cost,
      Shaping.scattered_streams, Shaping.end_index.
    destruct M as [|m M]; [reflexivity|].
    now rewrite last_indices_all_false.
Qed.

Lemma all_false_mask_zero_targets_but_shaping_raises_witness :
  (exists adv ret,
     GAE.get_advantages_and_returns (9 / 10) (95 / 100)
       [[1; 2]; [3; 4]] [[5; 6]; [7; 8]] [[true; true]; [false; false]] 0
     = Some (adv, ret)
     /\ get 0 adv 1 0 = 0 /\ get 0 ret 1 0 = 0)
  /\ Shaping.add_kl_divergence_regularization_with_cost (1 / 10) 5
       [1; 2] [3; 4] [[1; 2]; [3; 4]] [[1; 1]; [1; 1]]
       [[true; true]; [false; false]] = None.
Proof.
  split.
  - destruct (proj1 all_false_mask_zero_targets_but_shaping_raises
                (9 / 10) (95 / 100) 2%nat 2%nat
                [[1; 2]; [3; 4]] [[5; 6]; [7; 8]]
                [[true; true]; [false; false]] 1%nat
                eq_refl eq_refl eq_refl (le_S _ _ (le_n 1))
                (le_S _ _ (le_n 1)) (le_n 2) eq_refl)
      as (adv & ret & Hrun & _ & _ & Hzero).
    exists adv, ret. split; [exact Hrun|]. apply Hzero.
  - apply (proj2 all_false_mask_zero_targets_but_shaping_raises). reflexivity.
Defined.

(** C7, as the spec has it, fails: a batch of one trajectory whose mask
    is all false makes the KL shaping raise, and with it the pipeline of
    shaping followed by advantage estimation; and [rl_step] itself raises
    on a batch of empty responses (tensors of width 0), whose mask has no
    valid position either. *)
Lemma all_false_mask_is_fatal :
  forallb (fun c => negb c) [false; false] = true
  /\ Shaping.add_kl_divergence_regularization_with_cost (1 / 10) 5
       [1] [2] [[0; 0]] [[0; 0]] [[false; false]] = None
  /\ Shaping.end_index [[false; false]] = None
  /\ Trainer.rl_step_targets (1 / 10) 5 (9 / 10) (95 / 100)
       {| Trainer.response_lens := [0%nat];
          Trainer.log_probs := [[]];
          Trainer.ref_log_probs := [[]];
          Trainer.reward := [1];
          Trainer.reward_values := [[]];
          Trainer.cost := [2];
          Trainer.cost_values := [[]];
          Trainer.response_mask := [[]] |} = None.
Proof. repeat split; reflexivity. Qed.

(** ** The tokenizer checks at initialisation *)

Section InitFacts.

Import Init.

Variable Tokenizer : Type.
Variable type_name : Tokenizer -> string.
Variable len : Tokenizer -> N.
Variable load_pretrained_models : string -> padding_side -> Tokenizer.
Variable load_pretrained_model_with_value_head :
  string -> padding_side -> Tokenizer.
Variable is_same_tokenizer : Tokenizer -> Tokenizer -> bool.

Local Abbreviation init :=
  (init_models_with_cost_model Tokenizer type_name len load_pretrained_models
     load_pretrained_model_with_value_head is_same_tokenizer).
Local Abbreviation actor_tok :=
  (loaded_actor_tokenizer Tokenizer load_pretrained_models).
Local Abbreviation reward_critic_tok :=
  (loaded_reward_critic_tokenizer Tokenizer
     load_pretrained_model_with_value_head).

(** The reward critic is checked: a mismatch there is a [ValueError] whose
    message names it. *)
Lemma init_reward_critic_mismatch cfgs :
  is_same_tokenizer (actor_tok cfgs) (reward_critic_tok cfgs) = false ->
  init cfgs
  = ValueError (reward_critic_message Tokenizer type_name len
                  (actor_tok cfgs) (reward_critic_tok cfgs)).
Proof.
  intros H. unfold init_models_with_cost_model.
  unfold loaded_actor_tokenizer, loaded_reward_critic_tokenizer in H.
  now rewrite H.
Qed.

(** Nothing else is: with a matching reward critic the function returns,
    whatever the tokenizer of the cost critic. *)
Lemma init_reward_critic_match cfgs :
  is_same_tokenizer (actor_tok cfgs) (reward_critic_tok cfgs) = true ->
  exists toks, init cfgs = Ok toks
               /\ cost_critic_tokenizer _ toks = actor_tok cfgs
               /\ cost_tokenizer _ toks = actor_tok cfgs.
Proof.
  intros H. unfold init_models_with_cost_model.
  unfold loaded_actor_tokenizer, loaded_reward_critic_tokenizer in H.
  rewrite H. simpl. eexists. split; [reflexivity|]. split; reflexivity.
Qed.

End InitFacts.

Example init_reward_critic_mismatch_message :
  Init.init_models_with_cost_model Init.toy_tokenizer fst snd
    Init.toy_load Init.toy_load Init.toy_same Init.toy_cfgs_reward_critic
  = Init.ValueError
      ("Reward critic tokenizer must be the same as actor tokenizer. "
       ++ "Expected transformers.LlamaTokenizerFast(vocab_size=32000), "
       ++ "but got transformers.GPT2TokenizerFast(vocab_size=50257). "
       ++ "Please consider pass `--reward_critic_model_name_or_path` from the command line.")%string.
Proof. reflexivity. Qed.

(** C8, on the code.  With the tokenizer of the cost critic (loaded from
    the path of the cost model) different from the tokenizer of the
    policy and the reward critic's equal to it, [init_models_with_cost_model]
    raises nothing: it returns, with the cost critic's tokenizer replaced
    by the policy's. *)
Theorem init_accepts_cost_critic_mismatch :
  Init.toy_same
    (Init.loaded_actor_tokenizer _ Init.toy_load Init.toy_cfgs)
    (Init.loaded_cost_critic_tokenizer _ Init.toy_load Init.toy_cfgs) = false
  /\ Init.toy_same
       (Init.loaded_actor_tokenizer _ Init.toy_load Init.toy_cfgs)
       (Init.loaded_reward_critic_tokenizer _ Init.toy_load Init.toy_cfgs) = true
  /\ Init.init_models_with_cost_model Init.toy_tokenizer fst snd
       Init.toy_load Init.toy_load Init.toy_same Init.toy_cfgs
     = Init.Ok
         {| Init.tokenizer := ("transformers.LlamaTokenizerFast"%string, 32000%N);
            Init.reward_tokenizer :=
              ("transformers.LlamaTokenizerFast"%string, 32000%N);
            Init.reward_critic_tokenizer :=
              ("transformers.LlamaTokenizerFast"%string, 32000%N);
            Init.cost_tokenizer :=
              ("transformers.LlamaTokenizerFast"%string, 32000%N);
            Init.cost_critic_tokenizer :=
              ("transformers.LlamaTokenizerFast"%string, 32000%N) |}.
Proof. repeat split; reflexivity. Qed.

(** ** Preference collation *)

Section CollateFacts.

Import Preference.

Lemma right_padding_rows {A} (sequences : list (list A)) pad :
  sequences <> [] ->
  exists padded,
    right_padding sequences pad = Some padded
    /\ List.length padded = List.length sequences
    /\ forall i s, nth_error sequences i = Some s ->
         (List.length s <= max_length sequences)%nat
         /\ nth_error padded i
            = Some (s ++ repeat pad (max_length sequences - List.length s)).
Proof.
  intros Hne. unfold right_padding.
  destruct sequences as [|s0 rest] eqn:E; [congruence|]. rewrite <- E.
  clear E Hne s0 rest.
  eexists. split; [reflexivity|]. split; [now rewrite length_map|].
  intros i s Hi. split.
  - clear pad. revert i Hi. induction sequences as [|x xs IH]; intros [|i] Hi;
      simpl in *; try discriminate.
    + injection Hi as ->. lia.
    + specialize (IH i Hi). lia.
  - now rewrite nth_error_map, Hi.
Qed.

Lemma traverse_map_some {A C} (f : A -> option C) (g : A -> C) (l : list A) :
  (forall x, In x l -> f x = Some (g x)) -> traverse f l = Some (map g l).
Proof.
  induction l as [|x l IH]; intros H; simpl; [reflexivity|].
  rewrite (H x (or_introl eq_refl)), IH; [reflexivity|].
  intros y Hy. apply H. now right.
Qed.

Lemma traverse_none {A C} (f : A -> option C) (l : list A) :
  forallb (fun x => match f x with Some _ => true | None => false end) l
  = false ->
  traverse f l = None.
Proof.
  induction l as [|x l IH]; simpl; [discriminate|].
  destruct (f x); simpl.
  - intros H. rewrite (IH H). reflexivity.
  - reflexivity.
Qed.

Lemma traverse_some_all {A C} (f : A -> option C) (l : list A) ys :
  traverse f l = Some ys ->
  forall x, In x l -> exists y, f x = Some y.
Proof.
  revert ys; induction l as [|x l IH]; intros ys H y Hy; [destruct Hy|].
  simpl in H. destruct (f x) as [fx|] eqn:Ex; [|discriminate].
  destruct (traverse f l) as [ys'|]; [|discriminate].
  destruct Hy as [<-|Hy]; [now exists fx | now apply (IH ys')].
Qed.

Variable Px : Type.

Lemma same_size_refl a : same_size a a = true.
Proof. induction a as [|x a IH]; simpl; [reflexivity|]. now rewrite Nat.eqb_refl. Qed.

Lemma same_size_eq a b : same_size a b = true -> a = b.
Proof.
  revert b; induction a as [|x a IH]; intros [|y b] H; simpl in H;
    try discriminate; [reflexivity|].
  apply andb_prop in H as [Hx H]. apply Nat.eqb_eq in Hx.
  now rewrite Hx, (IH b H).
Qed.

(** The tensor of a sample that has one. *)
Local Abbreviation tensor_of :=
  (fun s : sample Px => match pixel_values Px s with
                        | Some t => t
                        | None => {| size := []; entries := [] |}
                        end).

Lemma forallb_on_filter {A} (p q : A -> bool) (l : list A) :
  forallb q (filter p l) = forallb (fun x => negb (p x) || q x) l.
Proof.
  induction l as [|x l IH]; simpl; [reflexivity|].
  destruct (p x); simpl; now rewrite IH.
Qed.

Lemma forallb_ext_in {A} (p q : A -> bool) (l : list A) :
  (forall x, In x l -> p x = q x) -> forallb p l = forallb q l.
Proof.
  induction l as [|x l IH]; intros H; simpl; [reflexivity|].
  rewrite (H x (or_introl eq_refl)), IH; [reflexivity|].
  intros y Hy. apply H. now right.
Qed.

Lemma forallb_map {A C} (f : A -> C) (p : C -> bool) (l : list A) :
  forallb p (map f l) = forallb (fun x => p (f x)) l.
Proof. induction l as [|x l IH]; simpl; [reflexivity | now rewrite IH]. Qed.

(** [torch.cat] on a list that starts with a tensor it does not pass
    over: it returns exactly when every tensor is passed over or fits
    the first one. *)
Lemma cat_first (t0 : tensor Px) rest n0 tail :
  size Px t0 = n0 :: tail -> skipped Px t0 = false ->
  cat Px (t0 :: rest)
  = if forallb (fun t => skipped Px t || fits Px tail t) (t0 :: rest)
    then Some {| size := list_sum (map (fun t => hd 0%nat (size Px t))
                                     (t0 :: rest)) :: tail;
                 entries := List.concat (map (entries Px) (t0 :: rest)) |}
    else None.
Proof.
  intros Hsize Hskip. unfold cat. cbn [filter]. rewrite Hskip. cbn [negb].
  rewrite Hsize. cbn [forallb]. rewrite Hskip. cbn [orb].
  rewrite forallb_on_filter.
  assert (Hsame : forallb (fun x => negb (negb (skipped Px x)) || fits Px tail x)
                    rest
                  = forallb (fun t => skipped Px t || fits Px tail t) rest).
  { apply forallb_ext_in. intros t _. now rewrite negb_involutive. }
  assert (Hfit : fits Px tail t0 = true)
    by (unfold fits; rewrite Hsize; apply same_size_refl).
  rewrite ?Hfit, Hsame. reflexivity.
Qed.

(** Doubling a tensor that [torch.cat] does not pass over. *)
Lemma cat_double (t : tensor Px) n tail :
  size Px t = n :: tail -> skipped Px t = false ->
  cat Px [t; t]
  = Some {| size := (n + n)%nat :: tail;
            entries := entries Px t ++ entries Px t |}.
Proof.
  intros Hsize Hskip.
  assert (Hfit : fits Px tail t = true)
    by (unfold fits; rewrite Hsize; apply same_size_refl).
  rewrite (cat_first t [t] n tail Hsize Hskip).
  cbn [forallb]. rewrite Hskip, Hfit. cbn [orb andb map list_sum List.concat].
  rewrite Hsize. cbn [hd]. rewrite app_nil_r. do 3 f_equal. simpl. lia.
Qed.

Lemma dim4_size (t : tensor Px) :
  (dim Px t =? 4)%nat = true ->
  exists n tail, size Px t = n :: tail /\ skipped Px t = false
                 /\ List.length tail = 3%nat.
Proof.
  unfold dim, skipped. intros H. apply Nat.eqb_eq in H.
  destruct (size Px t) as [|n [|a [|b [|c [|d tl]]]]]; try discriminate.
  exists n, [a; b; c]. repeat split. now destruct n.
Qed.

(** The two calls of [torch.cat] on tensors that fit the first one, which
    has four dimensions. *)
Lemma cat_twice (t0 : tensor Px) rest n0 tail :
  size Px t0 = n0 :: tail -> List.length tail = 3%nat ->
  forallb (fun t => skipped Px t || fits Px tail t) (t0 :: rest) = true ->
  let rows := list_sum (map (fun t => hd 0%nat (size Px t)) (t0 :: rest)) in
  let joined := List.concat (map (entries Px) (t0 :: rest)) in
  exists pixel_values_tensor,
    cat Px (t0 :: rest) = Some pixel_values_tensor
    /\ cat Px [pixel_values_tensor; pixel_values_tensor]
       = Some {| size := (rows + rows)%nat :: tail;
                 entries := joined ++ joined |}.
Proof.
  intros Hsize Htail Hfits rows joined.
  assert (Hskip : skipped Px t0 = false).
  { unfold skipped. rewrite Hsize.
    destruct tail; [discriminate | now destruct n0]. }
  rewrite (cat_first t0 rest n0 tail Hsize Hskip), Hfits.
  eexists. split; [reflexivity|].
  apply cat_double; [reflexivity|].
  unfold skipped. cbn [size].
  destruct tail; [discriminate | now destruct (list_sum _)].
Qed.

(** [torch.stack] and the [torch.cat] behind it, on tensors of one
    size. *)
Lemma stack_twice (t0 : tensor Px) rest :
  forallb (fun t => same_size (size Px t) (size Px t0)) (t0 :: rest) = true ->
  let joined := List.concat (map (entries Px) (t0 :: rest)) in
  exists pixel_values_tensor,
    stack Px (t0 :: rest) = Some pixel_values_tensor
    /\ cat Px [pixel_values_tensor; pixel_values_tensor]
       = Some {| size := (List.length (t0 :: rest)
                          + List.length (t0 :: rest))%nat :: size Px t0;
                 entries := joined ++ joined |}.
Proof.
  intros Hsame joined. unfold stack. rewrite Hsame.
  eexists. split; [reflexivity|].
  apply cat_double; reflexivity.
Qed.

(** The two keys set by the image block, when the samples agree. *)
Lemma collate_pixels_explicit (samples : list (sample Px)) s0 :
  hd_error samples = Some s0 -> pixels_agree Px samples = true ->
  collate_pixels Px samples
  = Some
      match pixel_values Px s0 with
      | None => (None, None)
      | Some t0 =>
          let sizes := map (fun s => hd 0%nat (size Px (tensor_of s))) samples in
          let doubled := sample_entries Px samples ++ sample_entries Px samples in
          if (dim Px t0 =? 4)%nat
          then (Some (sizes ++ sizes),
                Some {| size := (list_sum sizes + list_sum sizes)%nat
                                :: tl (size Px t0);
                        entries := doubled |})
          else (None,
                Some {| size := (List.length samples + List.length samples)%nat
                                :: size Px t0;
                        entries := doubled |})
      end.
Proof.
  intros Hhd Hagree. unfold collate_pixels, pixels_agree in *.
  destruct samples as [|s rest]; [discriminate|]. injection Hhd as ->.
  destruct (pixel_values Px s0) as [t0|] eqn:Ht0; [|reflexivity].
  remember (s0 :: rest) as samples eqn:Hsamples.
  assert (Hall : forall s, In s samples ->
            pixel_values Px s = Some (tensor_of s)).
  { intros s Hs. rewrite forallb_forall in Hagree. specialize (Hagree s Hs).
    now destruct (pixel_values Px s). }
  assert (Htensors : traverse (pixel_values Px) samples
                     = Some (map tensor_of samples))
    by now apply traverse_map_some.
  assert (Hentries : List.concat (map (entries Px) (map tensor_of samples))
                     = sample_entries Px samples).
  { unfold sample_entries. rewrite map_map. f_equal. apply map_ext_in.
    intros s Hs. now rewrite (Hall s Hs). }
  assert (Hlist : map tensor_of samples = t0 :: map tensor_of rest)
    by (rewrite Hsamples; cbn [map]; now rewrite Ht0).
  rewrite Htensors. cbv zeta.
  destruct (dim Px t0 =? 4)%nat eqn:Hdim.
  - destruct (dim4_size t0 Hdim) as (n0 & tail & Hsize & Hskip & Htail).
    assert (Hsizes : traverse (fun s => match pixel_values Px s with
                                        | Some t => size0 Px t
                                        | None => None
                                        end) samples
                     = Some (map (fun s => hd 0%nat (size Px (tensor_of s)))
                               samples)).
    { apply traverse_map_some. intros s Hs.
      rewrite forallb_forall in Hagree. specialize (Hagree s Hs).
      destruct (pixel_values Px s) as [t|]; [|discriminate].
      unfold size0. unfold skipped, fits in Hagree.
      destruct (size Px t) as [|n tl']; [discriminate | reflexivity]. }
    rewrite Hsizes.
    assert (Hfits : forallb (fun t => skipped Px t || fits Px tail t)
                      (map tensor_of samples) = true).
    { rewrite forallb_forall. intros t Ht.
      apply in_map_iff in Ht as (s & <- & Hs).
      rewrite forallb_forall in Hagree. specialize (Hagree s Hs).
      rewrite (Hall s Hs) in Hagree. now rewrite Hsize in Hagree. }
    rewrite Hlist in Hfits.
    destruct (cat_twice t0 _ n0 tail Hsize Htail Hfits) as (pvt & Hcat & Hdbl).
    rewrite <- Hlist in Hcat, Hdbl. rewrite Hcat, Hdbl.
    rewrite Hentries, map_map, Hsize. reflexivity.
  - assert (Hsame : forallb (fun t => same_size (size Px t) (size Px t0))
                      (map tensor_of samples) = true).
    { rewrite forallb_forall. intros t Ht.
      apply in_map_iff in Ht as (s & <- & Hs).
      rewrite forallb_forall in Hagree. specialize (Hagree s Hs).
      now rewrite (Hall s Hs) in Hagree. }
    rewrite Hlist in Hsame.
    destruct (stack_twice t0 _ Hsame) as (pvt & Hstack & Hdbl).
    rewrite <- Hlist in Hstack, Hdbl. rewrite Hstack, Hdbl.
    rewrite Hentries, length_map. reflexivity.
Qed.

Lemma collate_pixels_disagree (samples : list (sample Px)) :
  pixels_agree Px samples = false -> collate_pixels Px samples = None.
Proof.
  unfold collate_pixels, pixels_agree.
  destruct samples as [|s0 rest]; [discriminate|].
  destruct (pixel_values Px s0) as [t0|] eqn:Ht0; [|discriminate].
  intros Hagree.
  destruct (traverse (pixel_values Px) (s0 :: rest)) as [ts|] eqn:Hts.
  2:{ destruct (dim Px t0 =? 4)%nat; [|reflexivity].
      match goal with |- match ?x with _ => _ end = _ => now destruct x end. }
  assert (Hall : forall s, In s (s0 :: rest) ->
            pixel_values Px s = Some (tensor_of s)).
  { intros s Hs. destruct (traverse_some_all _ _ _ Hts s Hs) as (t & Ht).
    now rewrite Ht. }
  assert (Hts' : ts = map tensor_of (s0 :: rest)).
  { rewrite (traverse_map_some _ tensor_of _ Hall) in Hts. congruence. }
  assert (Hfirst : tensor_of s0 = t0) by now rewrite Ht0.
  assert (Hbad : forallb (fun t => if (dim Px t0 =? 4)%nat
                                   then skipped Px t || fits Px (tl (size Px t0)) t
                                   else same_size (size Px t) (size Px t0))
                   ts = false).
  { rewrite Hts', forallb_map. rewrite <- Hagree. apply forallb_ext_in.
    intros s Hs. now rewrite (Hall s Hs). }
  rewrite Hts' in *. cbn [map] in Hbad |- *. rewrite Hfirst in Hbad |- *.
  destruct (dim Px t0 =? 4)%nat eqn:Hdim.
  - destruct (dim4_size t0 Hdim) as (n0 & tail & Hsize & Hskip & Htail).
    rewrite Hsize in Hbad. cbn [tl] in Hbad.
    rewrite (cat_first t0 _ n0 tail Hsize Hskip), Hbad.
    match goal with |- match ?x with _ => _ end = _ => now destruct x end.
  - unfold stack. now rewrite Hbad.
Qed.

End CollateFacts.

(** C10, as the code has it.  On a non-empty list of B samples whose
    image tensors agree with the first one's (every sample has one when
    the first has, and [torch.cat] or [torch.stack] accepts them) either
    collator returns a batch in which
      - [input_ids] has 2 * B rows: row [i] is the better sequence of
        sample [i] and row [B + i] its worse sequence, each filled on the
        right with the pad token up to the common width;
      - [response_lens] is the better response lengths followed by the
        worse ones, in sample order;
      - [pixel_values], set when the first sample has an image tensor, is
        the image tensors of the samples joined in sample order, followed
        by the same once more, so that the two halves are equal. *)
Theorem collator_stacks_better_then_worse :
  forall (Px : Type) (ours : bool) (pad_token_id : Z)
         (samples : list (Preference.sample Px)),
    samples <> [] -> Preference.pixels_agree Px samples = true ->
    let B := List.length samples in
    exists batch L,
      (if ours then Preference.PreferenceCollator_ours_call Px
       else Preference.PreferenceCollator_call Px) pad_token_id samples
      = Some batch
      /\ List.length (Preference.input_ids Px batch) = (2 * B)%nat
      /\ (forall i s, nth_error samples i = Some s ->
            nth_error (Preference.input_ids Px batch) i
            = Some (Preference.better_input_ids Px s
                    ++ repeat pad_token_id
                         (L - List.length (Preference.better_input_ids Px s)))
            /\ nth_error (Preference.input_ids Px batch) (B + i)
               = Some (Preference.worse_input_ids Px s
                       ++ repeat pad_token_id
                            (L - List.length (Preference.worse_input_ids Px s))))
      /\ Preference.response_lens Px batch
         = map (Preference.better_response_lens Px) samples
           ++ map (Preference.worse_response_lens Px) samples
      /\ (forall s0, hd_error samples = Some s0 ->
            match Preference.pixel_values Px s0 with
            | None => Preference.batch_pixel_values Px batch = None
            | Some _ =>
                exists px,
                  Preference.batch_pixel_values Px batch = Some px
                  /\ Preference.entries Px px
                     = Preference.sample_entries Px samples
                       ++ Preference.sample_entries Px samples
            end).
Proof.
  intros Px ours pad samples Hne Hagree B.
  set (ids := map (Preference.better_input_ids Px) samples
              ++ map (Preference.worse_input_ids Px) samples).
  assert (Hids : ids <> []).
  { unfold ids. destruct samples; [congruence | discriminate]. }
  destruct (right_padding_rows ids pad Hids) as (padded & Hpad & Hlen & Hrows).
  assert (Hmask : map (map (fun _ : Z => true)) ids <> []).
  { destruct ids; [congruence | discriminate]. }
  destruct (right_padding_rows _ false Hmask) as (pmask & Hpm & _).
  assert (Hhd : exists s0, hd_error samples = Some s0)
    by (destruct samples as [|s0 ?]; [congruence | now exists s0]).
  destruct Hhd as (s0 & Hs0).
  pose proof (collate_pixels_explicit Px samples s0 Hs0 Hagree) as Hpx.
  assert (Hcall : forall w, exists batch,
            Preference.collate Px w pad samples = Some batch
            /\ Preference.input_ids Px batch = padded
            /\ Preference.response_lens Px batch
               = map (Preference.better_response_lens Px) samples
                 ++ map (Preference.worse_response_lens Px) samples
            /\ match Preference.pixel_values Px s0 with
               | None => Preference.batch_pixel_values Px batch = None
               | Some _ =>
                   exists px,
                     Preference.batch_pixel_values Px batch = Some px
                     /\ Preference.entries Px px
                        = Preference.sample_entries Px samples
                          ++ Preference.sample_entries Px samples
               end).
  { intros w. unfold Preference.collate. fold ids.
    rewrite Hpad, Hpm, Hpx.
    destruct (Preference.pixel_values Px s0) as [t0|].
    - cbv zeta. destruct (Preference.dim Px t0 =? 4)%nat;
        (eexists; split; [reflexivity|]; cbn; split; [reflexivity|];
         split; [reflexivity|]; eexists; split; reflexivity).
    - eexists. split; [reflexivity|]. cbn. auto. }
  destruct (Hcall ours) as (batch & Hbatch & Hin & Hresp & Hpix).
  exists batch, (Preference.max_length ids). split.
  { destruct ours; exact Hbatch. }
  rewrite Hin. split; [|split; [|split]].
  - rewrite Hlen. unfold ids. rewrite length_app, !length_map. lia.
  - intros i s Hi. split.
    + apply Hrows. unfold ids. rewrite nth_error_app1.
      * now rewrite nth_error_map, Hi.
      * rewrite length_map. apply nth_error_Some. congruence.
    + apply Hrows. unfold ids. rewrite nth_error_app2.
      * rewrite length_map. fold B.
        replace (B + i - B)%nat with i by lia.
        now rewrite nth_error_map, Hi.
      * rewrite length_map. fold B. lia.
  - exact Hresp.
  - intros s0' Hs0'. rewrite Hs0 in Hs0'. injection Hs0' as <-. exact Hpix.
Qed.

Lemma collator_stacks_better_then_worse_witness :
  exists batch,
    Preference.PreferenceCollator_call nat 0
      [ {| Preference.better_input_ids := [1; 2; 3]%Z;
           Preference.worse_input_ids := [1; 4]%Z;
           Preference.better_response_lens := 2;
           Preference.worse_response_lens := 1;
           Preference.pixel_values :=
             Some {| Preference.size := [1; 1; 2]%nat;
                     Preference.entries := [7; 8]%nat |};
           Preference.is_better_safe := "yes";
           Preference.is_worse_safe := "no" |};
        {| Preference.better_input_ids := [5]%Z;
           Preference.worse_input_ids := [5; 6]%Z;
           Preference.better_response_lens := 1;
           Preference.worse_response_lens := 2;
           Preference.pixel_values :=
             Some {| Preference.size := [1; 1; 2]%nat;
                     Preference.entries := [9; 10]%nat |};
           Preference.is_better_safe := "yes";
           Preference.is_worse_safe := "yes" |} ]
    = Some batch
    /\ List.length (Preference.input_ids nat batch) = 4%nat
    /\ Preference.response_lens nat batch = [2; 1; 1; 2]%nat
    /\ exists px,
         Preference.batch_pixel_values nat batch = Some px
         /\ Preference.entries nat px = [7; 8; 9; 10; 7; 8; 9; 10]%nat.
Proof.
  match goal with
  | |- exists batch, _ _ _ ?samples = _ /\ _ =>
      destruct (collator_stacks_better_then_worse nat false 0%Z samples
                  ltac:(discriminate) eq_refl)
        as (batch & L & Hcall & Hrows & _ & Hlens & Hpx)
  end.
  exists batch. split; [exact Hcall|]. split; [exact Hrows|].
  split; [exact Hlens|]. exact (Hpx _ eq_refl).
Defined.

(** C10, as the claim has it, fails: not every non-empty list of samples
    is collated.  With a second sample that lacks the image tensor the
    first one has, or has one of another size, both collators raise. *)
Lemma collator_raises_on_mixed_samples :
  let with_image size :=
    {| Preference.better_input_ids := [1; 2; 3]%Z;
       Preference.worse_input_ids := [1; 4]%Z;
       Preference.better_response_lens := 2%nat;
       Preference.worse_response_lens := 1%nat;
       Preference.pixel_values :=
         Some {| Preference.size := size;
                 Preference.entries :=
                   repeat 7%nat (fold_right Nat.mul 1%nat size) |};
       Preference.is_better_safe := "yes"%string;
       Preference.is_worse_safe := "no"%string |} in
  let without_image :=
    {| Preference.better_input_ids := [5]%Z;
       Preference.worse_input_ids := [5; 6]%Z;
       Preference.better_response_lens := 1%nat;
       Preference.worse_response_lens := 2%nat;
       Preference.pixel_values := None;
       Preference.is_better_safe := "yes"%string;
       Preference.is_worse_safe := "yes"%string |} in
  [with_image [1; 1; 2]%nat; without_image] <> []
  /\ Preference.PreferenceCollator_call nat 0
       [with_image [1; 1; 2]%nat; without_image] = None
  /\ Preference.PreferenceCollator_ours_call nat 0
       [with_image [1; 1; 2]%nat; without_image] = None
  /\ Preference.PreferenceCollator_call nat 0
       [with_image [1; 1; 2]%nat; with_image [1; 1; 3]%nat] = None
  /\ Preference.PreferenceCollator_call nat 0
       [with_image [2; 1; 1; 2]%nat; with_image [2; 1; 1; 3]%nat] = None.
Proof. repeat split; try reflexivity. discriminate. Qed.

Lemma kl_shaping_streams_witness :
  exists es rewards costs,
    Shaping.end_index [[true; true; false]; [true; true; true]] = Some es
    /\ List.length es = 2%nat
    /\ Shaping.scattered_streams (1 / 10) [5; 7] [1; 2]
         [[1; 2; 3]; [4; 5; 6]] [[0; 1; 1]; [1; 1; 1]]
         [[true; true; false]; [true; true; true]]
       = Some (rewards, costs)
    /\ Shaping.masked_sum (nth 0 rewards []) [true; true; false]
       = 5 - (1 / 10)
             * Shaping.masked_sum (map2 Rminus [1; 2; 3] [0; 1; 1])
                 [true; true; false].
Proof.
  destruct (kl_shaping_streams (1 / 10) 5 2%nat 3%nat [5; 7] [1; 2]
              [[1; 2; 3]; [4; 5; 6]] [[0; 1; 1]; [1; 1; 1]]
              [[true; true; false]; [true; true; true]]
              eq_refl eq_refl eq_refl eq_refl eq_refl
              (le_S _ _ (le_n 1)) eq_refl)
    as (es & rewards & costs & Hend & Hlen & Hstreams & _ & Hrows).
  exists es, rewards, costs. repeat split; try assumption.
  destruct (Hrows 0%nat (le_S _ _ (le_n 1))) as (_ & _ & Hsum).
  exact Hsum.
Defined.

Lemma rl_step_mask_is_all_true_witness :
  Trainer.sequence_mask
    {| Trainer.response_lens := [2; 3]%nat;
       Trainer.log_probs := [[1; 2; 0]; [1; 2; 3]];
       Trainer.ref_log_probs := [[1; 1; 0]; [1; 1; 1]];
       Trainer.reward := [5; 7];
       Trainer.reward_values := [[1; 2; 0]; [3; 4; 5]];
       Trainer.cost := [1; 2];
       Trainer.cost_values := [[1; 2; 0]; [3; 4; 5]];
       Trainer.response_mask :=
         [[true; true; false; false]; [true; true; true; false]] |}
  = [[true; true; true]; [true; true; true]]
  /\ Shaping.end_index
       (Trainer.sequence_mask
          {| Trainer.response_lens := [2; 3]%nat;
             Trainer.log_probs := [[1; 2; 0]; [1; 2; 3]];
             Trainer.ref_log_probs := [[1; 1; 0]; [1; 1; 1]];
             Trainer.reward := [5; 7];
             Trainer.reward_values := [[1; 2; 0]; [3; 4; 5]];
             Trainer.cost := [1; 2];
             Trainer.cost_values := [[1; 2; 0]; [3; 4; 5]];
             Trainer.response_mask :=
               [[true; true; false; false]; [true; true; true; false]] |})
     = Some [2; 2]%nat.
Proof.
  match goal with
  | |- Trainer.sequence_mask ?tb = _ /\ _ =>
      destruct (rl_step_mask_is_all_true (1 / 10) 5 (9 / 10) (95 / 100) tb
                  2%nat 4%nat 3%nat 3%nat eq_refl eq_refl eq_refl
                  (le_S _ _ (le_n 1)))
        as (_ & Hmask & _ & _ & Hend)
  end.
  split; [exact Hmask|]. apply Hend. simpl. lia.
Defined.

(** * Part III: further properties of the code *)

(** ** More on the advantage estimator *)

Section GAEMore.

Variables gamma gae_lambda : R.

Local Abbreviation gae_rows := (GAE.gae_rows gamma gae_lambda).

(** The entries of the two tensors the estimator returns, in terms of the
    masked inputs. *)
Lemma gae_targets_get B L V Rw M b t :
  has_shape B L V = true -> has_shape B L Rw = true ->
  has_shape B L M = true -> (b < B)%nat -> (t < L)%nat ->
  let A := gae_rows (masked V M) (masked Rw M) in
  let v i := get 0 V b i * b2r (get false M b i) in
  let r i := get 0 Rw b i * b2r (get false M b i) in
  get 0 A b t = (r t + gamma * v (S t) - v t)
                + gamma * gae_lambda * get 0 A b (S t)
  /\ get 0 (sum2 A (masked V M)) b t = get 0 A b t + v t
  /\ get 0 A b L = 0 /\ v L = 0
  /\ get 0 (sum2 A (masked V M)) b L = 0.
Proof.
  intros HV HR HM Hb Ht A v r.
  pose proof (masked_shape _ _ _ _ HV HM) as HV'.
  pose proof (masked_shape _ _ _ _ HR HM) as HR'.
  pose proof (gae_rows_shape gamma gae_lambda _ _ _ _ HV' HR') as HA.
  fold A in HA.
  assert (Hv : forall i, get 0 (masked V M) b i = v i)
    by (intros i; now apply (masked_get_any B L)).
  assert (Hr : forall i, get 0 (masked Rw M) b i = r i)
    by (intros i; now apply (masked_get_any B L)).
  split; [|split; [|split; [|split]]].
  - unfold A. rewrite !(gae_rows_get gamma gae_lambda B L) by assumption.
    rewrite gae_row_nth.
    + fold (get 0 (masked Rw M) b t). fold (get 0 (masked V M) b (S t)).
      fold (get 0 (masked V M) b t). now rewrite Hr, !Hv.
    + now rewrite !(has_shape_row B L _ b).
    + now rewrite (has_shape_row B L _ b).
  - rewrite (sum2_get B L) by assumption. now rewrite Hv.
  - unfold get. apply nth_overflow. rewrite (has_shape_row B L _ b); auto.
  - rewrite <- Hv. unfold get. apply nth_overflow.
    rewrite (has_shape_row B L _ b); auto.
  - unfold get. apply nth_overflow.
    rewrite (has_shape_row B L _ b); auto using sum2_shape.
Qed.

End GAEMore.

(** X1.  With [gae_lambda = 1] the returns are the discounted sums of the
    masked rewards: the return at an index is the masked reward there plus
    [gamma] times the return one index later (0 past the end), whatever
    the values are. *)
Theorem gae_lambda_one_returns_are_discounted_rewards :
  forall gamma B L V Rw M,
    has_shape B L V = true -> has_shape B L Rw = true ->
    has_shape B L M = true -> (1 <= B)%nat -> (1 <= L)%nat ->
    exists adv ret,
      GAE.get_advantages_and_returns gamma 1 V Rw M 0 = Some (adv, ret)
      /\ forall b t, (b < B)%nat -> (t < L)%nat ->
           get 0 ret b L = 0
           /\ get 0 ret b t
              = get 0 Rw b t * b2r (get false M b t)
                + gamma * get 0 ret b (S t).
Proof.
  intros gamma B L V Rw M HV HR HM HB HL.
  eexists _, _. split;
    [now apply (get_advantages_and_returns_rows _ _ B L)|].
  intros b t Hb Ht.
  destruct (gae_targets_get gamma 1 B L V Rw M b t HV HR HM Hb Ht)
    as (HA & HRt & HAL & HvL & HRL).
  split; [exact HRL|]. rewrite HRt, HA.
  destruct (Nat.eq_dec (S t) L) as [->|Hne].
  - rewrite HAL, HRL, HvL. lra.
  - destruct (gae_targets_get gamma 1 B L V Rw M b (S t) HV HR HM Hb
                ltac:(lia)) as (_ & HRt' & _).
    rewrite HRt'. lra.
Qed.

Lemma gae_lambda_one_returns_are_discounted_rewards_witness :
  exists adv ret,
    GAE.get_advantages_and_returns (1 / 2) 1
      [[10; 20]] [[3; 4]] [[true; true]] 0 = Some (adv, ret)
    /\ get 0 ret 0 0 = 3 * 1 + (1 / 2) * get 0 ret 0 1.
Proof.
  destruct (gae_lambda_one_returns_are_discounted_rewards (1 / 2) 1%nat 2%nat
              [[10; 20]] [[3; 4]] [[true; true]]
              eq_refl eq_refl eq_refl (le_n 1) (le_S _ _ (le_n 1)))
    as (adv & ret & Hrun & Hrec).
  exists adv, ret. split; [exact Hrun|].
  exact (proj2 (Hrec 0%nat 0%nat (le_n 1) (le_S _ _ (le_n 1)))).
Defined.

(** X2.  The start offset only cuts the result: for a start inside the
    tensors, the advantages and returns are those computed from start 0
    with the first [start] columns dropped. *)
Theorem gae_start_drops_columns :
  forall gamma gae_lambda B L V Rw M start,
    has_shape B L V = true -> has_shape B L Rw = true ->
    has_shape B L M = true -> (1 <= B)%nat -> (start < L)%nat ->
    exists adv ret,
      GAE.get_advantages_and_returns gamma gae_lambda V Rw M 0
      = Some (adv, ret)
      /\ GAE.get_advantages_and_returns gamma gae_lambda V Rw M start
         = Some (map (skipn start) adv, map (skipn start) ret).
Proof.
  intros gamma gae_lambda B L V Rw M s HV HR HM HB Hs.
  eexists _, _. split.
  - apply (get_advantages_and_returns_rows _ _ B L); auto. lia.
  - now apply (get_advantages_and_returns_rows_from _ _ B L).
Qed.

Lemma gae_start_drops_columns_witness :
  exists adv ret,
    GAE.get_advantages_and_returns (1 / 2) (1 / 4)
      [[1; 2; 3]] [[4; 5; 6]] [[true; true; true]] 0 = Some (adv, ret)
    /\ GAE.get_advantages_and_returns (1 / 2) (1 / 4)
         [[1; 2; 3]] [[4; 5; 6]] [[true; true; true]] 2
       = Some (map (skipn 2) adv, map (skipn 2) ret).
Proof.
  exact (gae_start_drops_columns (1 / 2) (1 / 4) 1%nat 3%nat
           [[1; 2; 3]] [[4; 5; 6]] [[true; true; true]] 2%nat
           eq_refl eq_refl eq_refl (le_n 1) (le_n 3)).
Defined.

(** X3.  A start at or past the width of the tensors (in particular any
    start on tensors of width 0) leaves nothing to stack, and the
    estimator raises. *)
Theorem gae_start_past_width_raises :
  forall gamma gae_lambda B L V Rw M start,
    has_shape B L Rw = true -> has_shape B L M = true ->
    (1 <= B)%nat -> (L <= start)%nat ->
    GAE.get_advantages_and_returns gamma gae_lambda V Rw M start = None.
Proof.
  intros gamma gae_lambda B L V Rw M s HR HM HB Hs.
  unfold GAE.get_advantages_and_returns.
  destruct (mul_mask V M) as [values|]; [|reflexivity].
  rewrite (mul_mask_same B L Rw M) by assumption.
  rewrite (has_shape_size_last B L)
    by (auto using masked_shape).
  replace (L - s)%nat with 0%nat by lia. reflexivity.
Qed.

Lemma gae_start_past_width_raises_witness :
  GAE.get_advantages_and_returns (1 / 2) (1 / 4) [[1; 2]] [[3; 4]]
    [[true; true]] 2 = None.
Proof.
  exact (gae_start_past_width_raises (1 / 2) (1 / 4) 1%nat 2%nat
           [[1; 2]] [[3; 4]] [[true; true]] 2%nat
           eq_refl eq_refl (le_n 1) (le_n 2)).
Defined.

(** ** More on the KL shaping *)

Lemma clamp_bounds lo hi x : lo <= hi -> lo <= clamp lo hi x <= hi.
Proof.
  intros H. unfold clamp. split.
  - apply Rmin_glb; [apply Rmax_r | exact H].
  - apply Rmin_r.
Qed.

Lemma clamp_score_bounds c X b t :
  0 <= c -> - c <= get 0 (Shaping.clamp_score c X) b t <= c.
Proof.
  intros Hc. unfold get, Shaping.clamp_score. rewrite map_map_row.
  destruct (Nat.lt_ge_cases t (List.length (nth b X []))) as [Ht|Ht].
  - rewrite (nth_map_in _ _ t 0) by assumption. apply clamp_bounds. lra.
  - rewrite nth_overflow by now rewrite length_map. lra.
Qed.

(** X4.  With a non-negative [clip_range_score], every entry of both
    streams that [add_kl_divergence_regularization_with_cost] returns lies
    between [-clip_range_score] and [clip_range_score], whatever the
    scalar rewards and costs are. *)
Theorem kl_streams_within_clip_range :
  forall kl_coeff clip_range_score reward cost log_probs ref_log_probs M,
    0 <= clip_range_score ->
    match Shaping.add_kl_divergence_regularization_with_cost kl_coeff
            clip_range_score reward cost log_probs ref_log_probs M with
    | Some (rewards, costs) =>
        forall b t,
          - clip_range_score <= get 0 rewards b t <= clip_range_score
          /\ - clip_range_score <= get 0 costs b t <= clip_range_score
    | None => True
    end.
Proof.
  intros k c reward cost lp rlp M Hc.
  unfold Shaping.add_kl_divergence_regularization_with_cost.
  destruct (Shaping.scattered_streams _ _ _ _ _ _) as [[rewards costs]|];
    [|exact I].
  intros b t. split; now apply clamp_score_bounds.
Qed.

Lemma kl_streams_within_clip_range_witness :
  match Shaping.add_kl_divergence_regularization_with_cost (1 / 10) 5
          [100] [-100] [[1; 2]] [[0; 1]] [[true; true]] with
  | Some (rewards, costs) =>
      forall b t,
        - (5) <= get 0 rewards b t <= 5 /\ - (5) <= get 0 costs b t <= 5
  | None => True
  end.
Proof.
  apply (kl_streams_within_clip_range (1 / 10) 5 [100] [-100]
           [[1; 2]] [[0; 1]] [[true; true]]).
  lra.
Defined.

Lemma end_index_valid B L (M : list (list bool)) :
  has_shape B L M = true -> (1 <= B)%nat ->
  forallb (existsb (fun m => m)) M = true ->
  exists es, Shaping.end_index M = Some es /\ List.length es = B
    /\ forall b, (b < B)%nat ->
         (nth b es 0 < L)%nat /\ get false M b (nth b es 0%nat) = true
         /\ forall t, (nth b es 0 < t)%nat -> get false M b t = false.
Proof.
  intros HM HB Hvalid.
  pose proof (has_shape_length _ _ _ HM) as LM.
  destruct (last_indices_some M Hvalid) as (es & Hes & Hlen & Hnth).
  exists es. split; [|split; [lia|]].
  - unfold Shaping.end_index. destruct M; simpl in *; [lia | exact Hes].
  - intros b Hb.
    assert (Hrow : existsb (fun m => m) (nth b M []) = true).
    { rewrite forallb_forall in Hvalid. apply Hvalid, nth_In. lia. }
    destruct (nonzero_last _ Hrow) as (e & He & Hlt & Hte & Hafter).
    rewrite Hnth in He by lia. injection He as <-.
    rewrite (has_shape_row B L M b) in Hlt by assumption.
    repeat split; auto.
Qed.

Lemma scattered_streams_entries k B L reward cost lp rlp M es :
  has_shape B L lp = true -> has_shape B L rlp = true ->
  List.length reward = B -> List.length cost = B ->
  Shaping.end_index M = Some es -> List.length es = B ->
  (forall b, (b < B)%nat -> (nth b es 0 < L)%nat) ->
  exists rewards costs,
    Shaping.scatter_add (kl_penalty k lp rlp) es reward
    = Some rewards
    /\ Shaping.scattered_streams k reward cost lp rlp M
       = Some (rewards, costs)
    /\ forall b t, (b < B)%nat -> (t < L)%nat ->
         get 0 rewards b t
         = - k * (get 0 lp b t - get 0 rlp b t)
           + (if (t =? nth b es 0)%nat then nth b reward 0 else 0)
         /\ get 0 costs b t
            = k * (get 0 lp b t - get 0 rlp b t)
              + (if (t =? nth b es 0)%nat then nth b cost 0 else 0).
Proof.
  intros Hlp Hrlp Hrew Hcost Hend Hlen Hlt.
  set (klp := kl_penalty k lp rlp).
  assert (Hklp : has_shape B L klp = true).
  { now apply map_map_shape, map2_map2_shape. }
  pose proof (map_map_shape Ropp _ _ _ Hklp) as Hnklp.
  destruct (scatter_add_some klp es reward) as (rewards & Hsr & Hlr & Hrr).
  { rewrite (has_shape_length _ _ _ Hklp); lia. }
  { now rewrite (has_shape_length _ _ _ Hklp). }
  { intros b Hb. rewrite (has_shape_length _ _ _ Hklp) in Hb.
    rewrite (has_shape_row B L klp b) by assumption. now apply Hlt. }
  destruct (scatter_add_some (map (map Ropp) klp) es cost)
    as (costs & Hsc & Hlc & Hrc).
  { rewrite (has_shape_length _ _ _ Hnklp); lia. }
  { now rewrite (has_shape_length _ _ _ Hnklp). }
  { intros b Hb. rewrite (has_shape_length _ _ _ Hnklp) in Hb.
    rewrite (has_shape_row B L _ b) by assumption. now apply Hlt. }
  rewrite (has_shape_length _ _ _ Hklp) in Hrr.
  rewrite (has_shape_length _ _ _ Hnklp) in Hrc.
  exists rewards, costs. split; [exact Hsr|]. split.
  { unfold Shaping.scattered_streams.
    rewrite Hend, (kl_penalty_rewards_same k B L) by assumption. fold klp.
    now rewrite Hsr, Hsc. }
  intros b t Hb Ht.
  assert (Hkl : get 0 klp b t = - k * (get 0 lp b t - get 0 rlp b t)).
  { unfold klp.
    rewrite (map_map_get _ B L _ b t 0) by (auto using map2_map2_shape).
    now rewrite (map2_map2_get _ B L _ _ b t 0 0). }
  split.
  - unfold get. rewrite Hrr by assumption.
    rewrite add_at_nth
      by (rewrite (has_shape_row B L klp b) by assumption; now apply Hlt).
    fold (get 0 klp b t). now rewrite Hkl.
  - unfold get. rewrite Hrc by assumption.
    rewrite add_at_nth
      by (rewrite (has_shape_row B L _ b) by assumption; now apply Hlt).
    fold (get 0 (map (map Ropp) klp) b t).
    rewrite (map_map_get _ B L _ b t 0) by assumption.
    rewrite Hkl. unfold get. lra.
Qed.

(** X5.  The KL penalties of the two streams cancel: before the clamp,
    the reward stream plus the cost stream is the scalar reward plus the
    scalar cost at the last valid index of the trajectory and 0 at every
    other position. *)
Theorem kl_penalty_cancels_between_streams :
  forall kl_coeff B L reward cost log_probs ref_log_probs M,
    has_shape B L log_probs = true -> has_shape B L ref_log_probs = true ->
    has_shape B L M = true ->
    List.length reward = B -> List.length cost = B -> (1 <= B)%nat ->
    forallb (existsb (fun m => m)) M = true ->
    exists es rewards costs,
      Shaping.end_index M = Some es
      /\ Shaping.scattered_streams kl_coeff reward cost log_probs
           ref_log_probs M = Some (rewards, costs)
      /\ forall b t, (b < B)%nat -> (t < L)%nat ->
           get 0 rewards b t + get 0 costs b t
           = if (t =? nth b es 0)%nat
             then nth b reward 0 + nth b cost 0 else 0.
Proof.
  intros k B L reward cost lp rlp M Hlp Hrlp HM Hrew Hcost HB Hvalid.
  destruct (end_index_valid B L M HM HB Hvalid) as (es & Hend & Hlen & Hes).
  destruct (scattered_streams_entries k B L reward cost lp rlp M es
              Hlp Hrlp Hrew Hcost Hend Hlen)
    as (rewards & costs & _ & Hstreams & Hentries).
  { intros b Hb. now apply Hes. }
  exists es, rewards, costs. split; [exact Hend|]. split; [exact Hstreams|].
  intros b t Hb Ht. destruct (Hentries b t Hb Ht) as [-> ->].
  destruct (t =? nth b es 0)%nat; lra.
Qed.

Lemma kl_penalty_cancels_between_streams_witness :
  exists es rewards costs,
    Shaping.end_index [[true; true; false]] = Some es
    /\ Shaping.scattered_streams (1 / 10) [5] [2]
         [[1; 2; 3]] [[0; 1; 1]] [[true; true; false]]
       = Some (rewards, costs)
    /\ get 0 rewards 0 0 + get 0 costs 0 0
       = if (0 =? nth 0 es 0)%nat then nth 0 [5] 0 + nth 0 [2] 0 else 0.
Proof.
  destruct (kl_penalty_cancels_between_streams (1 / 10) 1%nat 3%nat [5] [2]
              [[1; 2; 3]] [[0; 1; 1]] [[true; true; false]]
              eq_refl eq_refl eq_refl eq_refl eq_refl (le_n 1) eq_refl)
    as (es & rewards & costs & Hend & Hstreams & Hsum).
  exists es, rewards, costs. split; [exact Hend|]. split; [exact Hstreams|].
  exact (Hsum 0%nat 0%nat (le_n 1) (le_S _ _ (le_S _ _ (le_n 1)))).
Defined.

(** X6.  On a mask whose rows all end in a valid position (as the
    all-true mask of [rl_step] does), the reward stream of
    [add_kl_divergence_regularization_with_cost] is what
    [add_kl_divergence_regularization], with its fixed end index [L - 1],
    returns. *)
Theorem kl_fixed_end_index_agrees :
  forall kl_coeff clip_range_score B L reward cost log_probs ref_log_probs M,
    has_shape B L log_probs = true -> has_shape B L ref_log_probs = true ->
    has_shape B L M = true ->
    List.length reward = B -> List.length cost = B ->
    (1 <= B)%nat -> (1 <= L)%nat ->
    forallb (fun m => nth (L - 1) m false) M = true ->
    exists rewards costs,
      Shaping.add_kl_divergence_regularization_with_cost kl_coeff
        clip_range_score reward cost log_probs ref_log_probs M
      = Some (rewards, costs)
      /\ ShapingFixed.add_kl_divergence_regularization kl_coeff
           clip_range_score reward log_probs ref_log_probs M
         = Some rewards.
Proof.
  intros k c B L reward cost lp rlp M Hlp Hrlp HM Hrew Hcost HB HL Hlast.
  pose proof (has_shape_length _ _ _ HM) as LM.
  assert (Hrowlast : forall b, (b < B)%nat -> get false M b (L - 1) = true).
  { intros b Hb. rewrite forallb_forall in Hlast.
    apply (Hlast (nth b M [])), nth_In. lia. }
  assert (Hvalid : forallb (existsb (fun m => m)) M = true).
  { apply forallb_forall. intros m Hm. apply existsb_exists.
    exists true. split; auto.
    rewrite forallb_forall in Hlast. rewrite <- (Hlast m Hm).
    apply nth_In.
    pose proof (has_shape_rows _ _ _ HM) as Hr. rewrite Forall_forall in Hr.
    rewrite (Hr m Hm). lia. }
  destruct (end_index_valid B L M HM HB Hvalid) as (es & Hend & Hlen & Hes).
  assert (Hrep : es = repeat (L - 1)%nat B).
  { apply (nth_ext _ _ 0%nat 0%nat).
    - now rewrite repeat_length.
    - intros b Hb. rewrite Hlen in Hb. rewrite nth_repeat_lt by assumption.
      destruct (Hes b Hb) as (Hlt & _ & Hafter).
      destruct (Nat.eq_dec (nth b es 0%nat) (L - 1)) as [|Hne]; auto.
      specialize (Hrowlast b Hb).
      rewrite Hafter in Hrowlast by lia. discriminate. }
  destruct (scattered_streams_entries k B L reward cost lp rlp M es
              Hlp Hrlp Hrew Hcost Hend Hlen)
    as (rewards & costs & Hsr & Hstreams & _).
  { intros b Hb. now apply Hes. }
  eexists _, _. split.
  - unfold Shaping.add_kl_divergence_regularization_with_cost.
    rewrite Hstreams. reflexivity.
  - unfold ShapingFixed.add_kl_divergence_regularization,
      ShapingFixed.end_index.
    rewrite (has_shape_length _ _ _ Hlp), (has_shape_size_last B L)
      by assumption.
    destruct (Nat.eqb_spec B 0); [lia|].
    destruct (Nat.eqb_spec L 0); [lia|].
    rewrite (kl_penalty_rewards_same k B L) by assumption.
    rewrite <- Hrep, Hsr. reflexivity.
Qed.

Lemma kl_fixed_end_index_agrees_witness :
  exists rewards costs,
    Shaping.add_kl_divergence_regularization_with_cost (1 / 10) 5
      [5] [2] [[1; 2; 3]] [[0; 1; 1]] [[true; false; true]]
    = Some (rewards, costs)
    /\ ShapingFixed.add_kl_divergence_regularization (1 / 10) 5
         [5] [[1; 2; 3]] [[0; 1; 1]] [[true; false; true]]
       = Some rewards.
Proof.
  exact (kl_fixed_end_index_agrees (1 / 10) 5 1%nat 3%nat [5] [2]
           [[1; 2; 3]] [[0; 1; 1]] [[true; false; true]]
           eq_refl eq_refl eq_refl eq_refl eq_refl (le_n 1)
           (le_S _ _ (le_S _ _ (le_n 1))) eq_refl).
Defined.

(** ** More on the Lagrange multiplier *)

Lemma lambda_grad_bound c tau x : Rabs (Lagrange.lambda_grad c tau x) <= 1000000.
Proof.
  unfold Lagrange.lambda_grad.
  destruct (Rle_dec _ _) as [Hlo|_];
    [destruct (Rle_dec _ _) as [Hhi|_]|].
  - unfold Lagrange.lambda_loss_unclamped in *. apply Rabs_le. lra.
  - rewrite Rabs_R0. lra.
  - rewrite Rabs_R0. lra.
Qed.

(** X7.  One optimizer step moves [log_lambda] by at most the learning
    rate times 1e6, however far the mean cost is from the threshold: the
    gradient that reaches it is the unclamped loss itself where that lies
    in the clamp range, and 0 elsewhere. *)
Theorem lagrange_step_is_bounded :
  forall lr episode_cost threshold log_lambda,
    Rabs (Lagrange.optimizer_step lr episode_cost threshold log_lambda
          - log_lambda)
    <= Rabs lr * 1000000.
Proof.
  intros lr c tau x. unfold Lagrange.optimizer_step, Lagrange.sgd_step.
  replace (x - lr * Lagrange.lambda_grad c tau x - x)
    with (- (lr * Lagrange.lambda_grad c tau x)) by lra.
  rewrite Rabs_Ropp, Rabs_mult.
  apply Rmult_le_compat_l; [apply Rabs_pos | apply lambda_grad_bound].
Qed.

Lemma update_keeps_settings m g tau costs st :
  Lagrange.log_lambda_max (Lagrange.update m g tau costs st)
  = Lagrange.log_lambda_max st
  /\ Lagrange.lambda_lr (Lagrange.update m g tau costs st)
     = Lagrange.lambda_lr st
  /\ Lagrange.lambda_update_delay_steps (Lagrange.update m g tau costs st)
     = Lagrange.lambda_update_delay_steps st.
Proof.
  unfold Lagrange.update. destruct (_ && _); simpl; auto.
Qed.

Lemma update_below_max m g tau costs st bound :
  Lagrange.log_lambda_max st = Some bound ->
  Lagrange.log_lambda st <= bound ->
  Lagrange.log_lambda (Lagrange.update m g tau costs st) <= bound.
Proof.
  intros Hmax Hle. unfold Lagrange.update. destruct (_ && _); simpl; auto.
  rewrite Hmax. simpl. apply Rmin_r.
Qed.

(** X8.  The upper bound is kept through a whole run: from a controller
    initialised with [0 < lambda_init <= lambda_max], after any sequence
    of [rl_step] calls (on any process, before or after the delay) the
    multiplier [exp log_lambda] is at most [lambda_max], and the bound,
    the learning rate and the delay are what they were. *)
Theorem multiplier_stays_below_lambda_max :
  forall lambda_init lambda_max lr delay threshold calls,
    0 < lambda_init -> lambda_init <= lambda_max ->
    let st := Steps.run calls
                (Lagrange.init lambda_init (Some lambda_max) lr delay threshold) in
    Updater.multiplier (Lagrange.log_lambda st) <= lambda_max
    /\ Lagrange.log_lambda_max st = Some (ln lambda_max)
    /\ Lagrange.lambda_lr st = lr
    /\ Lagrange.lambda_update_delay_steps st = delay.
Proof.
  intros li lm lr delay tau calls Hpos Hle.
  assert (Hlm : 0 < lm) by lra.
  assert (Hinv : forall st,
            Lagrange.log_lambda_max st = Some (ln lm) ->
            Lagrange.log_lambda st <= ln lm ->
            Lagrange.log_lambda (Steps.run calls st) <= ln lm
            /\ Lagrange.log_lambda_max (Steps.run calls st) = Some (ln lm)
            /\ Lagrange.lambda_lr (Steps.run calls st) = Lagrange.lambda_lr st
            /\ Lagrange.lambda_update_delay_steps (Steps.run calls st)
               = Lagrange.lambda_update_delay_steps st).
  { unfold Steps.run. induction calls as [|c calls IH]; intros st Hmax Hb;
      simpl; auto.
    destruct (update_keeps_settings (Steps.is_main_process c)
                (Steps.global_step c) (Steps.cfg_threshold c)
                (Steps.episode_costs c) st) as (Hm & Hl & Hd).
    destruct (IH (Lagrange.update (Steps.is_main_process c)
                    (Steps.global_step c) (Steps.cfg_threshold c)
                    (Steps.episode_costs c) st)) as (H1 & H2 & H3 & H4).
    - now rewrite Hm.
    - now apply update_below_max.
    - rewrite H3, H4, Hl, Hd. auto. }
  intros st.
  destruct (Hinv (Lagrange.init li (Some lm) lr delay tau))
    as (H1 & H2 & H3 & H4).
  - simpl. destruct (Req_dec_T lm 0); [lra | reflexivity].
  - simpl. destruct (Rle_lt_or_eq_dec _ _ Hle) as [Hlt| ->]; [|lra].
    left. now apply ln_increasing.
  - fold st in H1, H2, H3, H4. repeat split; auto.
    unfold Updater.multiplier.
    apply Rle_trans with (exp (ln lm)); [|rewrite exp_ln by assumption; lra].
    destruct H1 as [Hlt| ->]; [left; now apply exp_increasing | lra].
Qed.

Lemma multiplier_stays_below_lambda_max_witness :
  Updater.multiplier
    (Lagrange.log_lambda
       (Steps.run
          [ {| Steps.is_main_process := true; Steps.global_step := 0;
               Steps.cfg_threshold := 0; Steps.episode_costs := [3; 5] |};
            {| Steps.is_main_process := true; Steps.global_step := 1;
               Steps.cfg_threshold := 0; Steps.episode_costs := [3; 5; 7] |} ]
          (Lagrange.init 1 (Some 20) (1 / 10) 0 0)))
  <= 20.
Proof.
  match goal with
  | |- Updater.multiplier (Lagrange.log_lambda (Steps.run ?calls _)) <= _ =>
      destruct (multiplier_stays_below_lambda_max 1 20 (1 / 10) 0%nat 0 calls)
        as (H & _)
  end; [lra | lra | exact H].
Defined.

(** ** What [rl_step] logs about lengths *)

Lemma sequence_mask_all_true tb B W Wr Wc :
  has_shape B W (Trainer.response_mask tb) = true ->
  has_shape B Wr (Trainer.reward_values tb) = true ->
  has_shape B Wc (Trainer.cost_values tb) = true ->
  (1 <= B)%nat ->
  Trainer.new_size tb = Nat.min W (Nat.min Wr Wc)
  /\ Trainer.sequence_mask tb
     = repeat (repeat true (Nat.min W (Nat.min Wr Wc))) B.
Proof.
  intros HM HR HC HB.
  assert (Hn : Trainer.new_size tb = Nat.min W (Nat.min Wr Wc)).
  { unfold Trainer.new_size.
    rewrite (has_shape_size_last B W) by (auto using ones_like_shape).
    now rewrite (has_shape_size_last B Wr), (has_shape_size_last B Wc). }
  split; [exact Hn|].
  unfold Trainer.sequence_mask. rewrite Hn.
  apply (truncate_ones_like B W); auto. lia.
Qed.

Lemma row_sum_all_true n :
  fold_right Rplus 0 (map b2r (repeat true n)) = INR n.
Proof.
  induction n as [|n IH]; [reflexivity|].
  cbn [repeat map fold_right]. rewrite IH, S_INR. simpl. lra.
Qed.

Lemma sum_repeat x n : fold_right Rplus 0 (repeat x n) = INR n * x.
Proof.
  induction n as [|n IH]; [simpl; lra|].
  cbn [repeat fold_right]. rewrite IH, S_INR. lra.
Qed.

Lemma fold_max_repeat x n : fold_left Rmax (repeat x n) x = x.
Proof.
  induction n as [|n IH]; [reflexivity|].
  simpl. rewrite Rmax_left by lra. exact IH.
Qed.

(** X9.  The lengths [rl_step] logs say nothing about the responses: on a
    batch of at least one trajectory both [mean_generated_length] and
    [max_generated_length] are [new_size], the least width of the response
    mask and the two value tensors, whatever the response mask holds. *)
Theorem logged_generated_lengths_are_new_size :
  forall tb B W Wr Wc,
    has_shape B W (Trainer.response_mask tb) = true ->
    has_shape B Wr (Trainer.reward_values tb) = true ->
    has_shape B Wc (Trainer.cost_values tb) = true ->
    (1 <= B)%nat ->
    Steps.mean_generated_length tb = INR (Trainer.new_size tb)
    /\ Steps.max_generated_length tb = Some (INR (Trainer.new_size tb))
    /\ Trainer.new_size tb = Nat.min W (Nat.min Wr Wc).
Proof.
  intros tb B W Wr Wc HM HR HC HB.
  destruct (sequence_mask_all_true tb B W Wr Wc HM HR HC HB) as [Hn Hmask].
  unfold Steps.mean_generated_length, Steps.max_generated_length,
    Steps.mask_row_sums.
  rewrite Hmask, Hn, map_repeat, row_sum_all_true.
  split; [|split; [|reflexivity]].
  - unfold Lagrange.mean. rewrite sum_repeat, repeat_length.
    field. apply not_0_INR. lia.
  - destruct B as [|B]; [lia|]. simpl. now rewrite fold_max_repeat.
Qed.

Lemma logged_generated_lengths_are_new_size_witness :
  Steps.mean_generated_length
    {| Trainer.response_lens := [1; 3]%nat;
       Trainer.log_probs := [[1; 0; 0]; [1; 2; 3]];
       Trainer.ref_log_probs := [[1; 0; 0]; [1; 1; 1]];
       Trainer.reward := [5; 7];
       Trainer.reward_values := [[1; 0; 0]; [3; 4; 5]];
       Trainer.cost := [1; 2];
       Trainer.cost_values := [[1; 0; 0]; [3; 4; 5]];
       Trainer.response_mask :=
         [[true; false; false; false]; [true; true; true; false]] |}
  = INR 3.
Proof.
  match goal with
  | |- Steps.mean_generated_length ?tb = _ =>
      destruct (logged_generated_lengths_are_new_size tb 2%nat 4%nat 3%nat
                  3%nat eq_refl eq_refl eq_refl (le_S _ _ (le_n 1)))
        as (Hmean & _ & Hn)
  end.
  rewrite Hmean, Hn. reflexivity.
Defined.

(** ** More on the policy loss *)

Lemma tensor_ext B L (X Y : list (list R)) :
  has_shape B L X = true -> has_shape B L Y = true ->
  (forall b t, (b < B)%nat -> (t < L)%nat -> get 0 X b t = get 0 Y b t) ->
  X = Y.
Proof.
  intros HX HY Hget.
  apply (nth_ext _ _ [] []).
  - now rewrite (has_shape_length _ _ _ HX), (has_shape_length _ _ _ HY).
  - intros b Hb. rewrite (has_shape_length _ _ _ HX) in Hb.
    apply (nth_ext _ _ 0 0).
    + now rewrite !(has_shape_row B L _ b).
    + intros t Ht. rewrite (has_shape_row B L _ b) in Ht by assumption.
      now apply Hget.
Qed.

(** X10.  The clipped surrogate is a lower bound of the unclipped one:
    on tensors of one size the surrogate is computed, and every entry of
    it is at most the blended advantage times the probability ratio
    [exp (log_probs - old_log_probs)]. *)
Theorem clipped_surrogate_is_lower_bound :
  forall clip_range_ratio log_lambda B L log_probs old_log_probs RA CA b t,
    has_shape B L log_probs = true -> has_shape B L old_log_probs = true ->
    has_shape B L RA = true -> has_shape B L CA = true ->
    (b < B)%nat -> (t < L)%nat ->
    exists advantages surrogate,
      Updater.advantages log_lambda RA CA = Some advantages
      /\ Updater.surrogate clip_range_ratio log_lambda log_probs
           old_log_probs RA CA = Some surrogate
      /\ get 0 surrogate b t
         <= get 0 advantages b t
            * exp (get 0 log_probs b t - get 0 old_log_probs b t).
Proof.
  intros eps x B L lp olp RA CA b t Hlp Holp HRA HCA Hb Ht.
  eexists _, _.
  split; [now apply (advantages_same x B L)|].
  split; [now apply (surrogate_same eps x B L)|].
  rewrite (surrogate_get eps x B L lp olp RA CA Hlp Holp HRA HCA b t Hb Ht).
  apply Rmin_l.
Qed.

Lemma clipped_surrogate_is_lower_bound_witness :
  exists advantages surrogate,
    Updater.advantages 0 [[3; 1]] [[1; 2]] = Some advantages
    /\ Updater.surrogate (1 / 5) 0 [[1; 2]] [[0; 2]] [[3; 1]] [[1; 2]]
       = Some surrogate
    /\ get 0 surrogate 0 0
       <= get 0 advantages 0 0 * exp (get 0 [[1; 2]] 0 0 - get 0 [[0; 2]] 0 0).
Proof.
  exact (clipped_surrogate_is_lower_bound (1 / 5) 0 1%nat 2%nat
           [[1; 2]] [[0; 2]] [[3; 1]] [[1; 2]] 0%nat 0%nat
           eq_refl eq_refl eq_refl eq_refl (le_n 1) (le_S _ _ (le_n 1))).
Defined.

(** X11.  With unchanged log-probabilities and a non-negative clip range
    the ratio is 1 everywhere and nothing is clipped: on tensors of one
    size the surrogate is the blended advantage tensor itself, and the
    loss is minus the masked mean of the blended advantages. *)
Theorem on_policy_loss_is_minus_mean_advantage :
  forall clip_range_ratio masked_mean log_lambda B L log_probs RA CA mask,
    0 <= clip_range_ratio ->
    has_shape B L log_probs = true ->
    has_shape B L RA = true -> has_shape B L CA = true ->
    exists advantages,
      Updater.advantages log_lambda RA CA = Some advantages
      /\ Updater.surrogate clip_range_ratio log_lambda log_probs log_probs
           RA CA = Some advantages
      /\ Updater.actor_loss_fn_with_cost clip_range_ratio masked_mean
           log_lambda log_probs log_probs RA CA mask
         = Some (- masked_mean advantages mask).
Proof.
  intros eps mm x B L lp RA CA mask Heps Hlp HRA HCA.
  assert (Hs : clipped eps x lp lp RA CA = blended x RA CA).
  { apply (tensor_ext B L).
    - now apply surrogate_shape.
    - now apply advantages_shape.
    - intros b t Hb Ht.
      rewrite (surrogate_get eps x B L lp lp RA CA Hlp Hlp HRA HCA b t Hb Ht).
      rewrite Rminus_diag, exp_0.
      unfold clamp. rewrite Rmax_left by lra. rewrite (Rmin_left 1) by lra.
      rewrite Rmult_1_r. apply Rmin_left. lra. }
  eexists. split; [now apply (advantages_same x B L)|].
  assert (Hsur : Updater.surrogate eps x lp lp RA CA
                 = Some (blended x RA CA))
    by (rewrite (surrogate_same eps x B L) by assumption; now rewrite Hs).
  split; [exact Hsur|].
  unfold Updater.actor_loss_fn_with_cost. now rewrite Hsur.
Qed.

Lemma on_policy_loss_is_minus_mean_advantage_witness :
  exists advantages,
    Updater.advantages 0 [[3; 1]] [[1; 2]] = Some advantages
    /\ Updater.surrogate (1 / 5) 0 [[1; 2]] [[1; 2]] [[3; 1]] [[1; 2]]
       = Some advantages.
Proof.
  destruct (on_policy_loss_is_minus_mean_advantage (1 / 5)
              (fun _ _ => 0) 0 1%nat 2%nat [[1; 2]] [[3; 1]] [[1; 2]]
              [[true; true]] ltac:(lra) eq_refl eq_refl eq_refl)
    as (advantages & Ha & Hs & _).
  exists advantages. split; [exact Ha | exact Hs].
Defined.

(** X12.  For a non-negative multiplier the blended advantage lies between
    the reward advantage and minus the cost advantage: it is their
    weighted mean with weights [1 / (1 + m)] and [m / (1 + m)], so it
    does not grow with the multiplier. *)
Theorem blend_between_reward_and_minus_cost :
  forall m ra ca,
    0 <= m ->
    Updater.blend m ra ca = (1 / (1 + m)) * ra + (m / (1 + m)) * (- ca)
    /\ Rmin ra (- ca) <= Updater.blend m ra ca <= Rmax ra (- ca).
Proof.
  intros m ra ca Hm.
  assert (Hpos : 0 < 1 + m) by lra.
  assert (Heq : Updater.blend m ra ca
                = (1 / (1 + m)) * ra + (m / (1 + m)) * (- ca)).
  { unfold Updater.blend. field. lra. }
  split; [exact Heq|].
  assert (Hw1 : 0 <= 1 / (1 + m))
    by (apply Rlt_le, Rdiv_lt_0_compat; lra).
  assert (Hw2 : 0 <= m / (1 + m)).
  { unfold Rdiv. apply Rmult_le_pos; [lra|].
    apply Rlt_le, Rinv_0_lt_compat; lra. }
  assert (Hsum : 1 / (1 + m) + m / (1 + m) = 1) by (field; lra).
  rewrite Heq.
  set (w1 := 1 / (1 + m)) in *. set (w2 := m / (1 + m)) in *.
  assert (Hw : w2 = 1 - w1) by lra. rewrite Hw in *. clear Hw.
  pose proof (Rmin_l ra (- ca)) as H1. pose proof (Rmin_r ra (- ca)) as H2.
  pose proof (Rmax_l ra (- ca)) as H3. pose proof (Rmax_r ra (- ca)) as H4.
  set (lo := Rmin ra (- ca)) in *. set (hi := Rmax ra (- ca)) in *.
  assert (P1 : 0 <= w1 * (ra - lo)) by (apply Rmult_le_pos; lra).
  assert (P2 : 0 <= (1 - w1) * (- ca - lo)) by (apply Rmult_le_pos; lra).
  assert (P3 : 0 <= w1 * (hi - ra)) by (apply Rmult_le_pos; lra).
  assert (P4 : 0 <= (1 - w1) * (hi - - ca)) by (apply Rmult_le_pos; lra).
  split; nra.
Qed.

Lemma blend_between_reward_and_minus_cost_witness :
  Rmin 3 (- (1)) <= Updater.blend 2 3 1 <= Rmax 3 (- (1)).
Proof.
  apply (blend_between_reward_and_minus_cost 2 3 1). lra.
Defined.

(** ** Micro-batches and response slices in [rollout] *)

Lemma firstn_then_more {A} m k (x : list A) :
  firstn m x ++ firstn k (skipn m x) = firstn (m + k) x.
Proof.
  revert x; induction m as [|m IH]; intros x; simpl; auto.
  destruct x as [|a x]; simpl.
  - now rewrite firstn_nil.
  - now rewrite IH.
Qed.

Lemma concat_slices {A} m (x : list A) n a :
  List.concat (map (fun i => MicroBatch.slice i m x)
                 (map (fun k => (k * m)%nat) (seq a n)))
  = firstn (n * m) (skipn (a * m) x).
Proof.
  revert a; induction n as [|n IH]; intros a; [reflexivity|].
  cbn [seq map List.concat]. rewrite IH. unfold MicroBatch.slice.
  replace (S a * m)%nat with (m + a * m)%nat by lia.
  rewrite <- (skipn_skipn m (a * m) x).
  replace (S n * m)%nat with (m + n * m)%nat by lia.
  apply firstn_then_more.
Qed.

Lemma ceil_div_covers total m :
  (1 <= m)%nat ->
  (total <= (total + m - 1) / m * m)%nat
  /\ ((1 <= total)%nat -> ((total + m - 1) / m - 1) * m < total)%nat.
Proof.
  intros Hm.
  pose proof (Nat.div_mod_eq (total + m - 1) m) as Hdm.
  pose proof (Nat.mod_upper_bound (total + m - 1) m ltac:(lia)) as Hr.
  set (q := ((total + m - 1) / m)%nat) in *.
  set (r := ((total + m - 1) mod m)%nat) in *.
  rewrite (Nat.mul_comm m q) in Hdm.
  split; [lia|]. intros Ht.
  destruct q as [|q]; [lia|]. simpl in *. rewrite Nat.sub_0_r. lia.
Qed.

(** X13.  The micro-batches of [rollout] (on a batch without
    [image_sizes] and with a micro-batch size of at least 1) partition the
    batch: put back together in order they are the batch, each of them has
    between 1 and [micro_batch_size] rows, and there are
    [ceil(total / micro_batch_size)] of them; a micro-batch size of 0
    raises. *)
Theorem micro_batches_partition_the_batch :
  forall (A : Type) (micro_batch_size : nat) (x : list A),
    (1 <= micro_batch_size)%nat ->
    MicroBatch.micro_batches 0 x = None
    /\ exists mbs,
         MicroBatch.micro_batches micro_batch_size x = Some mbs
         /\ List.concat mbs = x
         /\ List.length mbs
            = ((List.length x + micro_batch_size - 1) / micro_batch_size)%nat
         /\ Forall (fun mb => (1 <= List.length mb <= micro_batch_size)%nat) mbs.
Proof.
  intros A m x Hm. split; [reflexivity|].
  unfold MicroBatch.micro_batches, MicroBatch.range_step.
  destruct (Nat.eqb_spec m 0) as [Hz|Hz]; [lia|].
  eexists. split; [reflexivity|].
  destruct (ceil_div_covers (List.length x) m Hm) as [Hcover Hlast].
  set (n := ((List.length x + m - 1) / m)%nat) in *.
  split; [|split].
  - rewrite concat_slices. simpl. now apply firstn_all2.
  - now rewrite !length_map, length_seq.
  - apply Forall_forall. intros mb Hin.
    apply in_map_iff in Hin as (i & <- & Hi).
    apply in_map_iff in Hi as (k & <- & Hk).
    apply in_seq in Hk. unfold MicroBatch.slice.
    rewrite length_firstn, length_skipn.
    assert (Hkm : (k * m <= (n - 1) * m)%nat)
      by (apply Nat.mul_le_mono_r; lia).
    assert (1 <= List.length x)%nat.
    { destruct (List.length x); [|lia].
      unfold n in Hk. rewrite Nat.div_small in Hk by lia. lia. }
    specialize (Hlast ltac:(assumption)). lia.
Qed.

Lemma micro_batches_partition_the_batch_witness :
  exists mbs,
    MicroBatch.micro_batches 2 [10; 20; 30; 40; 50]%Z = Some mbs
    /\ List.concat mbs = [10; 20; 30; 40; 50]%Z
    /\ List.length mbs = 3%nat.
Proof.
  destruct (micro_batches_partition_the_batch Z 2%nat [10; 20; 30; 40; 50]%Z
              (le_S _ _ (le_n 1)))
    as (_ & mbs & Hrun & Hcat & Hlen & _).
  exists mbs. split; [exact Hrun|]. split; [exact Hcat|]. exact Hlen.
Defined.

(** X14.  The response slices of [rollout] keep the shift by one: for a
    sequence of N tokens with its N logits and a response length R, the
    token slice and the logit slice have the same length, [min R (N - 1)]
    for [R >= 1] and [N - 1] for [R = 0] (where [[-0:]] takes everything),
    and the logit at a place of the logit slice is the one at the sequence
    position just before the token at the same place of the token slice. *)
Theorem response_slices_are_aligned :
  forall (Logit : Type) (input_ids : list Z) (logits : list Logit) R,
    List.length logits = List.length input_ids ->
    let N := List.length input_ids in
    let len := if (R =? 0)%nat then (N - 1)%nat else Nat.min R (N - 1) in
    let off := (N - 1 - len)%nat in
    List.length (Slices.response_input_ids input_ids R) = len
    /\ List.length (Slices.response_logits logits R) = len
    /\ forall j, (j < len)%nat ->
         nth_error (Slices.response_input_ids input_ids R) j
         = nth_error input_ids (off + j + 1)
         /\ nth_error (Slices.response_logits logits R) j
            = nth_error logits (off + j).
Proof.
  intros Logit ids logits R Hlen N len off.
  unfold Slices.response_input_ids, Slices.response_logits, Slices.last_slice.
  rewrite Hlen. fold N.
  assert (Hl1 : List.length (skipn 1 ids) = (N - 1)%nat)
    by now rewrite length_skipn.
  assert (Hl2 : List.length (firstn (N - 1) logits) = (N - 1)%nat)
    by (rewrite length_firstn; lia).
  rewrite Hl1, Hl2.
  destruct (Nat.eqb_spec R 0) as [->|HR]; unfold off, len.
  - split; [exact Hl1|]. split; [exact Hl2|].
    intros j Hj. rewrite nth_error_skipn, nth_error_firstn.
    replace (N - 1 - (N - 1) + j + 1)%nat with (1 + j)%nat by lia.
    replace (N - 1 - (N - 1) + j)%nat with j by lia.
    apply Nat.ltb_lt in Hj. now rewrite Hj.
  - split; [rewrite !length_skipn; fold N; lia|].
    split; [rewrite length_skipn, length_firstn, Hlen; fold N; lia|].
    intros j Hj. rewrite !nth_error_skipn, nth_error_firstn.
    replace (N - 1 - Nat.min R (N - 1))%nat with (N - 1 - R)%nat by lia.
    replace (1 + (N - 1 - R + j))%nat with (N - 1 - R + j + 1)%nat by lia.
    split; [reflexivity|].
    destruct (Nat.ltb_spec (N - 1 - R + j) (N - 1)); [reflexivity | lia].
Qed.

Lemma response_slices_are_aligned_witness :
  Slices.response_input_ids [11; 12; 21; 22; 23]%Z 3 = [21; 22; 23]%Z
  /\ Slices.response_logits [0; 1; 2; 3; 4]%nat 3 = [1; 2; 3]%nat
  /\ nth_error (Slices.response_logits [0; 1; 2; 3; 4]%nat 3) 0
     = nth_error [0; 1; 2; 3; 4]%nat (5 - 1 - 3 + 0).
Proof.
  destruct (response_slices_are_aligned nat [11; 12; 21; 22; 23]%Z
              [0; 1; 2; 3; 4]%nat 3%nat eq_refl) as (_ & _ & Hj).
  split; [reflexivity|]. split; [reflexivity|].
  exact (proj2 (Hj 0%nat (le_S _ _ (le_S _ _ (le_n 1))))).
Defined.

(** ** The two initialisations *)

(** X15.  Loading a cost model and a cost critic adds no check:
    [init_models_with_cost_model] raises on exactly the configurations on
    which [init_models] raises, those whose reward critic tokenizer is not
    the policy's, and with the same message. *)
Theorem cost_model_adds_no_tokenizer_check :
  forall (Tokenizer : Type) type_name len load_pretrained_models
         load_pretrained_model_with_value_head is_same_tokenizer cfgs message,
    (Init.init_models_with_cost_model Tokenizer type_name len
       load_pretrained_models load_pretrained_model_with_value_head
       is_same_tokenizer cfgs = Init.ValueError message
     <-> InitReward.init_models Tokenizer type_name len
           load_pretrained_models load_pretrained_model_with_value_head
           is_same_tokenizer cfgs = Init.ValueError message)
    /\ (InitReward.init_models Tokenizer type_name len
          load_pretrained_models load_pretrained_model_with_value_head
          is_same_tokenizer cfgs = Init.ValueError message
        <-> is_same_tokenizer
              (Init.loaded_actor_tokenizer Tokenizer load_pretrained_models cfgs)
              (Init.loaded_reward_critic_tokenizer Tokenizer
                 load_pretrained_model_with_value_head cfgs) = false
            /\ message
               = Init.reward_critic_message Tokenizer type_name len
                   (Init.loaded_actor_tokenizer Tokenizer
                      load_pretrained_models cfgs)
                   (Init.loaded_reward_critic_tokenizer Tokenizer
                      load_pretrained_model_with_value_head cfgs)).
Proof.
  intros T tn len lpm lvh same cfgs msg.
  unfold Init.init_models_with_cost_model, InitReward.init_models,
    Init.loaded_actor_tokenizer, Init.loaded_reward_critic_tokenizer.
  destruct (same _ (lvh (Init.reward_critic_model_name_or_path cfgs) Init.Left));
    simpl.
  - split; [split; discriminate|].
    split; [discriminate | intros [H _]; discriminate].
  - split; [split; intros [= <-]; reflexivity|].
    split; [intros [= <-]; auto | intros [_ ->]; reflexivity].
Qed.

(** ** Prompt batches and ptx batches in [train] *)

Lemma concat_passes_length {X} (ptx_pass : nat -> list X) n a r :
  (forall k, List.length (ptx_pass k) = n) ->
  List.length (List.concat (map ptx_pass (seq a r))) = (r * n)%nat.
Proof.
  intros Hpass. revert a; induction r as [|r IH]; intros a; simpl; auto.
  now rewrite length_app, Hpass, IH.
Qed.

Lemma map_fst_combine {P X} (l : list P) (l' : list X) :
  (List.length l <= List.length l')%nat -> map fst (combine l l') = l.
Proof.
  revert l'; induction l as [|x l IH]; intros [|y l'] H; simpl in *;
    try lia; auto.
  f_equal. apply IH. lia.
Qed.

Lemma batch_pairs_cover {P X} (prompts : list P) n (ptx_pass : nat -> list X) :
  (1 <= n)%nat -> (forall k, List.length (ptx_pass k) = n) ->
  exists pairs, Train.batch_pairs prompts n ptx_pass = Some pairs
                /\ map fst pairs = prompts.
Proof.
  intros Hn Hpass. unfold Train.batch_pairs, Train.num_ptx_replicas.
  destruct (Nat.eqb_spec n 0) as [Hz|Hz]; [lia|].
  eexists. split; [reflexivity|].
  apply map_fst_combine. rewrite (concat_passes_length _ n) by assumption.
  apply (ceil_div_covers (List.length prompts) n Hn).
Qed.

(** X16.  The ptx batches are repeated often enough and no more: with a
    ptx dataloader of at least one batch, every prompt batch of the
    dataloader is paired, once and in order, with a ptx batch, and the
    last of the [num_ptx_replicas] passes over the ptx dataloader is
    needed; with an empty ptx dataloader [train] raises. *)
Theorem every_prompt_batch_is_paired :
  forall (P X : Type) (prompt_only_dataloader : list P) num_ptx_batches
         (ptx_pass : nat -> list X),
    (1 <= num_ptx_batches)%nat ->
    (forall k, List.length (ptx_pass k) = num_ptx_batches) ->
    Train.batch_pairs prompt_only_dataloader 0 ptx_pass = None
    /\ exists pairs replicas,
         Train.batch_pairs prompt_only_dataloader num_ptx_batches ptx_pass
         = Some pairs
         /\ map fst pairs = prompt_only_dataloader
         /\ Train.num_ptx_replicas (List.length prompt_only_dataloader)
              num_ptx_batches = Some replicas
         /\ ((1 <= List.length prompt_only_dataloader)%nat ->
             ((replicas - 1) * num_ptx_batches
              < List.length prompt_only_dataloader)%nat).
Proof.
  intros P X prompts n ptx_pass Hn Hpass. split; [reflexivity|].
  destruct (batch_pairs_cover prompts n ptx_pass Hn Hpass)
    as (pairs & Hpairs & Hfst).
  exists pairs. eexists. split; [exact Hpairs|]. split; [exact Hfst|].
  unfold Train.num_ptx_replicas.
  destruct (Nat.eqb_spec n 0) as [Hz|Hz]; [lia|].
  split; [reflexivity|].
  apply (ceil_div_covers (List.length prompts) n Hn).
Qed.

Lemma every_prompt_batch_is_paired_witness :
  exists pairs,
    Train.batch_pairs [1; 2; 3; 4; 5]%nat 2
      (fun k => [(10 * k)%nat; (10 * k + 1)%nat]) = Some pairs
    /\ map fst pairs = [1; 2; 3; 4; 5]%nat.
Proof.
  destruct (every_prompt_batch_is_paired nat nat [1; 2; 3; 4; 5]%nat 2%nat
              (fun k => [(10 * k)%nat; (10 * k + 1)%nat])
              (le_S _ _ (le_n 1)) (fun k => eq_refl))
    as (_ & pairs & replicas & Hpairs & Hfst & _).
  exists pairs. split; [exact Hpairs | exact Hfst].
Defined.

Lemma cost_model_adds_no_tokenizer_check_witness :
  InitReward.init_models Init.toy_tokenizer fst snd Init.toy_load
    Init.toy_load Init.toy_same Init.toy_cfgs_reward_critic
  = Init.ValueError
      (Init.reward_critic_message Init.toy_tokenizer fst snd
         ("transformers.LlamaTokenizerFast"%string, 32000%N)
         ("transformers.GPT2TokenizerFast"%string, 50257%N)).
Proof.
  apply (proj1 (proj1 (cost_model_adds_no_tokenizer_check Init.toy_tokenizer
                         fst snd Init.toy_load Init.toy_load Init.toy_same
                         Init.toy_cfgs_reward_critic _))).
  reflexivity.
Defined.

(** ** Counting the steps of [train] *)

Lemma micro_batches_count {A} m (x : list A) :
  (1 <= m)%nat ->
  exists mbs, MicroBatch.micro_batches m x = Some mbs
              /\ List.length mbs = ((List.length x + m - 1) / m)%nat.
Proof.
  intros Hm. unfold MicroBatch.micro_batches, MicroBatch.range_step.
  destruct (Nat.eqb_spec m 0) as [Hz|Hz]; [lia|].
  eexists. split; [reflexivity|]. now rewrite !length_map, length_seq.
Qed.

Lemma steps_on_rollout_count {MB X PB} use_ptx (split : X -> list PB) u
    (mbs : list MB) x g :
  Train.steps_on_rollout use_ptx split u mbs mbs x g
  = (g + u * (if use_ptx
              then Nat.min (List.length mbs) (List.length (split x))
              else List.length mbs))%nat.
Proof.
  unfold Train.steps_on_rollout.
  set (ptx := if use_ptx then map Some (split x)
              else map (fun _ => None) mbs).
  set (triples := combine (combine mbs mbs) ptx).
  assert (Hlen : List.length triples
                 = if use_ptx
                   then Nat.min (List.length mbs) (List.length (split x))
                   else List.length mbs).
  { unfold triples, ptx. rewrite !length_combine.
    destruct use_ptx; rewrite length_map; lia. }
  rewrite <- Hlen. clearbody triples. clear Hlen ptx.
  assert (Hin : forall g0, fold_left (fun g' (_ : MB * MB * option PB) => S g')
                             triples g0
                           = (g0 + List.length triples)%nat).
  { induction triples as [|tr triples IH]; intros g0; simpl; [lia|].
    rewrite IH. lia. }
  generalize 0%nat at 1. revert g.
  induction u as [|u IH]; intros g a; simpl; [lia|].
  rewrite IH, Hin. lia.
Qed.

(** The steps one pair of a prompt batch and a ptx batch gives for each
    update iteration. *)
Local Abbreviation pair_steps use_ptx split m :=
  (fun pr => if use_ptx
             then Nat.min ((List.length (fst pr) + m - 1) / m)
                    (List.length (split (snd pr)))
             else ((List.length (fst pr) + m - 1) / m)%nat).

Lemma epoch_steps_count {Row X PB} use_ptx (split : X -> list PB) u m
    (pairs : list (list Row * X)) g :
  (1 <= m)%nat ->
  Train.epoch_steps use_ptx split u m pairs g
  = Some (g + u * list_sum (map (pair_steps use_ptx split m) pairs))%nat.
Proof.
  intros Hm. revert g; induction pairs as [|[b x] pairs IH]; intros g; simpl.
  - f_equal. lia.
  - destruct (micro_batches_count m b Hm) as (mbs & -> & Hlen).
    rewrite IH, steps_on_rollout_count, Hlen. f_equal.
    destruct use_ptx; lia.
Qed.

Lemma list_sum_const {A} (f : A -> nat) c (l : list A) :
  Forall (fun x => f x = c) l -> list_sum (map f l) = (List.length l * c)%nat.
Proof.
  induction 1 as [|x l Hx Hl IH]; simpl; [reflexivity|]. now rewrite Hx, IH.
Qed.

Lemma list_sum_bound {A} (f : A -> nat) c (l : list A) :
  Forall (fun x => (f x <= c)%nat) l ->
  (list_sum (map f l) <= List.length l * c)%nat.
Proof.
  induction 1 as [|x l Hx Hl IH]; simpl; lia.
Qed.

(** With prompt batches of [q] micro-batches each, [train] makes at most
    [epochs * update_iters * q] steps for every prompt batch, and exactly
    as many when the ptx batches cut nothing off. *)
Lemma train_global_step_count {Row X PB} use_ptx (split : X -> list PB)
    epochs u m q (loader : list (list Row)) n (ptx_pass : nat -> list X) g :
  (1 <= m)%nat -> (1 <= n)%nat ->
  (forall k, List.length (ptx_pass k) = n) ->
  Forall (fun b => ((List.length b + m - 1) / m)%nat = q) loader ->
  exists steps,
    Train.train_global_step use_ptx split epochs u m loader n ptx_pass g
    = Some (g + steps)%nat
    /\ (steps <= epochs * (u * (List.length loader * q)))%nat
    /\ ((use_ptx = false
         \/ forall k x, In x (ptx_pass k) -> (q <= List.length (split x))%nat) ->
        steps = (epochs * (u * (List.length loader * q)))%nat).
Proof.
  intros Hm Hn Hpass Hq. revert g ptx_pass Hpass.
  induction epochs as [|e IH]; intros g ptx_pass Hpass; simpl;
    unfold Train.num_ptx_replicas;
    destruct (Nat.eqb_spec n 0) as [Hz|Hz]; try lia.
  - exists 0%nat. split; [f_equal; lia|]. split; [lia | reflexivity].
  - destruct (batch_pairs_cover loader n ptx_pass Hn Hpass)
      as (pairs & Hpairs & Hfst).
    rewrite Hpairs, epoch_steps_count by assumption.
    set (r := ((List.length loader + n - 1) / n)%nat).
    destruct (IH (g + u * list_sum (map (pair_steps use_ptx split m) pairs))%nat
                (fun k => ptx_pass (r + k)%nat) (fun k => Hpass _))
      as (steps & -> & Hle & Heq).
    assert (Hlen : List.length pairs = List.length loader)
      by now rewrite <- Hfst, length_map.
    assert (Hin : forall pr, In pr pairs -> In (fst pr) loader)
      by (intros pr Hpr; rewrite <- Hfst; now apply in_map).
    assert (Hsnd : forall pr, In pr pairs -> exists k, In (snd pr) (ptx_pass k)).
    { unfold Train.batch_pairs, Train.num_ptx_replicas in Hpairs.
      destruct (Nat.eqb_spec n 0); [lia|]. injection Hpairs as <-.
      intros [b x] Hpr. apply in_combine_r in Hpr.
      apply in_concat in Hpr as (l & Hl & Hx).
      apply in_map_iff in Hl as (k & <- & _). now exists k. }
    rewrite Forall_forall in Hq.
    assert (Hbound : (list_sum (map (pair_steps use_ptx split m) pairs)
                      <= List.length loader * q)%nat).
    { rewrite <- Hlen. apply list_sum_bound, Forall_forall.
      intros pr Hpr. rewrite <- (Hq _ (Hin pr Hpr)). destruct use_ptx; lia. }
    exists (u * list_sum (map (pair_steps use_ptx split m) pairs) + steps)%nat.
    split; [f_equal; lia|]. split; [nia|].
    intros Hfull. rewrite (Heq ltac:(destruct Hfull as [?|H]; [now left|];
                                     right; intros k x; apply H)).
    assert (Hsum : list_sum (map (pair_steps use_ptx split m) pairs)
                   = (List.length loader * q)%nat).
    { rewrite <- Hlen. apply list_sum_const, Forall_forall.
      intros pr Hpr. rewrite <- (Hq _ (Hin pr Hpr)).
      destruct Hfull as [->|Hfull]; [reflexivity|].
      destruct use_ptx; [|reflexivity].
      destruct (Hsnd pr Hpr) as (k & Hk).
      specialize (Hfull k _ Hk). rewrite <- (Hq _ (Hin pr Hpr)) in Hfull.
      lia. }
    rewrite Hsum. lia.
Qed.

(** X17.  [train] never makes more steps than announced: when all prompt
    batches have [per_device_prompt_batch_size] rows and
    [per_device_train_batch_size] divides that number, the final
    [global_step] is at most the [total_training_steps] the engines were
    set up with, [epochs * update_iters] steps for every micro-batch of
    every prompt batch.  It is that number without ptx, and with ptx when
    every ptx batch is split into at least as many micro-batches as a
    prompt batch; a ptx batch split into fewer cuts the steps on its
    prompt batch short. *)
Theorem train_makes_the_announced_steps :
  forall (Row X PB : Type) (use_ptx : bool)
         (split_ptx_micro_batches : X -> list PB)
         epochs update_iters per_device_prompt_batch_size
         per_device_train_batch_size (prompt_only_dataloader : list (list Row))
         num_ptx_batches (ptx_pass : nat -> list X),
    (1 <= per_device_train_batch_size)%nat -> (1 <= num_ptx_batches)%nat ->
    (forall k, List.length (ptx_pass k) = num_ptx_batches) ->
    forallb (fun b => (List.length b =? per_device_prompt_batch_size)%nat)
      prompt_only_dataloader = true ->
    (per_device_prompt_batch_size mod per_device_train_batch_size = 0)%nat ->
    let announced :=
      (epochs * update_iters
       * (List.length prompt_only_dataloader
          * (per_device_prompt_batch_size / per_device_train_batch_size)))%nat in
    exists steps,
      Train.train_global_step use_ptx split_ptx_micro_batches epochs
        update_iters per_device_train_batch_size prompt_only_dataloader
        num_ptx_batches ptx_pass 0 = Some steps
      /\ Train.total_training_steps (List.length prompt_only_dataloader)
           epochs update_iters per_device_prompt_batch_size
           per_device_train_batch_size = Some announced
      /\ (steps <= announced)%nat
      /\ ((use_ptx = false
           \/ forall k x, In x (ptx_pass k) ->
                (per_device_prompt_batch_size / per_device_train_batch_size
                 <= List.length (split_ptx_micro_batches x))%nat) ->
          steps = announced)
      /\ (use_ptx = true -> (1 <= epochs)%nat -> (1 <= update_iters)%nat ->
          (exists b x, hd_error prompt_only_dataloader = Some b
                       /\ hd_error (ptx_pass 0%nat) = Some x
                       /\ (List.length (split_ptx_micro_batches x)
                           < per_device_prompt_batch_size
                             / per_device_train_batch_size)%nat) ->
          (steps < announced)%nat).
Proof.
  intros Row X PB use_ptx split e u p m loader n ptx_pass Hm Hn Hpass Hrows
    Hdiv announced.
  assert (Hq : p = (m * (p / m))%nat) by (apply Nat.Div0.div_exact; lia).
  set (q := (p / m)%nat) in *.
  assert (Hceil : Forall (fun b : list Row =>
                            ((List.length b + m - 1) / m)%nat = q) loader).
  { apply Forall_forall. intros b Hb. rewrite forallb_forall in Hrows.
    specialize (Hrows b Hb). apply Nat.eqb_eq in Hrows. rewrite Hrows.
    symmetry. apply (Nat.div_unique _ m q (m - 1)); lia. }
  destruct (train_global_step_count use_ptx split e u m q loader n ptx_pass 0
              Hm Hn Hpass Hceil) as (steps & Hrun & Hle & Heq).
  exists steps. split; [exact Hrun|]. split; [|split; [|split]].
  - unfold Train.total_training_steps.
    destruct (Nat.eqb_spec m 0) as [Hz|Hz]; [lia|]. f_equal.
    rewrite Hq.
    replace (List.length loader * e * u * (m * q))%nat
      with ((List.length loader * e * u * q) * m)%nat by lia.
    rewrite Nat.div_mul by lia. unfold announced. lia.
  - unfold announced. lia.
  - intros Hfull. rewrite (Heq Hfull). unfold announced. lia.
  - intros -> He Hu (b & x & Hb & Hx & Hshort).
    destruct e as [|e]; [lia|].
    simpl in Hrun. unfold Train.num_ptx_replicas in Hrun.
    destruct (Nat.eqb_spec n 0) as [Hz|Hz]; [lia|].
    destruct (batch_pairs_cover loader n ptx_pass Hn Hpass)
      as (pairs & Hpairs & Hfst).
    rewrite Hpairs, epoch_steps_count in Hrun by assumption.
    set (r := ((List.length loader + n - 1) / n)%nat) in *.
    destruct (train_global_step_count true split e u m q loader n
                (fun k => ptx_pass (r + k)%nat)
                (0 + u * list_sum (map (pair_steps true split m) pairs))
                Hm Hn (fun k => Hpass _) Hceil) as (rest & Hrest & Hle' & _).
    rewrite Hrest in Hrun. injection Hrun as <-.
    assert (Hfirst : (list_sum (map (pair_steps true split m) pairs)
                      < List.length loader * q)%nat).
    { assert (Hhd : exists pairs', pairs = (b, x) :: pairs').
      { unfold Train.batch_pairs, Train.num_ptx_replicas in Hpairs.
        destruct (Nat.eqb_spec n 0); [lia|]. injection Hpairs as <-.
        destruct loader as [|b0 loader']; [discriminate|].
        injection Hb as ->.
        assert (Hr : (1 <= (List.length (b :: loader') + n - 1) / n)%nat).
        { apply Nat.div_le_lower_bound; simpl; lia. }
        destruct ((List.length (b :: loader') + n - 1) / n)%nat as [|r'];
          [lia|].
        simpl. destruct (ptx_pass 0%nat) as [|x0 xs]; [discriminate|].
        injection Hx as ->. simpl. eexists. reflexivity. }
      destruct Hhd as (pairs' & ->).
      assert (Hlen : List.length ((b, x) :: pairs') = List.length loader)
        by now rewrite <- Hfst, length_map.
      assert (Hin : forall pr, In pr pairs' -> In (fst pr) loader).
      { intros pr Hpr. rewrite <- Hfst. apply in_map. now right. }
      rewrite Forall_forall in Hceil.
      assert (Hbound : (list_sum (map (pair_steps true split m) pairs')
                        <= List.length pairs' * q)%nat).
      { apply list_sum_bound, Forall_forall. intros pr Hpr.
        rewrite <- (Hceil _ (Hin pr Hpr)). lia. }
      simpl in Hlen. rewrite <- Hlen. simpl in Hbound |- *. lia. }
    unfold announced. nia.
Qed.

Lemma train_makes_the_announced_steps_witness :
  exists steps,
    Train.train_global_step false (fun _ : unit => @nil unit) 2 3 2
      [[1; 2; 3; 4]; [5; 6; 7; 8]]%nat 1 (fun _ => [tt]) 0 = Some steps
    /\ Train.total_training_steps 2 2 3 4 2 = Some 24%nat
    /\ steps = 24%nat.
Proof.
  destruct (train_makes_the_announced_steps nat unit unit false
              (fun _ => []) 2%nat 3%nat 4%nat 2%nat
              [[1; 2; 3; 4]; [5; 6; 7; 8]]%nat 1%nat (fun _ => [tt])
              (le_S _ _ (le_n 1)) (le_n 1) (fun _ => eq_refl) eq_refl eq_refl)
    as (steps & Hrun & Htotal & _ & Heq & _).
  exists steps. split; [exact Hrun|]. split; [exact Htotal|].
  apply Heq. now left.
Defined.

(** ** More on the collators *)

Section CollateMore.

Import Preference.

Variable Px : Type.

Lemma max_length_map_map {A C} (f : A -> C) (l : list (list A)) :
  max_length (map (map f) l) = max_length l.
Proof.
  unfold max_length. induction l as [|x l IH]; simpl; auto.
  now rewrite length_map, IH.
Qed.

Lemma max_length_ge {A} (l : list (list A)) s :
  In s l -> (List.length s <= max_length l)%nat.
Proof.
  unfold max_length. induction l as [|x xs IH]; [intros []|].
  intros [<-|Hin]; simpl; [lia | specialize (IH Hin); lia].
Qed.

Lemma max_length_attained {A} (l : list (list A)) :
  l <> [] -> exists s, In s l /\ List.length s = max_length l.
Proof.
  unfold max_length. induction l as [|x xs IH]; [congruence|]. intros _.
  destruct xs as [|y ys].
  - exists x. split; [now left | simpl; lia].
  - destruct (IH ltac:(discriminate)) as (s & Hin & Hs).
    cbn [fold_right] in *.
    destruct (Nat.max_spec (List.length x)
                (Nat.max (List.length y)
                   (fold_right (fun s m => Nat.max (List.length s) m)
                      0%nat ys))) as [[_ Hm]|[_ Hm]]; rewrite Hm.
    + exists s. split; [now right | exact Hs].
    + exists x. split; [now left | reflexivity].
Qed.

Lemma right_padding_some {A} (l : list (list A)) pad :
  l <> [] ->
  right_padding l pad
  = Some (map (fun s => s ++ repeat pad (max_length l - List.length s)) l).
Proof. intros H. destruct l; [congruence | reflexivity]. Qed.

Lemma collate_explicit w pad (samples : list (sample Px)) sizes px :
  samples <> [] -> collate_pixels Px samples = Some (sizes, px) ->
  let ids := map (better_input_ids Px) samples
             ++ map (worse_input_ids Px) samples in
  let L := max_length ids in
  collate Px w pad samples
  = Some {| input_ids :=
              map (fun s => s ++ repeat pad (L - List.length s)) ids;
            attention_mask :=
              map (fun s => repeat true (List.length s)
                            ++ repeat false (L - List.length s)) ids;
            batch_is_better_safe :=
              if w then Some (map (is_better_safe Px) samples) else None;
            batch_is_worse_safe :=
              if w then Some (map (is_worse_safe Px) samples) else None;
            batch_better_response_lens :=
              map (better_response_lens Px) samples;
            batch_worse_response_lens :=
              map (worse_response_lens Px) samples;
            response_lens :=
              map (better_response_lens Px) samples
              ++ map (worse_response_lens Px) samples;
            image_sizes := sizes;
            batch_pixel_values := px |}.
Proof.
  intros Hne Hpx ids L. unfold collate. fold ids.
  assert (Hids : ids <> []).
  { unfold ids. destruct samples; [congruence | discriminate]. }
  assert (Hmask : map (map (fun _ : Z => true)) ids <> [])
    by (destruct ids; [congruence | discriminate]).
  rewrite (right_padding_some ids pad Hids).
  rewrite (right_padding_some _ false Hmask), Hpx.
  rewrite max_length_map_map. fold L. rewrite map_map.
  do 2 f_equal. apply map_ext. intros s.
  now rewrite length_map, map_const.
Qed.

End CollateMore.

(** X18.  In the batch of either collator all rows of [input_ids] have
    the length of the longest sequence, and the attention mask tells the
    tokens from the padding: the mask row of a sequence is true on the
    length of that sequence and false on the rest. *)
Theorem attention_mask_marks_the_tokens :
  forall (Px : Type) (ours : bool) (pad_token_id : Z)
         (samples : list (Preference.sample Px)),
    samples <> [] -> Preference.pixels_agree Px samples = true ->
    let sequences := map (Preference.better_input_ids Px) samples
                     ++ map (Preference.worse_input_ids Px) samples in
    let L := Preference.max_length sequences in
    exists batch,
      (if ours then Preference.PreferenceCollator_ours_call Px
       else Preference.PreferenceCollator_call Px) pad_token_id samples
      = Some batch
      /\ Forall (fun row => List.length row = L)
           (Preference.input_ids Px batch)
      /\ (exists s, In s sequences /\ List.length s = L)
      /\ forall i s, nth_error sequences i = Some s ->
           (List.length s <= L)%nat
           /\ nth_error (Preference.attention_mask Px batch) i
              = Some (repeat true (List.length s)
                      ++ repeat false (L - List.length s))
           /\ nth_error (Preference.input_ids Px batch) i
              = Some (s ++ repeat pad_token_id (L - List.length s)).
Proof.
  intros Px ours pad samples Hne Hagree sequences L.
  assert (Hhd : exists s0, hd_error samples = Some s0)
    by (destruct samples as [|s0 ?]; [congruence | now exists s0]).
  destruct Hhd as (s0 & Hs0).
  pose proof (collate_pixels_explicit Px samples s0 Hs0 Hagree) as Hpx.
  assert (Hseq : sequences <> [])
    by (unfold sequences; destruct samples; [congruence | discriminate]).
  assert (Hcall : (if ours then Preference.PreferenceCollator_ours_call Px
                   else Preference.PreferenceCollator_call Px) pad samples
                  = Preference.collate Px ours pad samples)
    by (destruct ours; reflexivity).
  destruct (Preference.collate_pixels Px samples) as [[sizes px]|] eqn:E;
    [clear Hpx | discriminate Hpx].
  rewrite Hcall, (collate_explicit Px ours pad samples _ _ Hne E).
  eexists. split; [reflexivity|]. cbn [Preference.input_ids
    Preference.attention_mask]. fold sequences. fold L.
  split; [|split].
  - apply Forall_map, Forall_forall. intros s Hs.
    pose proof (max_length_ge sequences s Hs). fold L in H.
    rewrite length_app, repeat_length. lia.
  - now apply max_length_attained.
  - intros i s Hi. split; [|split].
    + apply (max_length_ge sequences). eapply nth_error_In; eauto.
    + now rewrite nth_error_map, Hi.
    + now rewrite nth_error_map, Hi.
Qed.

Lemma attention_mask_marks_the_tokens_witness :
  exists batch,
    Preference.PreferenceCollator_call nat 0
      [ {| Preference.better_input_ids := [1; 2; 3]%Z;
           Preference.worse_input_ids := [1; 4]%Z;
           Preference.better_response_lens := 2;
           Preference.worse_response_lens := 1;
           Preference.pixel_values := None;
           Preference.is_better_safe := "yes";
           Preference.is_worse_safe := "no" |} ]
    = Some batch
    /\ nth_error (Preference.attention_mask nat batch) 1
       = Some [true; true; false].
Proof.
  match goal with
  | |- exists batch, _ _ _ ?samples = _ /\ _ =>
      destruct (attention_mask_marks_the_tokens nat false 0%Z samples
                  ltac:(discriminate) eq_refl)
        as (batch & Hcall & _ & _ & Hrows)
  end.
  exists batch. split; [exact Hcall|].
  exact (proj1 (proj2 (Hrows 1%nat [1; 4]%Z eq_refl))).
Defined.

(** X19.  What the collators say about patches adds up: when the image
    tensor of the first sample has four dimensions, [image_sizes] is the
    sizes along dimension 0 of the tensors of the samples, in order, twice
    over, and their sum is the size along dimension 0 of [pixel_values],
    whose other dimensions are those of the first tensor; otherwise
    [image_sizes] is not set and [pixel_values] has the size of the first
    tensor behind a dimension 0 of size 2 * B. *)
Theorem image_sizes_count_the_pixel_rows :
  forall (Px : Type) (ours : bool) (pad_token_id : Z)
         (samples : list (Preference.sample Px)) s0 t0,
    hd_error samples = Some s0 ->
    Preference.pixel_values Px s0 = Some t0 ->
    Preference.pixels_agree Px samples = true ->
    exists batch px,
      (if ours then Preference.PreferenceCollator_ours_call Px
       else Preference.PreferenceCollator_call Px) pad_token_id samples
      = Some batch
      /\ Preference.batch_pixel_values Px batch = Some px
      /\ if (Preference.dim Px t0 =? 4)%nat
         then
           exists sizes,
             Preference.image_sizes Px batch = Some (sizes ++ sizes)
             /\ List.length sizes = List.length samples
             /\ (forall i s t,
                   nth_error samples i = Some s ->
                   Preference.pixel_values Px s = Some t ->
                   Preference.size0 Px t = nth_error sizes i)
             /\ Preference.size Px px
                = list_sum (sizes ++ sizes) :: tl (Preference.size Px t0)
         else
           Preference.image_sizes Px batch = None
           /\ Preference.size Px px
              = (2 * List.length samples)%nat :: Preference.size Px t0.
Proof.
  intros Px ours pad samples s0 t0 Hs0 Ht0 Hagree.
  assert (Hne : samples <> []) by (destruct samples; [discriminate | congruence]).
  pose proof (collate_pixels_explicit Px samples s0 Hs0 Hagree) as Hpx.
  assert (Hcall : (if ours then Preference.PreferenceCollator_ours_call Px
                   else Preference.PreferenceCollator_call Px) pad samples
                  = Preference.collate Px ours pad samples)
    by (destruct ours; reflexivity).
  rewrite Hcall. rewrite Ht0 in Hpx. cbv zeta in Hpx.
  destruct (Preference.dim Px t0 =? 4)%nat eqn:Hdim.
  - rewrite (collate_explicit Px ours pad samples _ _ Hne Hpx).
    eexists _, _. split; [reflexivity|]. split; [reflexivity|].
    cbn [Preference.image_sizes Preference.size].
    eexists. split; [reflexivity|]. split; [now rewrite length_map|]. split.
    + intros i s t Hi Ht. rewrite nth_error_map, Hi. cbn [option_map].
      rewrite Ht. unfold Preference.size0.
      unfold Preference.pixels_agree in Hagree.
      destruct samples as [|s1 rest]; [discriminate|]. injection Hs0 as ->.
      rewrite Ht0, Hdim in Hagree. rewrite forallb_forall in Hagree.
      specialize (Hagree s (nth_error_In _ _ Hi)). rewrite Ht in Hagree.
      unfold Preference.skipped, Preference.fits in Hagree.
      destruct (Preference.size Px t) as [|n tl']; [discriminate | reflexivity].
    + now rewrite list_sum_app.
  - rewrite (collate_explicit Px ours pad samples _ _ Hne Hpx).
    eexists _, _. split; [reflexivity|]. split; [reflexivity|].
    cbn [Preference.image_sizes Preference.size]. split; [reflexivity|].
    f_equal. lia.
Qed.

Lemma image_sizes_count_the_pixel_rows_witness :
  exists batch px,
    Preference.PreferenceCollator_call nat 0
      [ {| Preference.better_input_ids := [1; 2; 3]%Z;
           Preference.worse_input_ids := [1; 4]%Z;
           Preference.better_response_lens := 2;
           Preference.worse_response_lens := 1;
           Preference.pixel_values :=
             Some {| Preference.size := [3; 1; 1; 2]%nat;
                     Preference.entries := [7; 8; 9; 10; 11; 12]%nat |};
           Preference.is_better_safe := "yes";
           Preference.is_worse_safe := "no" |} ]
    = Some batch
    /\ Preference.batch_pixel_values nat batch = Some px
    /\ Preference.size nat px = [6; 1; 1; 2]%nat.
Proof.
  match goal with
  | |- exists batch px, _ _ _ ?samples = _ /\ _ =>
      destruct (image_sizes_count_the_pixel_rows nat false 0%Z samples _ _
                  eq_refl eq_refl eq_refl)
        as (batch & px & Hcall & Hpx & sizes & Hsizes & Hlen & Hnth & Hsum)
  end.
  exists batch, px. split; [exact Hcall|]. split; [exact Hpx|].
  rewrite Hsum.
  destruct sizes as [|n [|? ?]]; try discriminate.
  specialize (Hnth 0%nat _ _ eq_refl eq_refl). injection Hnth as <-.
  reflexivity.
Defined.

(** X20.  A collator returns a batch exactly when it is given at least
    one sample and the image tensors of the samples agree with the first
    one's.  Spelled out: when the first sample has an image tensor, every
    sample must have one; if the first has four dimensions, each of them
    must be of size (0,) or have a dimension 0 and, behind it, the size
    of the first; otherwise each of them must have the size of the first.
    On an empty list, on a sample without the image tensor the first
    sample has, or with one of another size, the collator raises. *)
Theorem collator_returns_iff_samples_agree :
  forall (Px : Type) (ours : bool) (pad_token_id : Z)
         (samples : list (Preference.sample Px)),
    ((exists batch,
        (if ours then Preference.PreferenceCollator_ours_call Px
         else Preference.PreferenceCollator_call Px) pad_token_id samples
        = Some batch)
     <-> samples <> [] /\ Preference.pixels_agree Px samples = true)
    /\ (Preference.pixels_agree Px samples = true
        <-> forall s0 t0,
              hd_error samples = Some s0 ->
              Preference.pixel_values Px s0 = Some t0 ->
              forall s, In s samples ->
                exists t,
                  Preference.pixel_values Px s = Some t
                  /\ if (Preference.dim Px t0 =? 4)%nat
                     then Preference.size Px t = [0%nat]
                          \/ exists n,
                               Preference.size Px t
                               = n :: tl (Preference.size Px t0)
                     else Preference.size Px t = Preference.size Px t0).
Proof.
  intros Px ours pad samples.
  assert (Hcall : (if ours then Preference.PreferenceCollator_ours_call Px
                   else Preference.PreferenceCollator_call Px) pad samples
                  = Preference.collate Px ours pad samples)
    by (destruct ours; reflexivity).
  rewrite Hcall. split; [split|].
  - intros (batch & Hbatch). split.
    + intros ->. discriminate.
    + destruct (Preference.pixels_agree Px samples) eqn:E; [reflexivity|].
      unfold Preference.collate in Hbatch.
      rewrite (collate_pixels_disagree Px samples E) in Hbatch.
      destruct (Preference.right_padding _ pad); [|discriminate].
      destruct (Preference.right_padding _ false); discriminate.
  - intros [Hne Hagree].
    assert (Hhd : exists s0, hd_error samples = Some s0)
      by (destruct samples as [|s0 ?]; [congruence | now exists s0]).
    destruct Hhd as (s0 & Hs0).
    pose proof (collate_pixels_explicit Px samples s0 Hs0 Hagree) as Hpx.
    destruct (Preference.collate_pixels Px samples) as [[sizes px]|] eqn:E;
      [clear Hpx | discriminate Hpx].
    rewrite (collate_explicit Px ours pad samples _ _ Hne E).
    eexists. reflexivity.
  - unfold Preference.pixels_agree.
    destruct samples as [|s0 rest]; [split; [discriminate | reflexivity]|].
    cbn [hd_error].
    destruct (Preference.pixel_values Px s0) as [t0|] eqn:Ht0.
    2:{ split; [intros _ s1 t1 [= <-] H1; congruence | reflexivity]. }
    rewrite forallb_forall. split.
    + intros H s0' t0' [= <-] Ht0' s Hs. rewrite Ht0 in Ht0'.
      injection Ht0' as <-. specialize (H s Hs).
      destruct (Preference.pixel_values Px s) as [t|]; [|discriminate].
      exists t. split; [reflexivity|].
      destruct (Preference.dim Px t0 =? 4)%nat.
      * apply orb_prop in H as [H|H].
        -- left. unfold Preference.skipped in H.
           destruct (Preference.size Px t) as [|[|n] [|a tl']];
             try discriminate. reflexivity.
        -- right. unfold Preference.fits in H.
           destruct (Preference.size Px t) as [|n tl']; [discriminate|].
           exists n. now rewrite (same_size_eq _ _ H).
      * now apply same_size_eq.
    + intros H s Hs.
      destruct (H s0 t0 eq_refl Ht0 s Hs) as (t & -> & Ht).
      destruct (Preference.dim Px t0 =? 4)%nat.
      * destruct Ht as [Ht|(n & Ht)].
        -- unfold Preference.skipped. now rewrite Ht.
        -- apply orb_true_intro. right. unfold Preference.fits.
           rewrite Ht. apply same_size_refl.
      * rewrite Ht. apply same_size_refl.
Qed.

Lemma collator_returns_iff_samples_agree_witness :
  Preference.pixels_agree nat
    [ {| Preference.better_input_ids := [1; 2; 3]%Z;
         Preference.worse_input_ids := [1; 4]%Z;
         Preference.better_response_lens := 2;
         Preference.worse_response_lens := 1;
         Preference.pixel_values :=
           Some {| Preference.size := [1; 1; 2]%nat;
                   Preference.entries := [7; 8]%nat |};
         Preference.is_better_safe := "yes";
         Preference.is_worse_safe := "no" |};
      {| Preference.better_input_ids := [5]%Z;
         Preference.worse_input_ids := [5; 6]%Z;
         Preference.better_response_lens := 1;
         Preference.worse_response_lens := 2;
         Preference.pixel_values :=
           Some {| Preference.size := [1; 2; 1]%nat;
                   Preference.entries := [9; 10]%nat |};
         Preference.is_better_safe := "yes";
         Preference.is_worse_safe := "yes" |} ] = false
  /\ Preference.PreferenceCollator_call nat 0
       [ {| Preference.better_input_ids := [1; 2; 3]%Z;
            Preference.worse_input_ids := [1; 4]%Z;
            Preference.better_response_lens := 2;
            Preference.worse_response_lens := 1;
            Preference.pixel_values :=
              Some {| Preference.size := [1; 1; 2]%nat;
                      Preference.entries := [7; 8]%nat |};
            Preference.is_better_safe := "yes";
            Preference.is_worse_safe := "no" |};
         {| Preference.better_input_ids := [5]%Z;
            Preference.worse_input_ids := [5; 6]%Z;
            Preference.better_response_lens := 1;
            Preference.worse_response_lens := 2;
            Preference.pixel_values :=
              Some {| Preference.size := [1; 2; 1]%nat;
                      Preference.entries := [9; 10]%nat |};
            Preference.is_better_safe := "yes";
            Preference.is_worse_safe := "yes" |} ] = None.
Proof.
  split; [reflexivity|].
  match goal with
  | |- ?call = None =>
      destruct call as [batch|] eqn:E; [|reflexivity]
  end.
  match type of E with
  | _ _ _ ?samples = _ =>
      destruct (proj1 (proj1 (collator_returns_iff_samples_agree nat false
                                0%Z samples)) (ex_intro _ batch E))
        as [_ H]
  end.
  discriminate H.
Defined.

(** ** The preference datasets *)

Section DatasetFacts.

Import PreferenceData.

Variable Px : Type.
Variables Item RawImage : Type.
Variable format_sample : Item -> formatted_sample RawImage.
Variable check_equal : Item -> bool.
Variable tokenize : string -> list Z.
Variable eos_token : string.
Variable model_max_length : Z.
Variable image_processor : RawImage -> Preference.tensor Px.

Local Abbreviation step :=
  (pre_tokenize_step Px Item RawImage format_sample check_equal tokenize
     eos_token model_max_length image_processor).
Local Abbreviation loop :=
  (pre_tokenize_loop Px Item RawImage format_sample check_equal tokenize
     eos_token model_max_length image_processor).
Local Abbreviation sample_of' :=
  (sample_of Px Item RawImage format_sample tokenize eos_token
     image_processor).
Local Abbreviation kept' :=
  (kept Px Item RawImage format_sample check_equal tokenize eos_token
     model_max_length image_processor).
Local Abbreviation both_str := (both_str Item RawImage format_sample).

Lemma step_on_strings ours st item :
  both_str item = true ->
  exists rb rw,
    step ours st item
    = Some {| data := if kept' ours item
                      then data Px st ++ [sample_of' ours item]
                      else data Px st;
              raw_better_response := Some rb;
              raw_worse_response := Some rw |}.
Proof.
  unfold both_str. intros H. apply andb_prop in H as [Hb Hw].
  unfold pre_tokenize_step, raw_texts, kept, sample_of.
  destruct (better_text _ (format_sample item)) as [b| |]; try discriminate.
  destruct (worse_text _ (format_sample item)) as [w| |]; try discriminate.
  simpl. eexists _, _. reflexivity.
Qed.

Lemma loop_on_strings ours items st :
  forallb both_str items = true ->
  exists st',
    loop ours items st = Some st'
    /\ data Px st'
       = data Px st ++ map (sample_of' ours) (filter (kept' ours) items).
Proof.
  revert st; induction items as [|item items IH]; intros st H; simpl.
  - exists st. split; auto. now rewrite app_nil_r.
  - simpl in H. apply andb_prop in H as [Hi H].
    destruct (step_on_strings ours st item Hi) as (rb & rw & ->).
    destruct (IH {| data := if kept' ours item
                            then data Px st ++ [sample_of' ours item]
                            else data Px st;
                    raw_better_response := Some rb;
                    raw_worse_response := Some rw |} H)
      as (st' & -> & Hdata).
    exists st'. split; [reflexivity|]. rewrite Hdata. simpl.
    destruct (kept' ours item); simpl; auto. now rewrite <- app_assoc.
Qed.

Lemma step_not_string_first ours item d :
  is_str (better_text _ (format_sample item)) = false ->
  step ours {| data := d; raw_better_response := None;
               raw_worse_response := None |} item = None.
Proof.
  intros H. unfold pre_tokenize_step, raw_texts.
  destruct (better_text _ (format_sample item)) as [b|l|];
    try discriminate; [|reflexivity].
  simpl. now destruct (join eos_token (worse_text _ (format_sample item))).
Qed.

(** The samples a list item leaves carry the response lengths of the
    state it finds. *)
Lemma loop_on_lists ours items st rb rw :
  raw_better_response Px st = Some rb ->
  raw_worse_response Px st = Some rw ->
  forallb (fun item =>
             match better_text _ (format_sample item),
                   join eos_token (worse_text _ (format_sample item)) with
             | Lst _, Some _ => true
             | _, _ => false
             end) items = true ->
  exists st' added,
    loop ours items st = Some st'
    /\ data Px st' = data Px st ++ added
    /\ Forall (fun s =>
                 Preference.better_response_lens Px s
                 = List.length (tokenize rb)
                 /\ Preference.worse_response_lens Px s
                    = List.length (tokenize rw)) added.
Proof.
  revert st; induction items as [|item items IH]; intros st Hrb Hrw H; simpl.
  - exists st, []. split; [reflexivity|]. split; [now rewrite app_nil_r|].
    constructor.
  - simpl in H. apply andb_prop in H as [Hi H].
    unfold pre_tokenize_step at 1, raw_texts.
    destruct (better_text _ (format_sample item)) as [b|l|];
      try discriminate.
    destruct (join eos_token (worse_text _ (format_sample item))) as [w|];
      try discriminate.
    rewrite Hrb, Hrw.
    match goal with
    | |- context [loop ours items ?s] =>
        destruct (IH s eq_refl eq_refl H) as (st' & added & -> & Hdata & Hall)
    end.
    simpl in Hdata.
    match type of Hdata with
    | context [if ?k then _ else _] => destruct k
    end.
    + eexists st', (_ :: added). split; [reflexivity|].
      split; [rewrite Hdata, <- app_assoc; reflexivity|].
      constructor; [split; reflexivity | exact Hall].
    + exists st', added. auto.
Qed.

End DatasetFacts.

(** X21.  On raw data whose better and worse texts are all strings,
    [pre_tokenize] returns, in the order of the raw data, the samples of
    the items that pass the filter; each of them has both token sequences
    shorter than [model_max_length - 576] and comes from an item the
    template does not find equal. *)
Theorem pre_tokenize_keeps_short_samples_in_order :
  forall (Px Item RawImage : Type) format_sample check_equal tokenize
         eos_token model_max_length image_processor ours
         (raw_data : list Item),
    forallb (PreferenceData.both_str Item RawImage format_sample) raw_data
    = true ->
    exists data,
      PreferenceData.pre_tokenize Px Item RawImage format_sample check_equal
        tokenize eos_token model_max_length image_processor ours raw_data
      = Some data
      /\ data
         = map (PreferenceData.sample_of Px Item RawImage format_sample
                  tokenize eos_token image_processor ours)
             (filter (PreferenceData.kept Px Item RawImage format_sample
                        check_equal tokenize eos_token model_max_length
                        image_processor ours) raw_data)
      /\ Forall (fun s =>
                   (Z.of_nat (List.length (Preference.better_input_ids Px s))
                    < model_max_length - 576)%Z
                   /\ (Z.of_nat (List.length (Preference.worse_input_ids Px s))
                       < model_max_length - 576)%Z) data
      /\ (List.length data <= List.length raw_data)%nat.
Proof.
  intros Px Item RawImage fmt ceq tok eos M ip ours raw Hstr.
  destruct (loop_on_strings Px Item RawImage fmt ceq tok eos M ip ours raw
              {| PreferenceData.data := [];
                 PreferenceData.raw_better_response := None;
                 PreferenceData.raw_worse_response := None |} Hstr)
    as (st' & Hloop & Hdata).
  simpl in Hdata. exists (PreferenceData.data Px st').
  split; [|split; [exact Hdata|split]].
  - unfold PreferenceData.pre_tokenize. now rewrite Hloop.
  - rewrite Hdata. apply Forall_map, Forall_forall. intros item Hin.
    apply filter_In in Hin as [_ Hk]. unfold PreferenceData.kept in Hk.
    apply andb_prop in Hk as [Hk _]. apply andb_prop in Hk as [Hb Hw].
    apply Z.ltb_lt in Hb, Hw. split; assumption.
  - rewrite Hdata, length_map. apply filter_length_le.
Qed.

Lemma pre_tokenize_keeps_short_samples_in_order_witness :
  exists data,
    PreferenceData.pre_tokenize nat (string * string) unit
      PreferenceData.toy_format PreferenceData.toy_check_equal
      PreferenceData.toy_tokenize "." 582 PreferenceData.toy_image_processor
      false [("a", "b"); ("same", "same"); ("y", "longer")]%string
    = Some data
    /\ List.length data = 1%nat.
Proof.
  destruct (pre_tokenize_keeps_short_samples_in_order nat (string * string)
              unit PreferenceData.toy_format PreferenceData.toy_check_equal
              PreferenceData.toy_tokenize "."%string 582%Z
              PreferenceData.toy_image_processor false
              [("a", "b"); ("same", "same"); ("y", "longer")]%string eq_refl)
    as (data & Hrun & Hdata & _).
  exists data. split; [exact Hrun|]. rewrite Hdata. reflexivity.
Defined.

(** X22.  [pre_tokenize] cannot start on an item whose better text is not
    a string: the response texts are only set by a string item, so with a
    list (or anything else) in the first item it raises, whatever
    follows. *)
Theorem pre_tokenize_raises_on_list_first :
  forall (Px Item RawImage : Type) format_sample check_equal tokenize
         eos_token model_max_length image_processor ours
         (item : Item) (rest : list Item),
    PreferenceData.is_str
      (PreferenceData.better_text RawImage (format_sample item)) = false ->
    PreferenceData.pre_tokenize Px Item RawImage format_sample check_equal
      tokenize eos_token model_max_length image_processor ours (item :: rest)
    = None.
Proof.
  intros Px Item RawImage fmt ceq tok eos M ip ours item rest H.
  unfold PreferenceData.pre_tokenize. simpl.
  now rewrite (step_not_string_first Px Item RawImage fmt ceq tok eos M ip
                 ours item [] H).
Qed.

Lemma pre_tokenize_raises_on_list_first_witness :
  PreferenceData.pre_tokenize nat (list string) unit
    (fun turns =>
       {| PreferenceData.prompt := "Q:";
          PreferenceData.better_text := PreferenceData.Lst turns;
          PreferenceData.worse_text := PreferenceData.Lst turns;
          PreferenceData.image := tt;
          PreferenceData.fs_is_better_safe := "yes";
          PreferenceData.fs_is_worse_safe := "no" |})
    (fun _ => false) PreferenceData.toy_tokenize "." 2048
    PreferenceData.toy_image_processor false [["hi"; "there"]%string]
  = None.
Proof.
  apply pre_tokenize_raises_on_list_first. reflexivity.
Defined.

(** X23.  List items take their response lengths from elsewhere: after a
    string item, every sample that list items (with joinable worse texts)
    add carries the response lengths of that string item, not its own. *)
Theorem list_items_reuse_response_lengths :
  forall (Px Item RawImage : Type) format_sample check_equal tokenize
         eos_token model_max_length image_processor ours
         (first : Item) (lists : list Item) b w,
    PreferenceData.better_text RawImage (format_sample first)
    = PreferenceData.Str b ->
    PreferenceData.worse_text RawImage (format_sample first)
    = PreferenceData.Str w ->
    forallb (fun item =>
               match PreferenceData.better_text RawImage (format_sample item),
                     PreferenceData.join eos_token
                       (PreferenceData.worse_text RawImage (format_sample item))
               with
               | PreferenceData.Lst _, Some _ => true
               | _, _ => false
               end) lists = true ->
    exists data,
      PreferenceData.pre_tokenize Px Item RawImage format_sample check_equal
        tokenize eos_token model_max_length image_processor ours
        (first :: lists) = Some data
      /\ Forall (fun s =>
                   Preference.better_response_lens Px s
                   = List.length (tokenize (b ++ eos_token)%string)
                   /\ Preference.worse_response_lens Px s
                      = List.length (tokenize (w ++ eos_token)%string)) data.
Proof.
  intros Px Item RawImage fmt ceq tok eos M ip ours first lists b w Hb Hw Hl.
  unfold PreferenceData.pre_tokenize. cbn [PreferenceData.pre_tokenize_loop].
  unfold PreferenceData.pre_tokenize_step at 1, PreferenceData.raw_texts.
  rewrite Hb, Hw. cbn [PreferenceData.add_text].
  match goal with
  | |- context [PreferenceData.pre_tokenize_loop _ _ _ _ _ _ _ _ _ _ lists ?s] =>
      destruct (loop_on_lists Px Item RawImage fmt ceq tok eos M ip ours
                  lists s _ _ eq_refl eq_refl Hl)
        as (st' & added & -> & Hdata & Hall)
  end.
  eexists. split; [reflexivity|]. rewrite Hdata. cbn [PreferenceData.data].
  apply Forall_app. split; [|exact Hall].
  match goal with
  | |- context [if ?k then _ else _] => destruct k
  end; repeat constructor.
Qed.

Lemma list_items_reuse_response_lengths_witness :
  exists data,
    PreferenceData.pre_tokenize nat PreferenceData.text unit
      (fun t =>
         {| PreferenceData.prompt := "Q:";
            PreferenceData.better_text := t;
            PreferenceData.worse_text := t;
            PreferenceData.image := tt;
            PreferenceData.fs_is_better_safe := "yes";
            PreferenceData.fs_is_worse_safe := "no" |})
      (fun _ => false) PreferenceData.toy_tokenize "." 2048
      PreferenceData.toy_image_processor false
      [PreferenceData.Str "a";
       PreferenceData.Lst ["one"; "two"; "three"]%string]
    = Some data
    /\ map (Preference.better_response_lens nat) data = [2; 2]%nat.
Proof.
  destruct (list_items_reuse_response_lengths nat PreferenceData.text unit
              (fun t =>
                 {| PreferenceData.prompt := "Q:";
                    PreferenceData.better_text := t;
                    PreferenceData.worse_text := t;
                    PreferenceData.image := tt;
                    PreferenceData.fs_is_better_safe := "yes";
                    PreferenceData.fs_is_worse_safe := "no" |})
              (fun _ => false) PreferenceData.toy_tokenize "."%string 2048%Z
              PreferenceData.toy_image_processor false
              (PreferenceData.Str "a")
              [PreferenceData.Lst ["one"; "two"; "three"]%string]
              "a"%string "a"%string eq_refl eq_refl eq_refl)
    as (data & Hrun & Hall).
  exists data. split; [exact Hrun|].
  injection Hrun as <-. reflexivity.
Defined.



(** ** [replace_image_token] *)

Section ImageTokenFacts.

Import ImageToken.
Local Open Scope string_scope.

Lemma string_app_assoc (a b c : string) : (a ++ b) ++ c = a ++ (b ++ c).
Proof. induction a as [|x a IH]; simpl; [reflexivity | now rewrite IH]. Qed.

Lemma string_app_length (a b : string) :
  String.length (a ++ b) = (String.length a + String.length b)%nat.
Proof. induction a as [|x a IH]; simpl; [reflexivity | now rewrite IH]. Qed.

Lemma string_app_nil_r (a : string) : a ++ "" = a.
Proof. induction a as [|x a IH]; simpl; [reflexivity | now rewrite IH]. Qed.

Lemma prefix_app (p l : string) :
  String.prefix p l = true <-> exists r, l = p ++ r.
Proof.
  revert l; induction p as [|a p IH]; intros l.
  - split; [intros _; exists l; reflexivity|]. intros _. now destruct l.
  - destruct l as [|b l]; simpl.
    + split; [discriminate | intros (r & Hr); discriminate].
    + destruct (Ascii.ascii_dec a b) as [->|Hne].
      * rewrite IH. split; intros (r & Hr); exists r; congruence.
      * split; [discriminate | intros (r & Hr); congruence].
Qed.

Lemma drop_length n (s : string) :
  String.length (drop n s) = (String.length s - n)%nat.
Proof.
  revert s; induction n as [|n IH]; intros [|c s]; simpl; auto.
Qed.

Lemma drop_app (p r : string) : drop (String.length p) (p ++ r) = r.
Proof. induction p as [|a p IH]; simpl; auto. Qed.

Lemma drop_app_le n (s r : string) :
  (n <= String.length s)%nat -> drop n (s ++ r) = drop n s ++ r.
Proof.
  revert s; induction n as [|n IH]; intros [|c s] H; simpl in *;
    try lia; auto.
  apply IH. lia.
Qed.

Lemma occurs_prepend k token x text :
  occurs k token text -> occurs k token (x ++ text).
Proof.
  destruct k as [|k]; simpl; auto.
  intros (a & r & -> & Hr). exists (x ++ a), r. split; [|exact Hr].
  now rewrite string_app_assoc.
Qed.

Lemma occurs_behind_match k token text :
  occurs (S k) token text -> String.prefix token text = true ->
  occurs k token (drop (String.length token) text).
Proof.
  intros (a & r & -> & Hr) _.
  rewrite <- string_app_assoc, drop_app_le
    by (rewrite string_app_length; lia).
  now apply occurs_prepend.
Qed.

Lemma occurs_behind_char k token text :
  occurs (S k) token text -> String.prefix token text = false ->
  exists c text', text = String c text' /\ occurs (S k) token text'.
Proof.
  intros (a & r & -> & Hr) Hp. destruct a as [|c a].
  - simpl in Hp. assert (String.prefix token (token ++ r) = true)
      by (apply prefix_app; now exists r).
    congruence.
  - exists c, (a ++ token ++ r). split; [reflexivity|].
    exists a, r. auto.
Qed.

Lemma split_aux_nonempty fuel sep text cur :
  (1 <= List.length (split_aux fuel sep text cur))%nat.
Proof.
  revert text cur; induction fuel as [|fuel IH]; intros text cur; simpl;
    [lia|].
  destruct (String.prefix sep text); [simpl; lia|].
  destruct text; [simpl; lia | apply IH].
Qed.

(** The scan finds as many occurrences as there are to find, *)
Lemma split_aux_finds k fuel sep text cur :
  sep <> "" -> (String.length text < fuel)%nat -> occurs k sep text ->
  (k + 1 <= List.length (split_aux fuel sep text cur))%nat.
Proof.
  intros Hsep. revert k text cur.
  induction fuel as [|fuel IH]; intros k text cur Hf Hocc; [lia|].
  destruct k as [|k]; [apply split_aux_nonempty|].
  simpl split_aux. destruct (String.prefix sep text) eqn:Hp.
  - simpl List.length.
    pose proof (occurs_behind_match k sep text Hocc Hp) as Hk.
    assert (1 <= String.length sep)%nat
      by (destruct sep; [congruence | simpl; lia]).
    assert (1 <= String.length text)%nat.
    { apply prefix_app in Hp as (r & ->). rewrite string_app_length. lia. }
    specialize (IH k (drop (String.length sep) text) "").
    rewrite drop_length in IH. specialize (IH ltac:(lia) Hk). lia.
  - destruct (occurs_behind_char k sep text Hocc Hp) as (c & text' & -> & Hk).
    apply IH; [simpl in Hf; lia | exact Hk].
Qed.

(** and no more. *)
Lemma split_aux_found k fuel sep text cur :
  sep <> "" -> (String.length text < fuel)%nat ->
  (k + 1 <= List.length (split_aux fuel sep text cur))%nat ->
  occurs k sep text.
Proof.
  intros Hsep. revert k text cur.
  induction fuel as [|fuel IH]; intros k text cur Hf Hlen; [lia|].
  destruct k as [|k]; [exact I|].
  simpl split_aux in Hlen. destruct (String.prefix sep text) eqn:Hp.
  - simpl List.length in Hlen.
    apply prefix_app in Hp as (r & ->). rewrite drop_app in Hlen.
    exists "", r. split; [reflexivity|].
    apply (IH k r ""); [|lia].
    rewrite string_app_length in Hf.
    assert (1 <= String.length sep)%nat
      by (destruct sep; [congruence | simpl; lia]).
    lia.
  - destruct text as [|c text']; [simpl in Hlen; lia|].
    apply (occurs_prepend (S k) sep (String c "") text').
    apply (IH (S k) text' (cur ++ String c "")); [simpl in Hf; lia | exact Hlen].
Qed.

(** The parts of the model put back together give the text: it is a
    split. *)
Lemma split_aux_concat fuel sep text cur :
  sep <> "" -> (String.length text < fuel)%nat ->
  String.concat sep (split_aux fuel sep text cur) = cur ++ text.
Proof.
  intros Hsep.
  assert (1 <= String.length sep)%nat
    by (destruct sep; [congruence | simpl; lia]).
  revert text cur; induction fuel as [|fuel IH]; intros text cur Hf; [lia|].
  simpl split_aux. destruct (String.prefix sep text) eqn:Hp.
  - apply prefix_app in Hp as (r & ->). rewrite drop_app.
    assert (Hr : (String.length r < fuel)%nat).
    { rewrite string_app_length in Hf. lia. }
    specialize (IH r "" Hr). change ("" ++ r)%string with r in IH.
    pose proof (split_aux_nonempty fuel sep r "") as Hne.
    destruct (split_aux fuel sep r "") as [|y ys]; [simpl in Hne; lia|].
    change (String.concat sep (cur :: y :: ys))
      with (cur ++ sep ++ String.concat sep (y :: ys))%string.
    rewrite IH. reflexivity.
  - destruct text as [|c text'].
    + simpl. now rewrite string_app_nil_r.
    + rewrite IH by (simpl in Hf; lia).
      rewrite string_app_assoc. reflexivity.
Qed.

End ImageTokenFacts.

(** X25.  [replace_image_token] tells whether the token is there twice:
    for a token that is not empty it returns true exactly when the text
    is [a + token + b + token + c] for some [a], [b], [c], and false
    otherwise; the parts its split finds, joined by the token, are the
    text; with an empty token the split raises. *)
Theorem replace_image_token_detects_two_occurrences :
  forall text token,
    token <> EmptyString ->
    ImageToken.replace_image_token text EmptyString = None
    /\ (exists parts,
          ImageToken.split text token = Some parts
          /\ String.concat token parts = text
          /\ ImageToken.replace_image_token text token
             = Some (2 <? List.length parts)%nat)
    /\ (ImageToken.replace_image_token text token = Some true
        <-> exists a b c, text = (a ++ token ++ b ++ token ++ c)%string)
    /\ (ImageToken.replace_image_token text token = Some false
        <-> ~ exists a b c, text = (a ++ token ++ b ++ token ++ c)%string).
Proof.
  intros text token Htok.
  assert (Hsplit : ImageToken.split text token
                   = Some (ImageToken.split_aux (S (String.length text))
                             token text EmptyString))
    by (unfold ImageToken.split; destruct token; [congruence | reflexivity]).
  set (parts := ImageToken.split_aux (S (String.length text)) token text
                  EmptyString) in *.
  assert (Hiff : (2 <? List.length parts)%nat = true
                 <-> exists a b c,
                       text = (a ++ token ++ b ++ token ++ c)%string).
  { rewrite Nat.ltb_lt. split.
    - intros Hlen.
      destruct (split_aux_found 2 (S (String.length text)) token text
                  EmptyString Htok ltac:(lia) ltac:(fold parts; lia))
        as (a & r & Hr & (b & c & Hc & _)).
      exists a, b, c. now rewrite Hr, Hc.
    - intros (a & b & c & ->).
      pose proof (split_aux_finds 2
                    (S (String.length (a ++ token ++ b ++ token ++ c)))
                    token (a ++ token ++ b ++ token ++ c) EmptyString
                    Htok ltac:(lia)) as H.
      unfold parts. apply H.
      exists a, (b ++ token ++ c)%string. split; [reflexivity|].
      exists b, c. split; [reflexivity | exact I]. }
  split; [reflexivity|]. split; [|split].
  - exists parts. split; [exact Hsplit|]. split.
    + unfold parts. now rewrite split_aux_concat by (auto; lia).
    + unfold ImageToken.replace_image_token. now rewrite Hsplit.
  - unfold ImageToken.replace_image_token. rewrite Hsplit.
    rewrite <- Hiff. split; [intros [= ->]; reflexivity | intros ->; reflexivity].
  - unfold ImageToken.replace_image_token. rewrite Hsplit.
    rewrite <- Hiff. split.
    + intros [= ->]. discriminate.
    + intros H. destruct (2 <? List.length parts)%nat; [now elim H | reflexivity].
Qed.

Lemma replace_image_token_detects_two_occurrences_witness :
  ImageToken.replace_image_token "<image>a cat<image>" "<image>" = Some true
  /\ ImageToken.replace_image_token "<image>a cat" "<image>" = Some false.
Proof.
  split; [|reflexivity].
  apply (proj1 (proj2 (proj2 (replace_image_token_detects_two_occurrences
                                "<image>a cat<image>" "<image>"
                                ltac:(discriminate))))).
  exists ""%string, "a cat"%string, ""%string. reflexivity.
Defined.
